(** * Python-Fuzzy-Finder: the profiler, the containment matcher and the scan

    A shallow embedding of [src/main.py].  Python objects that the program
    mutates after sharing them live in an explicit store: the two-element
    lists [[count, positions]] that [Fuzzable.__init__] creates are cells
    addressed by location, so that the dictionaries [letter_counts],
    [non_zero], [common_dict] and [shared] hold references to the same
    cells, as they do in Python.  [Fuzzable] instances are objects addressed
    by reference as well, since [compare_dicts] assigns a field of its first
    argument.

    Characters are bytes ([ascii]); the alphabet [printable] is within
    ASCII, and the program treats every character outside it alike.  The
    file system, [pathlib] and [termcolor] are collaborators: the answers
    of the file system come with the argument of [main], and the string
    operations of the other two are parameters of the presentation layer. *)

From Stdlib Require Import String Ascii ZArith Lia.
From stdpp Require Import base list strings sorting.

Local Open Scope list_scope.

(** ** Data model *)

(** A Python [str] is read as its sequence of characters. *)
Definition chars_of (s : string) : list ascii := list_ascii_of_string s.

(** [string.printable] of the Python standard library:
    digits, ascii_lowercase, ascii_uppercase, punctuation, whitespace. *)
Definition digits : string := "0123456789".
Definition ascii_lowercase : string := "abcdefghijklmnopqrstuvwxyz".
Definition ascii_uppercase : string := "ABCDEFGHIJKLMNOPQRSTUVWXYZ".
Definition punctuation : string :=
  "!" +:+ String (ascii_of_nat 34) "#$%&'()*+,-./:;<=>?@[\]^_`{|}~".
Definition whitespace : string :=
  String (ascii_of_nat 32) (String (ascii_of_nat 9) (String (ascii_of_nat 10)
    (String (ascii_of_nat 13) (String (ascii_of_nat 11)
      (String (ascii_of_nat 12) EmptyString))))).
Definition printable : list ascii :=
  Eval cbv in
    chars_of (digits +:+ ascii_lowercase +:+ ascii_uppercase +:+ punctuation
              +:+ whitespace).

(** Locations of cells and references to [Fuzzable] objects. *)
Abbreviation loc := nat (only parsing).
Abbreviation ref := nat (only parsing).

(** The two-element list [[count, positions]] kept for one character.  The
    inner [positions] list is referenced from its cell only ([append] acts
    on it in place and a slice replaces it), so it is kept by value. *)
Record entry := Entry { count : nat; positions : list nat }.

(** A Python [dict] from characters to such lists: insertion ordered, the
    values are references. *)
Abbreviation dict := (list (ascii * loc)) (only parsing).

Fixpoint dict_get (d : dict) (k : ascii) : option loc :=
  match d with
  | [] => None
  | (k', v) :: d' => if decide (k = k') then Some v else dict_get d' k
  end.

(** [d[k] = v]: an existing key keeps its place. *)
Fixpoint dict_set (d : dict) (k : ascii) (v : loc) : dict :=
  match d with
  | [] => [(k, v)]
  | (k', v') :: d' =>
      if decide (k = k') then (k, v) :: d' else (k', v') :: dict_set d' k v
  end.

(** [k in d] *)
Definition dict_in (k : ascii) (d : dict) : bool :=
  match dict_get d k with Some _ => true | None => false end.

Definition keys (d : dict) : list ascii := d.*1.
Definition values (d : dict) : list loc := d.*2.

(** A [Fuzzable] instance.  [shared] is declared in the class body but only
    assigned by [compare_dicts]: [None] is the unset attribute. *)
Record Fuzzable := MkFuzzable {
  path : string;
  shared : option dict;
  non_zero : dict
}.

(** A directory entry as [os.scandir] yields it. *)
Record DirEntry := MkDirEntry { entry_name : string; entry_path : string }.

(** The program state: the store of cells, the store of [Fuzzable] objects
    and the two output streams (one element per printed line). *)
Record state := MkState {
  cells : list entry;
  objs : list Fuzzable;
  stdout : list string;
  stderr : list string
}.

Definition empty_state : state := MkState [] [] [] [].

Definition set_cells (f : list entry → list entry) (σ : state) : state :=
  MkState (f (cells σ)) (objs σ) (stdout σ) (stderr σ).
Definition set_objs (f : list Fuzzable → list Fuzzable) (σ : state) : state :=
  MkState (cells σ) (f (objs σ)) (stdout σ) (stderr σ).
Definition set_stdout (f : list string → list string) (σ : state) : state :=
  MkState (cells σ) (objs σ) (f (stdout σ)) (stderr σ).
Definition set_stderr (f : list string → list string) (σ : state) : state :=
  MkState (cells σ) (objs σ) (stdout σ) (f (stderr σ)).

(** ** Exceptions and the state-and-exception monad *)

(** [Dangling] is not a Python exception: it marks the use of a reference
    that the store does not hold, which no Python state contains. *)
Inductive exn :=
| KeyError (k : ascii)
| AttributeError
| OSError
| SystemExit (code : Z)
| Dangling.

Inductive result (A : Type) :=
| Ok (a : A) (σ : state)
| Raise (e : exn) (σ : state).
Arguments Ok {A} a σ.
Arguments Raise {A} e σ.

Definition M (A : Type) : Type := state → result A.

Definition ret {A} (a : A) : M A := fun σ => Ok a σ.
Definition raise {A} (e : exn) : M A := fun σ => Raise e σ.
Definition bind {A B} (k : A → M B) (m : M A) : M B :=
  fun σ => match m σ with
           | Ok a σ' => k a σ'
           | Raise e σ' => Raise e σ'
           end.

#[global] Instance M_ret : MRet M := @ret.
#[global] Instance M_bind : MBind M := @bind.

Definition new_cell (e : entry) : M loc :=
  fun σ => Ok (length (cells σ)) (set_cells (λ cs, cs ++ [e]) σ).
Definition read_cell (l : loc) : M entry :=
  fun σ => match cells σ !! l with
           | Some e => Ok e σ
           | None => Raise Dangling σ
           end.
Definition write_cell (l : loc) (e : entry) : M unit :=
  fun σ => Ok tt (set_cells (λ cs, <[l := e]> cs) σ).

Definition new_obj (o : Fuzzable) : M ref :=
  fun σ => Ok (length (objs σ)) (set_objs (λ os, os ++ [o]) σ).
Definition read_obj (r : ref) : M Fuzzable :=
  fun σ => match objs σ !! r with
           | Some o => Ok o σ
           | None => Raise Dangling σ
           end.
Definition write_obj (r : ref) (o : Fuzzable) : M unit :=
  fun σ => Ok tt (set_objs (λ os, <[r := o]> os) σ).

Definition print (line : string) : M unit :=
  fun σ => Ok tt (set_stdout (λ out, out ++ [line]) σ).
Definition eprint (line : string) : M unit :=
  fun σ => Ok tt (set_stderr (λ out, out ++ [line]) σ).

(** [d[k]] as an expression: a missing key raises [KeyError]. *)
Definition subscript (d : dict) (k : ascii) : M loc :=
  match dict_get d k with
  | Some v => ret v
  | None => raise (KeyError k)
  end.

(** ** [Fuzzable.__init__] *)

(** [{x: [0, []] for x in printable}]: one fresh list per character. *)
Fixpoint seed_counts (alphabet : list ascii) (acc : dict) : M dict :=
  match alphabet with
  | [] => ret acc
  | x :: rest =>
      y ← new_cell (Entry 0 []);
      seed_counts rest (dict_set acc x y)
  end.

(** [for idx, char in enumerate(path)]: the two statements of the body. *)
Fixpoint count_chars (letter_counts : dict) (idx : nat) (p : list ascii)
  : M unit :=
  match p with
  | [] => ret tt
  | char :: rest =>
      y ← subscript letter_counts char;
      e ← read_cell y;
      write_cell y (Entry (count e + 1) (positions e));;
      y ← subscript letter_counts char;
      e ← read_cell y;
      write_cell y (Entry (count e) (positions e ++ [idx]));;
      count_chars letter_counts (S idx) rest
  end.

(** [{x: y for x, y in letter_counts.items() if y[0] > 0}]: the values are
    the lists of [letter_counts] themselves, not copies. *)
Fixpoint keep_non_zero (items : dict) (acc : dict) : M dict :=
  match items with
  | [] => ret acc
  | (x, y) :: rest =>
      e ← read_cell y;
      if 0 <? count e then keep_non_zero rest (dict_set acc x y)
      else keep_non_zero rest acc
  end.

(** The constructor.  The instance is entered in the store once its fields
    are set: when the loop raises, the half-built instance is unreachable. *)
Definition Fuzzable_init (p : string) : M ref :=
  letter_counts ← seed_counts printable [];
  count_chars letter_counts 0 (chars_of p);;
  nz ← keep_non_zero letter_counts [];
  new_obj (MkFuzzable p None nz).

(** ** [compare_dicts] *)

(** [{x: y for x, y in fuzz1.non_zero.items() if x in fuzz2.non_zero}] *)
Fixpoint shave (items : dict) (other : dict) (acc : dict) : dict :=
  match items with
  | [] => acc
  | (x, y) :: rest =>
      if dict_in x other then shave rest other (dict_set acc x y)
      else shave rest other acc
  end.

(** The [for key in common_dict] loop.  [Some b] is an early [return b],
    [None] is the loop running to its end. *)
Fixpoint check_sizes (ks : list ascii) (common_dict : dict) (fuzz2 : ref)
  : M (option bool) :=
  match ks with
  | [] => ret None
  | key :: rest =>
      y1 ← subscript common_dict key;
      e1 ← read_cell y1;
      let file_count := count e1 in
      f2 ← read_obj fuzz2;
      y2 ← subscript (non_zero f2) key;
      e2 ← read_cell y2;
      let query_count := count e2 in
      if negb (query_count <=? file_count) then ret (Some false)
      else
        y ← subscript common_dict key;
        e ← read_cell y;
        write_cell y (Entry (count e) (take query_count (positions e)));;
        check_sizes rest common_dict fuzz2
  end.

Definition compare_dicts (fuzz1 fuzz2 : ref) : M bool :=
  f1 ← read_obj fuzz1;
  f2 ← read_obj fuzz2;
  let common_dict := shave (non_zero f1) (non_zero f2) [] in
  if negb (length common_dict =? length (non_zero f2)) then ret false
  else
    r ← check_sizes (keys common_dict) common_dict fuzz2;
    match r with
    | Some b => ret b
    | None =>
        f1' ← read_obj fuzz1;
        write_obj fuzz1 (MkFuzzable (path f1') (Some common_dict) (non_zero f1'));;
        ret true
    end.

(** ** The command-line layer: [colorize] and [main] *)

(** [os.path.join(a, b)] of [posixpath]. *)
Definition starts_with_sep (s : string) : bool :=
  match s with
  | String c _ => bool_decide (c = ascii_of_nat 47)
  | EmptyString => false
  end.
Fixpoint ends_with_sep (s : string) : bool :=
  match s with
  | EmptyString => false
  | String c EmptyString => bool_decide (c = ascii_of_nat 47)
  | String _ s' => ends_with_sep s'
  end.
Definition os_path_join (a b : string) : string :=
  if starts_with_sep b then b
  else if (String.length a =? 0) || ends_with_sep a then a +:+ b
  else a +:+ String (ascii_of_nat 47) b.

(** The [pathlib.Path] argument of [main] together with what the file
    system answers for it. *)
Record PathArg := MkPathArg {
  path_str : string;
  path_exists : bool;
  path_is_dir : bool;
  path_absolute : string;
  dir_entries : list DirEntry
}.

(** [os.scandir(path)]: the standard library raises [FileNotFoundError] or
    [NotADirectoryError], both [OSError]s, unless [path] is an existing
    directory; an existing directory is taken to be readable. *)
Definition os_scandir (p : PathArg) : M (list DirEntry) :=
  if path_exists p && path_is_dir p then ret (dir_entries p)
  else raise OSError.

(** The two nested loops that open [colorize]. *)
Fixpoint collect_indexes (ks : list ascii) (sh : dict) (matching_indexes : list nat)
  : M (list nat) :=
  match ks with
  | [] => ret matching_indexes
  | key :: rest =>
      y ← subscript sh key;
      e ← read_cell y;
      collect_indexes rest sh (matching_indexes ++ positions e)
  end.

Section Presentation.
(** The collaborators of the presentation layer: [termcolor.colored] and
    the two [pathlib] operations [colorize] uses, on path strings. *)
Variable colored : ascii → string → string.
Variable Path_parent : string → string.
Variable Path_absolute : string → string.

(** The third loop of [colorize]. *)
Fixpoint paint (idx : nat) (cs : list ascii) (matching_indexes : list nat)
  (color : string) (output : string) : string :=
  match cs with
  | [] => output
  | char :: rest =>
      paint (S idx) rest matching_indexes color
        (if bool_decide (idx ∈ matching_indexes)
         then output +:+ colored char color
         else output +:+ String char EmptyString)
  end.

Definition colorize (fuzzable : ref) (color : string) : M string :=
  f ← read_obj fuzzable;
  match shared f with
  | None => raise AttributeError
  | Some sh =>
      matching_indexes ← collect_indexes (keys sh) sh [];
      let dirname := Path_parent (path f) in
      let output :=
        paint 0 (chars_of (Path_absolute (path f))) matching_indexes color
          EmptyString in
      ret (os_path_join dirname output)
  end.

(** [for file in files_iter: print(file.path)] *)
Fixpoint list_entries (files : list DirEntry) : M unit :=
  match files with
  | [] => ret tt
  | file :: rest => print (entry_path file);; list_entries rest
  end.

(** The matching loop of [main]. *)
Fixpoint scan (p : PathArg) (fuzzable_query : ref) (color : string)
  (files : list DirEntry) : M unit :=
  match files with
  | [] => ret tt
  | file :: rest =>
      fuzzable_file ←
        Fuzzable_init (os_path_join (path_absolute p) (entry_name file));
      b ← compare_dicts fuzzable_file fuzzable_query;
      (if (b : bool) then line ← colorize fuzzable_file color; print line
       else ret tt);;
      scan p fuzzable_query color rest
  end.

Definition main (p : PathArg) (query : string) (color : string) : M unit :=
  (if negb (path_exists p)
   then eprint ("Path '" +:+ path_str p +:+ "' does not exist.")
   else ret tt);;
  (if negb (path_is_dir p)
   then eprint ("Path '" +:+ path_str p +:+ "' is not a directory.")
   else ret tt);;
  files_iter ← os_scandir p;
  if String.length query =? 0 then
    list_entries files_iter;;
    raise (SystemExit 0)
  else
    fuzzable_query ← Fuzzable_init query;
    scan p fuzzable_query color files_iter.
End Presentation.

(** The lines the two path checks of [main] write to the error stream. *)
Definition path_warnings (p : PathArg) : list string :=
  (if path_exists p then []
   else ["Path '" +:+ path_str p +:+ "' does not exist."]) ++
  (if path_is_dir p then []
   else ["Path '" +:+ path_str p +:+ "' is not a directory."]).

(** ** What the constructor computes, as pure functions *)

(** The effect of the counting loop, started at index [idx], on the list
    kept for the character [c]. *)
Fixpoint tally (c : ascii) (idx : nat) (p : list ascii) (e : entry) : entry :=
  match p with
  | [] => e
  | char :: rest =>
      tally c (S idx) rest
        (if decide (char = c)
         then Entry (count e + 1) (positions e ++ [idx]) else e)
  end.

(** The first character of [p] outside the alphabet, and the characters
    before it. *)
Fixpoint first_unknown (al p : list ascii) : option ascii :=
  match p with
  | [] => None
  | c :: rest => if decide (c ∈ al) then first_unknown al rest else Some c
  end.
Fixpoint known_prefix (al p : list ascii) : list ascii :=
  match p with
  | [] => []
  | c :: rest => if decide (c ∈ al) then c :: known_prefix al rest else []
  end.

(** The indices at which [c] occurs in [p], counted from [idx]. *)
Fixpoint occurrences (c : ascii) (idx : nat) (p : list ascii) : list nat :=
  match p with
  | [] => []
  | char :: rest =>
      if decide (char = c) then idx :: occurrences c (S idx) rest
      else occurrences c (S idx) rest
  end.

(** The cells the constructor allocates for the string [p], and the
    [non_zero] dictionary over them when they start at location [base]. *)
Definition profile_block (p : list ascii) : list entry :=
  (λ c, tally c 0 p (Entry 0 [])) <$> printable.
Definition profile_dict (base : nat) (p : list ascii) : list (ascii * nat) :=
  filter (λ xy, 0 < count (tally (fst xy) 0 p (Entry 0 [])))
    (zip printable (seq base (length printable))).

(** [y[0] > 0] for the cell at [y] of the store [cs]. *)
Definition nonzero_at (cs : list entry) (y : nat) : bool :=
  match cs !! y with Some e => 0 <? count e | None => false end.

(** ** What [compare_dicts] computes, as pure functions *)

(** [d[k][0]] and [d[k][1]] in the store [cs]. *)
Definition count_at (cs : list entry) (d : dict) (k : ascii) : option nat :=
  y ← dict_get d k; e ← cs !! y; Some (count e).
Definition positions_at (cs : list entry) (d : dict) (k : ascii)
  : option (list nat) :=
  y ← dict_get d k; e ← cs !! y; Some (positions e).

(** The slice assignment [y[1] = y[1][:n]]. *)
Definition truncate (n : nat) (e : entry) : entry :=
  Entry (count e) (take n (positions e)).

(** The effect of the size-checking loop on the store of cells, with the
    value it returns early ([None]: it ran to its end). *)
Fixpoint restrict (common nzq : dict) (ks : list ascii) (cs : list entry)
  : option bool * list entry :=
  match ks with
  | [] => (None, cs)
  | k :: rest =>
      match dict_get common k, dict_get nzq k with
      | Some y1, Some y2 =>
          match cs !! y1, cs !! y2 with
          | Some e1, Some e2 =>
              if count e2 <=? count e1
              then restrict common nzq rest (<[y1 := truncate (count e2) e1]> cs)
              else (Some false, cs)
          | _, _ => (Some false, cs)
          end
      | _, _ => (Some false, cs)
      end
  end.

(** The keys of the candidate that the query has too. *)
Definition common_of (f1 f2 : Fuzzable) : dict :=
  filter (λ xy, fst xy ∈ keys (non_zero f2)) (non_zero f1).

(** The state [compare_dicts fuzz1 fuzz2] ends in and the value it returns,
    for a candidate [f1] and a query [f2] read in the store [σ]. *)
Definition compare_outcome (fuzz1 : nat) (f1 f2 : Fuzzable) (σ : state)
  : result bool :=
  let common := common_of f1 f2 in
  if negb (length common =? length (non_zero f2)) then Ok false σ
  else
    let r := restrict common (non_zero f2) (keys common) (cells σ) in
    let σ' := set_cells (λ _, r.2) σ in
    match r.1 with
    | Some b => Ok b σ'
    | None =>
        Ok true
          (set_objs
             (λ os, <[fuzz1 := MkFuzzable (path f1) (Some common) (non_zero f1)]> os)
             σ')
    end.

(** ** Well-formed stores *)

(** What holds of every dictionary a Python program can build, and of the
    [non_zero] dictionaries of this program: keys are unique, every value
    is an allocated cell, and no cell is the value of two keys or of two
    objects. *)
Record profile_wf (cs : list entry) (o : Fuzzable) : Prop := {
  wf_keys : NoDup (keys (non_zero o));
  wf_values : NoDup (values (non_zero o));
  wf_alloc : ∀ y, y ∈ values (non_zero o) → y < length cs
}.

Record store_wf (σ : state) : Prop := {
  wf_profiles : ∀ r o, objs σ !! r = Some o → profile_wf (cells σ) o;
  wf_separate : ∀ r1 r2 o1 o2 y,
    r1 ≠ r2 → objs σ !! r1 = Some o1 → objs σ !! r2 = Some o2 →
    y ∈ values (non_zero o1) → y ∉ values (non_zero o2)
}.

(** The cells of a profile of [p] stand at [base] and hold the counts the
    constructor gave them. *)
Definition counts_at (cs : list entry) (base : nat) (p : list ascii) : Prop :=
  ∀ i c, printable !! i = Some c →
    count <$> cs !! (base + i) = Some (count (tally c 0 p (Entry 0 []))).

(** The state the constructor ends in when it does not raise. *)
Definition init_state (p : string) (σ : state) : state :=
  set_objs
    (λ os, os ++ [MkFuzzable p None
                    (profile_dict (length (cells σ)) (chars_of p))])
    (set_cells (λ cs, cs ++ profile_block (chars_of p)) σ).

(** The invariant of the data model on one cell, and what is left of it
    once a comparison has cut position lists. *)
Definition entry_exact (e : entry) : Prop :=
  length (positions e) = count e ∧ StronglySorted lt (positions e).
Definition entry_sound (e : entry) : Prop :=
  length (positions e) ≤ count e ∧ StronglySorted lt (positions e).

(** The invariant on a profile: it holds of the cell of every retained
    character. *)
Definition profile_inv (I : entry → Prop) (cs : list entry) (o : Fuzzable)
  : Prop :=
  ∀ c y, (c, y) ∈ non_zero o → ∃ e, cs !! y = Some e ∧ I e.

(** The sum of the counts over the retained characters. *)
Definition total_count (cs : list entry) (d : dict) : nat :=
  sum_list_with
    (λ xy, match cs !! snd xy with Some e => count e | None => 0 end) d.

(** The stores the program can be in: it starts from the empty store, and
    its steps on the store are the constructor (returning or raising), the
    comparison and printing. *)
Inductive reachable : state → Prop :=
| reach_empty : reachable empty_state
| reach_init p σ r σ' :
    reachable σ → Fuzzable_init p σ = Ok r σ' → reachable σ'
| reach_init_raise p σ e σ' :
    reachable σ → Fuzzable_init p σ = Raise e σ' → reachable σ'
| reach_compare fuzz1 fuzz2 σ b σ' :
    reachable σ → compare_dicts fuzz1 fuzz2 σ = Ok b σ' → reachable σ'
| reach_print line σ :
    reachable σ → reachable (set_stdout (λ out, out ++ [line]) σ)
| reach_eprint line σ :
    reachable σ → reachable (set_stderr (λ err, err ++ [line]) σ).

(** ** Containment, in the words of the specification *)

(** Every character present in the query profile is present in the
    candidate profile with a count that is at least the query's. *)
Definition contains (cs : list entry) (cand query : dict) : Prop :=
  ∀ c n, count_at cs query c = Some n →
         ∃ m, count_at cs cand c = Some m ∧ n ≤ m.

(** ** What [main] reports, as pure functions of the strings *)

(** A string all of whose characters are in [printable]. *)
Definition over_alphabet (s : string) : Prop :=
  Forall (λ c, c ∈ printable) (chars_of s).

(** The number of occurrences of [c] in [s]. *)
Definition occ (c : ascii) (s : string) : nat :=
  length (occurrences c 0 (chars_of s)).

(** The verdict on a candidate string and a query string. *)
Definition matches (cand query : string) : bool :=
  forallb (λ c, occ c query <=? occ c cand) printable.

(** The characters the two strings share, in the order of the alphabet,
    and the indexes of the candidate that a match marks: for each shared
    character its first [occ c query] places. *)
Definition matched_keys (cand query : string) : list ascii :=
  filter (λ c, 0 < occ c cand ∧ 0 < occ c query) printable.
Definition matched_indexes (cand query : string) : list nat :=
  concat ((λ c, take (occ c query) (occurrences c 0 (chars_of cand)))
            <$> matched_keys cand query).

(** The string [main] profiles for a directory entry, and the line it
    prints for it when it matches. *)
Definition candidate (p : PathArg) (file : DirEntry) : string :=
  os_path_join (path_absolute p) (entry_name file).
Definition report_line (colored : ascii → string → string)
    (Path_parent Path_absolute : string → string)
    (cand query color : string) : string :=
  os_path_join (Path_parent cand)
    (paint colored 0 (chars_of (Path_absolute cand))
       (matched_indexes cand query) color EmptyString).

(** The query object of a scan: it is the profile of [query], and its
    cells hold the counts of [query]. *)
Definition query_ok (σ : state) (fq : nat) (query : string) : Prop :=
  ∃ base sh,
    objs σ !! fq =
      Some (MkFuzzable query sh (profile_dict base (chars_of query))) ∧
    counts_at (cells σ) base (chars_of query).

(** ** Stores used as concrete inputs *)

(** The state of a computation, however it ended. *)
Definition final_state {A} (r : result A) : state :=
  match r with Ok _ σ => σ | Raise _ σ => σ end.

(** The store after [Fuzzable(cand)] and then [Fuzzable(query)] have been
    built in the empty store: the candidate is object 0, the query is
    object 1. *)
Definition two_profiles (cand query : string) : M nat :=
  _ ← Fuzzable_init cand; Fuzzable_init query.

(** The profiles of aabbb and ab, and the store after the first has been
    compared with the second. *)
Definition store_aabbb_ab : state :=
  Eval vm_compute in final_state (two_profiles "aabbb" "ab" empty_state).
Definition store_aabbb_ab_compared : state :=
  Eval vm_compute in final_state (compare_dicts 0 1 store_aabbb_ab).

(** The profiles of aa and a, and the store after the first has been
    compared with the second. *)
Definition store_aa_a : state :=
  Eval vm_compute in final_state (two_profiles "aa" "a" empty_state).
Definition store_aa_a_compared : state :=
  Eval vm_compute in final_state (compare_dicts 0 1 store_aa_a).

(** One profile, of the string a, built in the empty store, and the store
    after it has been compared with itself. *)
Definition store_a : state :=
  Eval vm_compute in final_state (Fuzzable_init "a" empty_state).
Definition store_a_compared : state :=
  Eval vm_compute in final_state (compare_dicts 0 0 store_a).

(** ** A directory used as concrete input *)

(** A stand-in for [termcolor.colored] that brackets the character. *)
Definition mark (c : ascii) (color : string) : string :=
  String "<" (String c (String ">" EmptyString)).

(** Two entries of the directory /d: a.txt, and a name whose first
    character is the byte 233, outside [printable]. *)
Definition entry_a : DirEntry := MkDirEntry "a.txt" "d/a.txt".
Definition entry_latin1 : DirEntry :=
  MkDirEntry (String (ascii_of_nat 233) ".txt")
    ("d/" +:+ String (ascii_of_nat 233) ".txt").
Definition dir_of (files : list DirEntry) : PathArg :=
  MkPathArg "d" true true "/d" files.

(** [main] on the directory /d with the query a. *)
Definition run_main (files : list DirEntry) : result unit :=
  main mark (λ _, "/d"%string) id (dir_of files) "a" "red" empty_state.

(** ** One round of the matching loop, on two strings *)

(** [Fuzzable(query)], [Fuzzable(cand)] and the comparison of the two, in
    the order in which [main] runs them for one entry. *)
Definition fresh_compare (cand query : string) : M bool :=
  fuzzable_query ← Fuzzable_init query;
  fuzzable_file ← Fuzzable_init cand;
  compare_dicts fuzzable_file fuzzable_query.

(** The same with the body of the conditional of the loop of [main]: the
    line printed for the entry, when one is printed. *)
Definition report (colored : ascii → string → string)
    (Path_parent Path_absolute : string → string)
    (cand query color : string) : M (option string) :=
  fuzzable_query ← Fuzzable_init query;
  fuzzable_file ← Fuzzable_init cand;
  b ← compare_dicts fuzzable_file fuzzable_query;
  if (b : bool)
  then line ← colorize colored Path_parent Path_absolute fuzzable_file color;
       ret (Some line)
  else ret None.

(** The entries of a listing that the loop of [main] gets through: those
    before the first one whose path the constructor cannot profile. *)
Definition profilable (p : PathArg) (file : DirEntry) : bool :=
  forallb (λ c, bool_decide (c ∈ printable)) (chars_of (candidate p file)).
Fixpoint scanned (p : PathArg) (files : list DirEntry) : list DirEntry :=
  match files with
  | [] => []
  | file :: rest => if profilable p file then file :: scanned p rest else []
  end.

(** The number of occurrences of [c] in a list of characters. *)
Definition count_of (c : ascii) (l : list ascii) : nat :=
  length (filter (λ x, x = c) l).

(** The profiles of aab (object 0) and of abb (object 1), and the store
    after the first has been compared with the second. *)
Definition store_aab_abb : state :=
  Eval vm_compute in final_state (two_profiles "aab" "abb" empty_state).
Definition store_aab_abb_compared : state :=
  Eval vm_compute in final_state (compare_dicts 0 1 store_aab_abb).

(** ** Profiles that stay true to their string *)

(** The object [o] of the store [σ] is a profile of its own [path]: its
    dictionary is the one the constructor built, at some location [base];
    each of its cells holds what the constructor put there, up to a cut of
    the position list; and [shared], once assigned, is a part of
    [non_zero]. *)
Definition faithful (σ : state) (o : Fuzzable) : Prop :=
  over_alphabet (path o) ∧
  (∀ sh, shared o = Some sh → sh `sublist_of` non_zero o) ∧
  ∃ base,
    non_zero o = profile_dict base (chars_of (path o)) ∧
    ∀ i c, printable !! i = Some c →
      ∃ n, cells σ !! (base + i) =
           Some (truncate n (tally c 0 (chars_of (path o)) (Entry 0 []))).

(** Everything that exists in [σ] is still there, unchanged, in [σ']. *)
Definition extends (σ σ' : state) : Prop :=
  (∀ r o, objs σ !! r = Some o → objs σ' !! r = Some o) ∧
  (∀ y e, cells σ !! y = Some e → cells σ' !! y = Some e).

(** * Verification *)

(** ** Running the monad *)

Lemma run_bind {A B} (m : M A) (k : A → M B) (σ : state) :
  (m ≫= k) σ =
  match m σ with Ok a σ' => k a σ' | Raise e σ' => Raise e σ' end.
Proof. reflexivity. Qed.

Lemma read_cell_ok (l : loc) (e : entry) (σ : state) :
  cells σ !! l = Some e → read_cell l σ = Ok e σ.
Proof. unfold read_cell. by intros ->. Qed.

Lemma read_obj_ok (r : ref) (o : Fuzzable) (σ : state) :
  objs σ !! r = Some o → read_obj r σ = Ok o σ.
Proof. unfold read_obj. by intros ->. Qed.

(** ** Dictionaries *)

Lemma dict_get_Some (d : dict) (k : ascii) (v : loc) :
  dict_get d k = Some v → (k, v) ∈ d.
Proof.
  induction d as [|[k' v'] d IH]; simpl; [done|].
  case_decide as Hk.
  - intros [= ->]. subst k'. left.
  - intros H. right. by apply IH.
Qed.

Lemma dict_get_None (d : dict) (k : ascii) :
  dict_get d k = None ↔ k ∉ keys d.
Proof.
  unfold keys. induction d as [|[k' v'] d IH]; simpl.
  - split; [intros _; apply not_elem_of_nil | done].
  - rewrite not_elem_of_cons. case_decide as Hk.
    + split; [done | by intros [? _]].
    + rewrite IH. split; [by intros ? | by intros [_ ?]].
Qed.

Lemma dict_get_is_Some (d : dict) (k : ascii) :
  is_Some (dict_get d k) ↔ k ∈ keys d.
Proof.
  rewrite <-not_eq_None_Some, dict_get_None.
  split; [apply dec_stable | auto].
Qed.

Lemma dict_get_NoDup (d : dict) (k : ascii) (v : loc) :
  NoDup (keys d) → (k, v) ∈ d → dict_get d k = Some v.
Proof.
  unfold keys. induction d as [|[k' v'] d IH]; simpl.
  - intros _ H. by apply elem_of_nil in H.
  - rewrite NoDup_cons. intros [Hk' Hd] [Heq|Hin]%elem_of_cons.
    + injection Heq as Hk Hv. rewrite decide_True by done. by rewrite Hv.
    + rewrite decide_False; [by apply IH|].
      intros Hk. apply Hk'. apply list_elem_of_fmap. exists (k, v).
      simpl. by split.
Qed.

Lemma dict_set_fresh (d : dict) (k : ascii) (v : loc) :
  k ∉ keys d → dict_set d k v = d ++ [(k, v)].
Proof.
  unfold keys. induction d as [|[k' v'] d IH]; simpl; [done|].
  rewrite not_elem_of_cons. intros [Hk Hd].
  rewrite decide_False by done. by rewrite IH.
Qed.

Lemma dict_in_true (k : ascii) (d : dict) :
  dict_in k d = true ↔ k ∈ keys d.
Proof.
  unfold dict_in. rewrite <-dict_get_is_Some.
  destruct (dict_get d k); split; intros H; try done; by destruct H.
Qed.

Lemma shave_filter (items other acc : dict) :
  NoDup (keys acc ++ keys items) →
  shave items other acc =
  acc ++ filter (λ xy, fst xy ∈ keys other) items.
Proof.
  revert acc. induction items as [|[x y] items IH]; intros acc Hnd;
    cbn [shave].
  - by rewrite app_nil_r.
  - assert ((x ∉ keys acc) ∧ NoDup (keys (acc ++ [(x, y)]) ++ keys items))
      as [Hx Hnd'].
    { unfold keys in *. simpl in Hnd. rewrite fmap_app. simpl.
      rewrite <-(assoc_L (++)). simpl. split; [|done].
      apply NoDup_app in Hnd as (_ & Hd & _). intros Hin.
      apply (Hd x Hin). left. }
    rewrite filter_cons. simpl.
    destruct (dict_in x other) eqn:Hin.
    + apply dict_in_true in Hin. rewrite decide_True by done.
      rewrite dict_set_fresh by done. rewrite IH by done.
      by rewrite <-(assoc_L (++)).
    + rewrite decide_False.
      * apply IH. unfold keys in *. simpl in Hnd.
        apply NoDup_app in Hnd as (H1 & H2 & H3).
        apply NoDup_app. split_and!; [done| |by apply NoDup_cons in H3 as [_ ?]].
        intros z Hz Hz'. apply (H2 z Hz). by right.
      * rewrite <-dict_in_true. by rewrite Hin.
Qed.


(** ** The constructor *)

Lemma state_eta (σ : state) :
  MkState (cells σ) (objs σ) (stdout σ) (stderr σ) = σ.
Proof. by destruct σ. Qed.

Lemma set_cells_const (cs : list entry) (f : list entry → list entry)
    (σ : state) :
  set_cells (λ _, cs) (set_cells f σ) = set_cells (λ _, cs) σ.
Proof. done. Qed.

Lemma printable_NoDup : NoDup printable.
Proof. apply (bool_decide_unpack (NoDup printable)). by vm_compute. Qed.

(** From here on the alphabet is used through [printable_NoDup] only. *)
#[global] Opaque printable.

Lemma keys_zip_seq (al : list ascii) (base : nat) :
  keys (zip al (seq base (length al))) = al.
Proof. unfold keys. apply fst_zip. by rewrite length_seq. Qed.

Lemma values_zip_seq (al : list ascii) (base : nat) :
  values (zip al (seq base (length al))) = seq base (length al).
Proof. unfold values. apply snd_zip. by rewrite length_seq. Qed.

Lemma dict_get_zip_seq (al : list ascii) (base i : nat) (c : ascii) :
  NoDup al → al !! i = Some c →
  dict_get (zip al (seq base (length al))) c = Some (base + i).
Proof.
  intros Hnd Hi. apply dict_get_NoDup; [by rewrite keys_zip_seq|].
  apply list_elem_of_lookup. exists i.
  rewrite lookup_zip_with, Hi. simpl.
  rewrite lookup_seq_lt by (by eapply lookup_lt_Some). done.
Qed.

Lemma seed_counts_spec (al : list ascii) (acc : dict) (σ : state) :
  NoDup (keys acc ++ al) →
  seed_counts al acc σ =
  Ok (acc ++ zip al (seq (length (cells σ)) (length al)))
     (set_cells (λ cs, cs ++ replicate (length al) (Entry 0 [])) σ).
Proof.
  revert acc σ. induction al as [|x al IH]; intros acc σ Hnd.
  - simpl. unfold ret, set_cells. by rewrite !app_nil_r, state_eta.
  - cbn [seed_counts]. rewrite run_bind. cbn [new_cell].
    assert (x ∉ keys acc) as Hx.
    { apply NoDup_app in Hnd as (_ & Hd & _). intros Hin.
      apply (Hd x Hin). left. }
    rewrite dict_set_fresh by done. rewrite IH.
    + unfold set_cells. simpl. rewrite length_app. simpl.
      rewrite <-!(assoc_L (++)). simpl.
      by replace (length (cells σ) + 1) with (S (length (cells σ))) by lia.
    + unfold keys in *. rewrite fmap_app, <-(assoc_L (++)). done.
Qed.

Lemma zip_with_keep (al : list ascii) (es : list entry) :
  length es = length al → zip_with (λ _ e, e) al es = es.
Proof.
  revert es. induction al as [|c al IH]; intros [|e es] Hlen; try done.
  simpl. f_equal. apply IH. by injection Hlen.
Qed.

Lemma zip_with_insert_step {C} (f : ascii → entry → C) (g : entry → entry)
    (al : list ascii) (es : list entry) (i : nat) (char : ascii) (e : entry) :
  NoDup al → al !! i = Some char → es !! i = Some e →
  zip_with f al (<[i := g e]> es) =
  zip_with (λ c x, f c (if decide (char = c) then g x else x)) al es.
Proof.
  intros Hnd Hi He. apply list_eq. intros j.
  rewrite !lookup_zip_with. destruct (decide (j = i)) as [->|Hne].
  - rewrite list_lookup_insert_eq by (by eapply lookup_lt_Some).
    rewrite Hi, He. simpl. by rewrite decide_True.
  - rewrite list_lookup_insert_ne by done.
    destruct (al !! j) as [c|] eqn:Hj; [|done]. simpl.
    destruct (es !! j) as [x|]; [|done]. simpl.
    rewrite decide_False; [done|]. intros <-.
    apply Hne. by eapply NoDup_lookup.
Qed.

Lemma count_chars_spec (al p : list ascii) (idx : nat) (σ : state)
    (pre es : list entry) :
  NoDup al → length es = length al → cells σ = pre ++ es →
  count_chars (zip al (seq (length pre) (length al))) idx p σ =
  let σ' :=
    set_cells (λ _, pre ++ zip_with (λ c e, tally c idx (known_prefix al p) e)
                              al es) σ in
  match first_unknown al p with
  | None => Ok tt σ'
  | Some c => Raise (KeyError c) σ'
  end.
Proof.
  intros Hnd. revert idx σ es.
  induction p as [|char p IH]; intros idx σ es Hlen Hcells.
  - simpl. rewrite zip_with_keep by done. unfold set_cells, ret.
    by rewrite <-Hcells, state_eta.
  - cbn [count_chars first_unknown known_prefix].
    destruct (decide (char ∈ al)) as [Hin|Hout].
    + apply list_elem_of_lookup in Hin as [i Hi].
      destruct (lookup_lt_is_Some_2 es i) as [e He].
      { rewrite Hlen. by eapply lookup_lt_Some. }
      assert (∀ es', (pre ++ es') !! (length pre + i) = es' !! i) as Hlook.
      { intros es'. by rewrite lookup_app_r, Nat.add_comm, Nat.add_sub by lia. }
      unfold subscript. rewrite (dict_get_zip_seq al _ i char) by done.
      rewrite run_bind. cbn [ret]. rewrite run_bind.
      erewrite read_cell_ok by (by rewrite Hcells, Hlook).
      rewrite run_bind. cbn [write_cell]. rewrite run_bind. cbn [ret].
      rewrite run_bind. erewrite read_cell_ok; last first.
      { cbn. rewrite Hcells, insert_app_r, Hlook.
        apply list_lookup_insert_eq. by eapply lookup_lt_Some. }
      rewrite run_bind. cbn [write_cell count positions].
      rewrite (IH _ _ (<[i := Entry (count e + 1) (positions e ++ [idx])]> es)).
      * cbn zeta. cbn [known_prefix tally].
        rewrite (zip_with_insert_step _
                   (λ x, Entry (count x + 1) (positions x ++ [idx]))
                   al es i char e) by done.
        by destruct (first_unknown al p).
      * by rewrite length_insert.
      * cbn. by rewrite Hcells, !insert_app_r, list_insert_insert_eq.
    + unfold subscript.
      replace (dict_get (zip al (seq (length pre) (length al))) char)
        with (@None nat).
      2:{ symmetry. apply dict_get_None. by rewrite keys_zip_seq. }
      rewrite run_bind. cbn. rewrite zip_with_keep by done.
      unfold set_cells. by rewrite <-Hcells, state_eta.
Qed.

Lemma filter_ext_in {A} (P Q : A → Prop) `{!∀ x, Decision (P x)}
    `{!∀ x, Decision (Q x)} (l : list A) :
  (∀ x, x ∈ l → P x ↔ Q x) → filter P l = filter Q l.
Proof.
  induction l as [|a l IH]; intros Hext; [done|].
  rewrite !filter_cons.
  rewrite IH by (intros x Hx; apply Hext; by right).
  destruct (decide (P a)) as [HP|HP], (decide (Q a)) as [HQ|HQ]; try done.
  - destruct HQ. apply Hext; [left | done].
  - destruct HP. apply Hext; [left | done].
Qed.

Lemma keep_non_zero_spec (items acc : dict) (σ : state) :
  NoDup (keys acc ++ keys items) →
  (∀ y, y ∈ values items → is_Some (cells σ !! y)) →
  keep_non_zero items acc σ =
  Ok (acc ++ filter (λ xy, nonzero_at (cells σ) (snd xy) = true) items) σ.
Proof.
  revert acc. induction items as [|[x y] items IH]; intros acc Hnd Hval;
    cbn [keep_non_zero].
  - by rewrite app_nil_r.
  - destruct (Hval y) as [e He]; [left|].
    assert (∀ y', y' ∈ values items → is_Some (cells σ !! y')) as Hval'.
    { intros y' Hy'. apply Hval. by right. }
    assert ((x ∉ keys acc) ∧ NoDup (keys (acc ++ [(x, y)]) ++ keys items) ∧
            NoDup (keys acc ++ keys items)) as (Hx & Hnd1 & Hnd2).
    { unfold keys in *. cbn in Hnd. rewrite fmap_app. cbn.
      rewrite <-(assoc_L (++)). cbn. split_and!; [|done|].
      - apply NoDup_app in Hnd as (_ & Hd & _). intros Hin.
        apply (Hd x Hin). left.
      - apply NoDup_app in Hnd as (H1 & H2 & H3).
        apply NoDup_app. split_and!; [done| |by apply NoDup_cons in H3 as [_ ?]].
        intros z Hz Hz'. apply (H2 z Hz). by right. }
    rewrite run_bind, (read_cell_ok _ _ _ He). rewrite filter_cons.
    assert (nonzero_at (cells σ) y = (0 <? count e)) as Hnz.
    { unfold nonzero_at. by rewrite He. }
    cbn [snd]. destruct (0 <? count e) eqn:Hc.
    + rewrite decide_True by done. rewrite dict_set_fresh by done.
      rewrite IH by done. by rewrite <-(assoc_L (++)).
    + rewrite decide_False by (by rewrite Hnz). by apply IH.
Qed.

Lemma known_prefix_all (al p : list ascii) :
  first_unknown al p = None → known_prefix al p = p.
Proof.
  induction p as [|c p IH]; [done|]. simpl.
  case_decide; [|done]. intros Hrest. by rewrite IH.
Qed.

Lemma first_unknown_None (al p : list ascii) :
  first_unknown al p = None ↔ Forall (λ c, c ∈ al) p.
Proof.
  induction p as [|c p IH]; simpl.
  - split; [by constructor | done].
  - rewrite Forall_cons. case_decide as Hc.
    + rewrite IH. split; [by intros ? | by intros [_ ?]].
    + split; [done | by intros [? _]].
Qed.

Lemma first_unknown_Some (al p : list ascii) (c : ascii) :
  first_unknown al p = Some c → c ∈ p ∧ c ∉ al.
Proof.
  induction p as [|c' p IH]; simpl; [done|].
  case_decide.
  - intros [? ?]%IH. split; [by right | done].
  - intros [= <-]. split; [left | done].
Qed.

Lemma profile_block_lookup (p : list ascii) (i : nat) (c : ascii) :
  printable !! i = Some c →
  profile_block p !! i = Some (tally c 0 p (Entry 0 [])).
Proof. intros Hi. unfold profile_block. by rewrite list_lookup_fmap, Hi. Qed.

Lemma Fuzzable_init_spec (p : string) (σ : state) :
  Fuzzable_init p σ =
  match first_unknown printable (chars_of p) with
  | Some c =>
      Raise (KeyError c)
        (set_cells
           (λ cs, cs ++ profile_block (known_prefix printable (chars_of p))) σ)
  | None =>
      Ok (length (objs σ))
        (set_objs
           (λ os, os ++ [MkFuzzable p None
                           (profile_dict (length (cells σ)) (chars_of p))])
           (set_cells (λ cs, cs ++ profile_block (chars_of p)) σ))
  end.
Proof.
  unfold Fuzzable_init.
  rewrite run_bind, seed_counts_spec by (apply printable_NoDup). cbn [app].
  rewrite run_bind.
  rewrite (count_chars_spec printable _ 0 _ (cells σ)
             (replicate (length printable) (Entry 0 [])));
    [|apply printable_NoDup|by rewrite length_replicate|done].
  cbn zeta. rewrite zip_with_replicate_r_eq by done.
  rewrite set_cells_const.
  destruct (first_unknown printable (chars_of p)) as [c|] eqn:Hfirst; [done|].
  rewrite known_prefix_all by done.
  change (flip _ _ <$> printable) with (profile_block (chars_of p)).
  rewrite run_bind, keep_non_zero_spec; cbn [app].
  - unfold new_obj, set_objs, set_cells. cbn [cells objs stdout stderr].
    do 5 f_equal.
    unfold profile_dict. apply filter_ext_in. intros [c y] Hin. cbn [fst snd].
    apply elem_of_lookup_zip_with in Hin as (i & c' & y' & [= <- <-] & Hc & Hy).
    apply lookup_seq in Hy as [-> Hlt].
    unfold nonzero_at.
    rewrite lookup_app_r, Nat.add_comm, Nat.add_sub by lia.
    rewrite (profile_block_lookup _ _ _ Hc).
    destruct (Nat.ltb_spec 0 (count (tally c 0 (chars_of p) (Entry 0 []))));
      split; (done || lia).
  - cbn [keys fmap list_fmap app]. rewrite keys_zip_seq.
    apply printable_NoDup.
  - intros y. rewrite values_zip_seq, elem_of_seq. intros [Hge Hlt].
    apply lookup_lt_is_Some_2. cbn [cells set_cells].
    rewrite length_app. unfold profile_block. rewrite length_fmap. lia.
Qed.

(** ** The size-checking loop *)

Lemma check_sizes_restrict (ks : list ascii) (common : dict) (fuzz2 : nat)
    (f2 : Fuzzable) (σ : state) :
  objs σ !! fuzz2 = Some f2 →
  (∀ k, k ∈ ks → ∃ y1 y2,
      dict_get common k = Some y1 ∧ dict_get (non_zero f2) k = Some y2 ∧
      y1 < length (cells σ) ∧ y2 < length (cells σ)) →
  check_sizes ks common fuzz2 σ =
  Ok (restrict common (non_zero f2) ks (cells σ)).1
     (set_cells (λ _, (restrict common (non_zero f2) ks (cells σ)).2) σ).
Proof.
  revert σ. induction ks as [|k ks IH]; intros σ Hobj Hval.
  - cbn. unfold ret, set_cells. by rewrite state_eta.
  - destruct (Hval k) as (y1 & y2 & Hy1 & Hy2 & Hlt1 & Hlt2); [left|].
    destruct (lookup_lt_is_Some_2 _ _ Hlt1) as [e1 He1].
    destruct (lookup_lt_is_Some_2 _ _ Hlt2) as [e2 He2].
    cbn [check_sizes restrict]. unfold subscript.
    rewrite Hy1, Hy2, He1, He2.
    rewrite run_bind. cbn [ret]. rewrite run_bind, (read_cell_ok _ _ _ He1).
    rewrite run_bind, (read_obj_ok _ _ _ Hobj).
    rewrite Hy2, run_bind. cbn [ret].
    rewrite run_bind, (read_cell_ok _ _ _ He2).
    destruct (count e2 <=? count e1); cbn [negb].
    + rewrite run_bind. cbn [ret].
      rewrite run_bind, (read_cell_ok _ _ _ He1).
      rewrite run_bind. cbn [write_cell]. rewrite IH.
      * done.
      * done.
      * intros k' Hk'. destruct (Hval k') as (z1 & z2 & ? & ? & ? & ?);
          [by right|].
        exists z1, z2. cbn. by rewrite length_insert.
    + cbn. unfold ret, set_cells. by rewrite state_eta.
Qed.

Lemma count_at_insert_truncate (cs : list entry) (d : dict) (k : ascii)
    (y n : nat) (e : entry) :
  cs !! y = Some e →
  count_at (<[y := truncate n e]> cs) d k = count_at cs d k.
Proof.
  intros He. unfold count_at. destruct (dict_get d k) as [z|]; [|done].
  cbn. destruct (decide (z = y)) as [->|Hne].
  - rewrite list_lookup_insert_eq by (by eapply lookup_lt_Some).
    by rewrite He.
  - by rewrite list_lookup_insert_ne.
Qed.

(** Case analysis on one round of the loop: the round that passes the
    check comes first, the rounds that stop the loop after it. *)
Ltac restrict_round common nzq k cs :=
  let y1 := fresh "y1" in let y2 := fresh "y2" in
  let e1 := fresh "e1" in let e2 := fresh "e2" in
  let Hy1 := fresh "Hy1" in let Hy2 := fresh "Hy2" in
  let He1 := fresh "He1" in let He2 := fresh "He2" in
  let Hle := fresh "Hle" in
  cbn [restrict];
  destruct (dict_get common k) as [y1|] eqn:Hy1;
  [destruct (dict_get nzq k) as [y2|] eqn:Hy2;
   [destruct (cs !! y1) as [e1|] eqn:He1;
    [destruct (cs !! y2) as [e2|] eqn:He2;
     [destruct (count e2 <=? count e1) eqn:Hle|]|]|]|].

Lemma truncate_all (e : entry) : truncate (length (positions e)) e = e.
Proof. unfold truncate. rewrite firstn_all. by destruct e. Qed.

Lemma truncate_truncate (n m : nat) (e : entry) :
  truncate n (truncate m e) = truncate (n `min` m) e.
Proof. unfold truncate. cbn. by rewrite take_take. Qed.

Lemma restrict_length (common nzq : dict) (ks : list ascii) (cs : list entry) :
  length (restrict common nzq ks cs).2 = length cs.
Proof.
  revert cs. induction ks as [|k ks IH]; intros cs; [done|].
  restrict_round common nzq k cs; try done. by rewrite IH, length_insert.
Qed.

Lemma restrict_result (common nzq : dict) (ks : list ascii) (cs : list entry) :
  (restrict common nzq ks cs).1 = None ∨
  (restrict common nzq ks cs).1 = Some false.
Proof.
  revert cs. induction ks as [|k ks IH]; intros cs; [by left|].
  restrict_round common nzq k cs; try (by right). apply IH.
Qed.

(** Every cell after the loop is a cell before it with its position list
    cut to a prefix. *)
Lemma restrict_truncates (common nzq : dict) (ks : list ascii)
    (cs : list entry) (y : nat) (e : entry) :
  cs !! y = Some e →
  ∃ n, (restrict common nzq ks cs).2 !! y = Some (truncate n e).
Proof.
  revert cs e. induction ks as [|k ks IH]; intros cs e He.
  - exists (length (positions e)). by rewrite truncate_all.
  - restrict_round common nzq k cs;
      try (exists (length (positions e)); by rewrite truncate_all).
    destruct (decide (y = y1)) as [->|Hne].
    + edestruct (IH (<[y1 := truncate (count e2) e1]> cs)) as [m Hm].
      { apply list_lookup_insert_eq. by eapply lookup_lt_Some. }
      exists (m `min` count e2). rewrite Hm.
      assert (e1 = e) as -> by congruence.
      by rewrite truncate_truncate.
    + apply IH. by rewrite list_lookup_insert_ne.
Qed.

(** The loop touches the cells of its keys only. *)
Lemma restrict_frame (common nzq : dict) (ks : list ascii) (cs : list entry)
    (y : nat) :
  (∀ k, k ∈ ks → dict_get common k ≠ Some y) →
  (restrict common nzq ks cs).2 !! y = cs !! y.
Proof.
  revert cs. induction ks as [|k ks IH]; intros cs Hy; [done|].
  assert (∀ k', k' ∈ ks → dict_get common k' ≠ Some y) as Hy'.
  { intros k' Hk'. apply Hy. by right. }
  restrict_round common nzq k cs; try done.
  rewrite IH by done. apply list_lookup_insert_ne.
  intros ->. eapply Hy; [left | done].
Qed.

(** The loop runs to its end exactly when every key passes the check on
    the counts of the store it started from. *)
Lemma restrict_None (common nzq : dict) (ks : list ascii) (cs : list entry) :
  (restrict common nzq ks cs).1 = None ↔
  ∀ k, k ∈ ks → ∃ fc qc,
    count_at cs common k = Some fc ∧ count_at cs nzq k = Some qc ∧ qc ≤ fc.
Proof.
  revert cs. induction ks as [|k ks IH]; intros cs; cbn [restrict].
  - split; [|done]. intros _ k Hk. by apply elem_of_nil in Hk.
  - destruct (dict_get common k) as [y1|] eqn:Hy1; cycle 1.
    { split; [done|]. intros H. destruct (H k) as (? & ? & Hc & _); [left|].
      unfold count_at in Hc. by rewrite Hy1 in Hc. }
    destruct (dict_get nzq k) as [y2|] eqn:Hy2; cycle 1.
    { split; [done|]. intros H. destruct (H k) as (? & ? & _ & Hc & _); [left|].
      unfold count_at in Hc. by rewrite Hy2 in Hc. }
    destruct (cs !! y1) as [e1|] eqn:He1; cycle 1.
    { split; [done|]. intros H. destruct (H k) as (? & ? & Hc & _); [left|].
      unfold count_at in Hc. rewrite Hy1 in Hc. cbn in Hc.
      by rewrite He1 in Hc. }
    destruct (cs !! y2) as [e2|] eqn:He2; cycle 1.
    { split; [done|]. intros H. destruct (H k) as (? & ? & _ & Hc & _); [left|].
      unfold count_at in Hc. rewrite Hy2 in Hc. cbn in Hc.
      by rewrite He2 in Hc. }
    assert (count_at cs common k = Some (count e1)) as Hc1.
    { unfold count_at. rewrite Hy1. cbn. by rewrite He1. }
    assert (count_at cs nzq k = Some (count e2)) as Hc2.
    { unfold count_at. rewrite Hy2. cbn. by rewrite He2. }
    destruct (Nat.leb_spec (count e2) (count e1)) as [Hle|Hgt].
    + rewrite IH. split.
      * intros H k' [->|Hk']%elem_of_cons; [by eauto|].
        destruct (H k' Hk') as (fc & qc & Hf & Hq & ?).
        rewrite !count_at_insert_truncate in Hf, Hq by done. eauto.
      * intros H k' Hk'. rewrite !count_at_insert_truncate by done.
        apply H. by right.
    + split; [done|]. intros H.
      destruct (H k) as (fc & qc & Hf & Hq & ?); [left|].
      rewrite Hc1 in Hf. rewrite Hc2 in Hq. simplify_eq. lia.
Qed.

(** When the loop runs to its end, the cell of every key holds the first
    [query_count] positions it held before. *)
Lemma restrict_exact (common nzq : dict) (ks : list ascii) (cs : list entry) :
  NoDup ks →
  (∀ k k' y, k ∈ ks → k' ∈ ks →
     dict_get common k = Some y → dict_get common k' = Some y → k = k') →
  (restrict common nzq ks cs).1 = None →
  ∀ k y e qc, k ∈ ks →
    dict_get common k = Some y → cs !! y = Some e →
    count_at cs nzq k = Some qc →
    (restrict common nzq ks cs).2 !! y = Some (truncate qc e).
Proof.
  revert cs. induction ks as [|k0 ks IH]; intros cs Hnd Hinj Hres k y e qc Hk.
  { by apply elem_of_nil in Hk. }
  apply NoDup_cons in Hnd as [Hk0 Hnd].
  assert (∀ k k' y, k ∈ ks → k' ∈ ks →
     dict_get common k = Some y → dict_get common k' = Some y → k = k')
    as Hinj'.
  { intros a b z Ha Hb. apply Hinj; by right. }
  revert Hres. restrict_round common nzq k0 cs; try done.
  intros Hres Hy He Hqc.
  apply elem_of_cons in Hk as [->|Hk].
  - assert (y = y1) as -> by congruence.
    assert (e = e1) as -> by congruence.
    assert (qc = count e2) as ->.
    { unfold count_at in Hqc. rewrite Hy2 in Hqc. cbn in Hqc.
      rewrite He2 in Hqc. by injection Hqc. }
    rewrite restrict_frame.
    + apply list_lookup_insert_eq. by eapply lookup_lt_Some.
    + intros k' Hk' Hy'. apply Hk0.
      rewrite (Hinj k0 k' y1); [done|left|by right|done|done].
  - apply (IH _ Hnd Hinj' Hres k); try done.
    + rewrite list_lookup_insert_ne; [done|]. intros <-.
      apply Hk0. rewrite (Hinj k0 k y1); [done|left|by right|done|done].
    + by rewrite count_at_insert_truncate.
Qed.

(** ** The dictionary of common keys *)

Lemma keys_filter_sublist (P : ascii * nat → Prop) `{!∀ x, Decision (P x)}
    (d : dict) :
  keys (filter P d) `sublist_of` keys d.
Proof. unfold keys. apply fmap_sublist, sublist_filter. Qed.

Lemma values_filter_sublist (P : ascii * nat → Prop) `{!∀ x, Decision (P x)}
    (d : dict) :
  values (filter P d) `sublist_of` values d.
Proof. unfold values. apply fmap_sublist, sublist_filter. Qed.

Lemma dict_get_filter_keys (d1 d2 : dict) (k : ascii) :
  dict_get (filter (λ xy, fst xy ∈ keys d2) d1) k =
  if decide (k ∈ keys d2) then dict_get d1 k else None.
Proof.
  induction d1 as [|[k' v] d1 IH]; [by case_decide|].
  rewrite filter_cons. cbn [fst dict_get].
  destruct (decide (k' ∈ keys d2)) as [HP'|HP']; cbn [dict_get]; rewrite IH.
  - destruct (decide (k = k')) as [->|Hne]; [by rewrite decide_True|done].
  - destruct (decide (k ∈ keys d2)) as [HP|HP]; [|done].
    rewrite decide_False; [done|]. by intros ->.
Qed.

Lemma dict_get_injective (d : dict) (k k' : ascii) (y : nat) :
  NoDup (values d) → dict_get d k = Some y → dict_get d k' = Some y → k = k'.
Proof.
  unfold values. intros Hnd Hk Hk'.
  apply dict_get_Some, list_elem_of_lookup in Hk as [i Hi].
  apply dict_get_Some, list_elem_of_lookup in Hk' as [j Hj].
  assert (i = j) as ->.
  { eapply NoDup_lookup; [done| |]; rewrite list_lookup_fmap.
    - by rewrite Hi.
    - by rewrite Hj. }
  congruence.
Qed.

Lemma dict_get_values (d : dict) (k : ascii) (y : nat) :
  dict_get d k = Some y → y ∈ values d.
Proof.
  intros H%dict_get_Some. unfold values. apply list_elem_of_fmap.
  by exists (k, y).
Qed.

Lemma elem_of_keys (d : dict) (k : ascii) :
  k ∈ keys d ↔ ∃ y, (k, y) ∈ d.
Proof.
  unfold keys. rewrite list_elem_of_fmap. split.
  - intros ([k' y] & -> & Hin). by exists y.
  - intros [y Hin]. by exists (k, y).
Qed.

Lemma common_of_keys (f1 f2 : Fuzzable) (k : ascii) :
  k ∈ keys (common_of f1 f2) ↔ k ∈ keys (non_zero f1) ∧ k ∈ keys (non_zero f2).
Proof.
  unfold common_of. rewrite !(elem_of_keys _ k). split.
  - intros [y [Hin2 Hin1]%list_elem_of_filter]. split; [by exists y|].
    by apply elem_of_keys.
  - intros [[y Hin1] Hin2]. exists y. apply list_elem_of_filter.
    split; [|done]. cbn. by apply elem_of_keys.
Qed.

Lemma common_of_get (f1 f2 : Fuzzable) (k : ascii) :
  k ∈ keys (non_zero f2) →
  dict_get (common_of f1 f2) k = dict_get (non_zero f1) k.
Proof.
  intros Hk. unfold common_of. by rewrite dict_get_filter_keys, decide_True.
Qed.

Lemma common_of_wf (cs : list entry) (f1 f2 : Fuzzable) :
  profile_wf cs f1 →
  NoDup (keys (common_of f1 f2)) ∧ NoDup (values (common_of f1 f2)) ∧
  ∀ y, y ∈ values (common_of f1 f2) → y ∈ values (non_zero f1).
Proof.
  intros [Hk Hv Ha]. split_and!.
  - apply (sublist_NoDup _ (keys (non_zero f1)));
      [done | apply keys_filter_sublist].
  - apply (sublist_NoDup _ (values (non_zero f1)));
      [done | apply values_filter_sublist].
  - intros y Hy. eapply elem_of_sublist; [done|apply values_filter_sublist].
Qed.

(** The length test of [compare_dicts]: the two dictionaries have equally
    many keys exactly when every key of the query is a key of the
    candidate. *)
Lemma common_of_length (f1 f2 : Fuzzable) :
  NoDup (keys (non_zero f1)) → NoDup (keys (non_zero f2)) →
  length (common_of f1 f2) = length (non_zero f2) ↔
  ∀ k, k ∈ keys (non_zero f2) → k ∈ keys (non_zero f1).
Proof.
  intros Hnd1 Hnd2.
  assert (NoDup (keys (common_of f1 f2))) as Hndc.
  { apply (sublist_NoDup _ (keys (non_zero f1)));
      [done | apply keys_filter_sublist]. }
  assert (keys (common_of f1 f2) ⊆+ keys (non_zero f2)) as Hsub.
  { apply NoDup_submseteq; [done|]. intros k. rewrite common_of_keys. tauto. }
  assert (length (keys (common_of f1 f2)) = length (common_of f1 f2)) as Hl1
    by apply length_fmap.
  assert (length (keys (non_zero f2)) = length (non_zero f2)) as Hl2
    by apply length_fmap.
  split.
  - intros Hlen k Hk.
    assert (keys (common_of f1 f2) ≡ₚ keys (non_zero f2)) as Hperm.
    { apply submseteq_length_Permutation; [done|lia]. }
    rewrite <-Hperm in Hk. by apply common_of_keys in Hk as [? _].
  - intros Hall.
    assert (keys (non_zero f2) ⊆+ keys (common_of f1 f2)) as Hsub'.
    { apply NoDup_submseteq; [done|]. intros k Hk.
      apply common_of_keys. auto. }
    apply submseteq_length in Hsub, Hsub'. lia.
Qed.

(** ** [compare_dicts] in closed form *)

Lemma compare_dicts_spec (fuzz1 fuzz2 : nat) (f1 f2 : Fuzzable) (σ : state) :
  store_wf σ → objs σ !! fuzz1 = Some f1 → objs σ !! fuzz2 = Some f2 →
  compare_dicts fuzz1 fuzz2 σ = compare_outcome fuzz1 f1 f2 σ.
Proof.
  intros Hwf H1 H2.
  destruct (wf_profiles _ Hwf _ _ H1) as [Hk1 Hv1 Ha1].
  destruct (wf_profiles _ Hwf _ _ H2) as [Hk2 Hv2 Ha2].
  unfold compare_dicts, compare_outcome.
  rewrite run_bind, (read_obj_ok _ _ _ H1).
  rewrite run_bind, (read_obj_ok _ _ _ H2).
  rewrite shave_filter by done. cbn [app].
  fold (common_of f1 f2).
  destruct (negb (length (common_of f1 f2) =? length (non_zero f2))); [done|].
  rewrite run_bind, (check_sizes_restrict _ _ _ f2) by
    ( done ||
      (intros k [Hin1 Hin2]%common_of_keys;
       apply dict_get_is_Some in Hin1 as [y1 Hy1];
       destruct (proj2 (dict_get_is_Some _ _) Hin2) as [y2 Hy2];
       exists y1, y2; rewrite common_of_get by done;
       split_and!; [done|done|by eapply Ha1, dict_get_values
                   |by eapply Ha2, dict_get_values]) ).
  cbn zeta.
  destruct (restrict (common_of f1 f2) (non_zero f2)
              (keys (common_of f1 f2)) (cells σ)).1; [done|].
  by rewrite run_bind, (read_obj_ok _ f1).
Qed.

(** ** The verdict *)

Lemma count_at_key (cs : list entry) (d : dict) (k : ascii) (n : nat) :
  count_at cs d k = Some n → k ∈ keys d.
Proof.
  unfold count_at. intros H. apply dict_get_is_Some.
  destruct (dict_get d k); [by eexists | done].
Qed.

Lemma count_at_alloc (cs : list entry) (d : dict) (k : ascii) :
  (∀ y, y ∈ values d → y < length cs) → k ∈ keys d →
  ∃ n, count_at cs d k = Some n.
Proof.
  intros Ha [y Hy]%dict_get_is_Some.
  destruct (lookup_lt_is_Some_2 cs y) as [e He].
  { by eapply Ha, dict_get_values. }
  exists (count e). unfold count_at. rewrite Hy. cbn. by rewrite He.
Qed.

Lemma count_at_common (cs : list entry) (f1 f2 : Fuzzable) (k : ascii) :
  k ∈ keys (non_zero f2) →
  count_at cs (common_of f1 f2) k = count_at cs (non_zero f1) k.
Proof. intros Hk. unfold count_at. by rewrite common_of_get. Qed.

Lemma compare_outcome_verdict (fuzz1 : nat) (f1 f2 : Fuzzable) (σ : state) :
  profile_wf (cells σ) f1 → profile_wf (cells σ) f2 →
  ∃ b σ', compare_outcome fuzz1 f1 f2 σ = Ok b σ' ∧
          (b = true ↔ contains (cells σ) (non_zero f1) (non_zero f2)).
Proof.
  intros [Hk1 Hv1 Ha1] [Hk2 Hv2 Ha2]. unfold compare_outcome. cbn zeta.
  destruct (Nat.eqb_spec (length (common_of f1 f2)) (length (non_zero f2)))
    as [Hlen|Hlen]; cbn [negb].
  - pose proof (proj1 (common_of_length f1 f2 Hk1 Hk2) Hlen) as Hsub.
    pose proof (restrict_None (common_of f1 f2) (non_zero f2)
                  (keys (common_of f1 f2)) (cells σ)) as Hnone.
    assert (contains (cells σ) (non_zero f1) (non_zero f2) ↔
            (restrict (common_of f1 f2) (non_zero f2)
               (keys (common_of f1 f2)) (cells σ)).1 = None) as Hiff.
    { rewrite Hnone. split.
      - intros Hc k [Hin1 Hin2]%common_of_keys.
        destruct (count_at_alloc (cells σ) _ k Ha2 Hin2) as [qc Hqc].
        destruct (Hc k qc Hqc) as (fc & Hfc & Hle).
        exists fc, qc. by rewrite count_at_common.
      - intros Hall c n Hn. pose proof (count_at_key _ _ _ _ Hn) as Hin2.
        destruct (Hall c) as (fc & qc & Hfc & Hqc & Hle).
        { apply common_of_keys. auto. }
        rewrite count_at_common in Hfc by done.
        exists fc. split; [done|]. congruence. }
    destruct (restrict_result (common_of f1 f2) (non_zero f2)
                (keys (common_of f1 f2)) (cells σ)) as [Hr|Hr]; rewrite Hr.
    + eexists _, _. split; [done|]. by rewrite Hiff.
    + eexists _, _. split; [done|]. rewrite Hiff, Hr. done.
  - eexists _, _. split; [done|]. split; [done|]. intros Hc. destruct Hlen.
    apply common_of_length; [done|done|]. intros k Hk.
    destruct (count_at_alloc (cells σ) _ k Ha2 Hk) as [qc Hqc].
    destruct (Hc k qc Hqc) as (fc & Hfc & _). by eapply count_at_key.
Qed.

(** ** What the counting loop records *)

Lemma tally_count (c : ascii) (idx : nat) (p : list ascii) (e : entry) :
  count (tally c idx p e) = count e + length (occurrences c idx p).
Proof.
  revert idx e. induction p as [|char p IH]; intros idx e; cbn; [lia|].
  rewrite IH. case_decide; cbn; lia.
Qed.

Lemma tally_positions (c : ascii) (idx : nat) (p : list ascii) (e : entry) :
  positions (tally c idx p e) = positions e ++ occurrences c idx p.
Proof.
  revert idx e. induction p as [|char p IH]; intros idx e; cbn.
  - by rewrite app_nil_r.
  - rewrite IH. case_decide; cbn; [|done]. by rewrite <-(assoc_L (++)).
Qed.

Lemma occurrences_spec (c : ascii) (idx : nat) (p : list ascii) (i : nat) :
  i ∈ occurrences c idx p ↔ ∃ j, i = idx + j ∧ p !! j = Some c.
Proof.
  revert idx. induction p as [|char p IH]; intros idx; cbn.
  - split; [by intros ?%elem_of_nil | by intros (? & _ & ?)].
  - assert (i ∈ occurrences c (S idx) p ↔ ∃ j, i = idx + S j ∧ p !! j = Some c)
      as IH'.
    { rewrite IH. split; intros (j & -> & ?); exists j; split; (lia || done). }
    case_decide as Hc; [rewrite elem_of_cons|]; rewrite IH'; split.
    + intros [Hi|(j & Hi & Hj)].
      * exists 0. split; [lia|]. cbn. by rewrite Hc.
      * exists (S j). by split.
    + intros ([|j] & Hi & Hj); [left; lia | right; by exists j].
    + intros (j & Hi & Hj). by exists (S j).
    + intros ([|j] & Hi & Hj); [cbn in Hj; congruence | by exists j].
Qed.

Lemma occurrences_sorted (c : ascii) (idx : nat) (p : list ascii) :
  StronglySorted lt (occurrences c idx p).
Proof.
  revert idx. induction p as [|char p IH]; intros idx; cbn; [constructor|].
  case_decide; [|done]. constructor; [done|].
  apply Forall_forall. intros i (j & -> & _)%occurrences_spec. lia.
Qed.

(** The list the constructor builds for [c] has the invariant of the data
    model, and its positions are the places of [c] in the string. *)
Lemma tally_exact (c : ascii) (p : list ascii) :
  entry_exact (tally c 0 p (Entry 0 [])).
Proof.
  split.
  - rewrite tally_positions, tally_count. done.
  - rewrite tally_positions. apply occurrences_sorted.
Qed.

Lemma entry_exact_sound (e : entry) : entry_exact e → entry_sound e.
Proof. intros [Hlen ?]. split; [lia | done]. Qed.

Lemma entry_exact_sound_profile (cs : list entry) (o : Fuzzable) :
  profile_inv entry_exact cs o → profile_inv entry_sound cs o.
Proof.
  intros Hinv c y Hin. destruct (Hinv c y Hin) as (e & He & Hex).
  exists e. split; [done | by apply entry_exact_sound].
Qed.

Lemma truncate_sound (n : nat) (e : entry) :
  entry_sound e → entry_sound (truncate n e).
Proof.
  intros [Hlen Hs]. split; cbn.
  - rewrite length_take. lia.
  - rewrite <-(take_drop n (positions e)) in Hs.
    by apply StronglySorted_app_1_l in Hs.
Qed.

Lemma profile_dict_elem (base : nat) (p : list ascii) (c : ascii) (y : nat) :
  (c, y) ∈ profile_dict base p ↔
  ∃ i, printable !! i = Some c ∧ y = base + i ∧
       0 < count (tally c 0 p (Entry 0 [])).
Proof.
  unfold profile_dict. rewrite list_elem_of_filter. cbn [fst].
  rewrite elem_of_lookup_zip_with. split.
  - intros (Hc & i & c' & y' & [= <- <-] & Hi & [-> _]%lookup_seq). eauto.
  - intros (i & Hi & -> & Hc). split; [done|].
    exists i, c, (base + i). split_and!; [done|done|].
    apply lookup_seq. split; [done|]. by eapply lookup_lt_Some.
Qed.

Lemma profile_block_length (p : list ascii) :
  length (profile_block p) = length printable.
Proof. unfold profile_block. by rewrite length_fmap. Qed.

Lemma profile_dict_wf (base : nat) (p : list ascii) :
  NoDup (keys (profile_dict base p)) ∧ NoDup (values (profile_dict base p)) ∧
  ∀ y, y ∈ values (profile_dict base p) →
       base ≤ y < base + length printable.
Proof.
  split_and!.
  - apply (sublist_NoDup _ (keys (zip printable (seq base (length printable)))));
      [|apply keys_filter_sublist].
    rewrite keys_zip_seq. apply printable_NoDup.
  - apply (sublist_NoDup _ (values (zip printable (seq base (length printable)))));
      [|apply values_filter_sublist].
    rewrite values_zip_seq. apply NoDup_seq.
  - intros y Hy.
    apply (elem_of_sublist _ (values (zip printable (seq base (length printable)))))
      in Hy; [|apply values_filter_sublist].
    rewrite values_zip_seq in Hy. by apply elem_of_seq in Hy.
Qed.

(** ** The constructor on strings over the alphabet *)

Lemma Fuzzable_init_ok (p : string) (σ : state) :
  Forall (λ c, c ∈ printable) (chars_of p) →
  Fuzzable_init p σ = Ok (length (objs σ)) (init_state p σ).
Proof.
  intros Hall%first_unknown_None. by rewrite Fuzzable_init_spec, Hall.
Qed.

Lemma init_state_new (p : string) (σ : state) :
  objs (init_state p σ) !! length (objs σ) =
  Some (MkFuzzable p None (profile_dict (length (cells σ)) (chars_of p))).
Proof. cbn. by rewrite lookup_app_r, Nat.sub_diag by lia. Qed.

Lemma init_state_old (p : string) (σ : state) (r : nat) (o : Fuzzable) :
  objs σ !! r = Some o → objs (init_state p σ) !! r = Some o.
Proof. intros H. cbn. by apply lookup_app_l_Some. Qed.

Lemma init_state_old_cell (p : string) (σ : state) (y : nat) (e : entry) :
  cells σ !! y = Some e → cells (init_state p σ) !! y = Some e.
Proof. intros H. cbn. by apply lookup_app_l_Some. Qed.

Lemma init_state_new_cell (p : string) (σ : state) (i : nat) (c : ascii) :
  printable !! i = Some c →
  cells (init_state p σ) !! (length (cells σ) + i) =
  Some (tally c 0 (chars_of p) (Entry 0 [])).
Proof.
  intros Hi. cbn. rewrite lookup_app_r, Nat.add_comm, Nat.add_sub by lia.
  by apply profile_block_lookup.
Qed.

Lemma init_state_lookup (p : string) (σ : state) (r : nat) (o : Fuzzable) :
  objs (init_state p σ) !! r = Some o →
  objs σ !! r = Some o ∨
  (r = length (objs σ) ∧
   o = MkFuzzable p None (profile_dict (length (cells σ)) (chars_of p))).
Proof.
  cbn. intros [H|[Hge H]]%lookup_app_Some; [by left|right].
  apply list_lookup_singleton_Some in H as [H1 H2]. split; [lia|done].
Qed.

Lemma init_state_wf (p : string) (σ : state) :
  store_wf σ → store_wf (init_state p σ).
Proof.
  intros [Hprof Hsep].
  destruct (profile_dict_wf (length (cells σ)) (chars_of p)) as (Hk & Hv & Hr).
  assert (length (cells (init_state p σ)) =
          length (cells σ) + length printable) as Hlen.
  { cbn. by rewrite length_app, profile_block_length. }
  split.
  - intros r o [Ho|[-> ->]]%init_state_lookup.
    + destruct (Hprof r o Ho) as [? ? Ha]. split; [done|done|].
      intros y Hy. rewrite Hlen. specialize (Ha y Hy). lia.
    + split; [done|done|]. intros y Hy. rewrite Hlen.
      specialize (Hr y Hy). cbn [non_zero] in *. lia.
  - intros r1 r2 o1 o2 y Hne [H1|[-> ->]]%init_state_lookup
      [H2|[-> ->]]%init_state_lookup Hy1 Hy2.
    + by eapply Hsep.
    + destruct (Hprof r1 o1 H1) as [_ _ Ha]. specialize (Ha y Hy1).
      specialize (Hr y Hy2). lia.
    + destruct (Hprof r2 o2 H2) as [_ _ Ha]. specialize (Ha y Hy2).
      specialize (Hr y Hy1). lia.
    + done.
Qed.

Lemma empty_state_wf : store_wf empty_state.
Proof. split; intros *; cbn; by rewrite ?lookup_nil. Qed.

(** ** The state after a comparison *)

Lemma compare_outcome_inv (fuzz1 : nat) (f1 f2 : Fuzzable) (σ σ' : state)
    (b : bool) :
  compare_outcome fuzz1 f1 f2 σ = Ok b σ' →
  let common := common_of f1 f2 in
  let r := restrict common (non_zero f2) (keys common) (cells σ) in
  stdout σ' = stdout σ ∧ stderr σ' = stderr σ ∧
  (cells σ' = cells σ ∨ cells σ' = r.2) ∧
  ((b = false ∧ objs σ' = objs σ) ∨
   (b = true ∧ r.1 = None ∧ cells σ' = r.2 ∧
    length common = length (non_zero f2) ∧
    objs σ' =
    <[fuzz1 := MkFuzzable (path f1) (Some common) (non_zero f1)]> (objs σ))).
Proof.
  unfold compare_outcome. cbn zeta.
  destruct (Nat.eqb_spec (length (common_of f1 f2)) (length (non_zero f2)))
    as [Hlen|Hlen]; cbn [negb]; cycle 1.
  - intros [= <- <-]. split_and!; try done; auto.
  - destruct (restrict (common_of f1 f2) (non_zero f2)
                (keys (common_of f1 f2)) (cells σ)) as [[[|]|] cs'] eqn:Hr;
      cbn [fst snd].
    + pose proof (restrict_result (common_of f1 f2) (non_zero f2)
                    (keys (common_of f1 f2)) (cells σ)) as Hres.
      rewrite Hr in Hres. by destruct Hres.
    + intros [= <- <-]. split_and!; try done; auto.
    + intros [= <- <-]. split_and!; try done; [by right|].
      right. by split_and!.
Qed.

Lemma compare_outcome_length (fuzz1 : nat) (f1 f2 : Fuzzable) (σ σ' : state)
    (b : bool) :
  compare_outcome fuzz1 f1 f2 σ = Ok b σ' →
  length (cells σ') = length (cells σ).
Proof.
  intros (_ & _ & [->| ->] & _)%compare_outcome_inv; [done|].
  apply restrict_length.
Qed.

Lemma compare_outcome_truncates (fuzz1 : nat) (f1 f2 : Fuzzable)
    (σ σ' : state) (b : bool) (y : nat) (e : entry) :
  compare_outcome fuzz1 f1 f2 σ = Ok b σ' → cells σ !! y = Some e →
  ∃ n, cells σ' !! y = Some (truncate n e).
Proof.
  intros (_ & _ & [->| ->] & _)%compare_outcome_inv He.
  - exists (length (positions e)). by rewrite truncate_all.
  - by apply restrict_truncates.
Qed.

Lemma compare_outcome_frame (fuzz1 : nat) (f1 f2 : Fuzzable) (σ σ' : state)
    (b : bool) (y : nat) :
  profile_wf (cells σ) f1 →
  compare_outcome fuzz1 f1 f2 σ = Ok b σ' → y ∉ values (non_zero f1) →
  cells σ' !! y = cells σ !! y.
Proof.
  intros Hwf (_ & _ & [->| ->] & _)%compare_outcome_inv Hy; [done|].
  apply restrict_frame. intros k _ Hk%dict_get_values.
  by apply (common_of_wf _ _ f2 Hwf) in Hk.
Qed.

Lemma compare_outcome_objs (fuzz1 : nat) (f1 f2 : Fuzzable) (σ σ' : state)
    (b : bool) (r : nat) (o : Fuzzable) :
  objs σ !! fuzz1 = Some f1 →
  compare_outcome fuzz1 f1 f2 σ = Ok b σ' → objs σ !! r = Some o →
  ∃ o', objs σ' !! r = Some o' ∧ non_zero o' = non_zero o ∧
        path o' = path o ∧ (r ≠ fuzz1 → o' = o).
Proof.
  intros H1 (_ & _ & _ & [[_ ->]|(_ & _ & _ & _ & ->)])%compare_outcome_inv Ho.
  - by exists o.
  - destruct (decide (r = fuzz1)) as [->|Hne].
    + eexists. rewrite list_lookup_insert_eq by (by eapply lookup_lt_Some).
      assert (o = f1) as -> by congruence. done.
    + exists o. by rewrite list_lookup_insert_ne.
Qed.

Lemma compare_outcome_lookup (fuzz1 : nat) (f1 f2 : Fuzzable) (σ σ' : state)
    (b : bool) (r : nat) (o' : Fuzzable) :
  objs σ !! fuzz1 = Some f1 →
  compare_outcome fuzz1 f1 f2 σ = Ok b σ' → objs σ' !! r = Some o' →
  ∃ o, objs σ !! r = Some o ∧ non_zero o' = non_zero o.
Proof.
  intros H1 (_ & _ & _ & [[_ ->]|(_ & _ & _ & _ & ->)])%compare_outcome_inv Ho.
  - by exists o'.
  - destruct (decide (r = fuzz1)) as [->|Hne].
    + exists f1. split; [done|].
      rewrite list_lookup_insert_eq in Ho by (by eapply lookup_lt_Some).
      by injection Ho as <-.
    + exists o'. by rewrite list_lookup_insert_ne in Ho.
Qed.

Lemma compare_outcome_wf (fuzz1 : nat) (f1 f2 : Fuzzable) (σ σ' : state)
    (b : bool) :
  store_wf σ → objs σ !! fuzz1 = Some f1 →
  compare_outcome fuzz1 f1 f2 σ = Ok b σ' → store_wf σ'.
Proof.
  intros [Hprof Hsep] H1 Hout.
  pose proof (compare_outcome_length _ _ _ _ _ _ Hout) as Hlen.
  split.
  - intros r o' Ho'.
    destruct (compare_outcome_lookup _ _ _ _ _ _ _ _ H1 Hout Ho')
      as (o & Ho & Hnz).
    destruct (Hprof r o Ho) as [? ? Ha].
    split; rewrite Hnz; [done|done|]. by rewrite Hlen.
  - intros r1 r2 o1' o2' y Hne Ho1' Ho2'.
    destruct (compare_outcome_lookup _ _ _ _ _ _ _ _ H1 Hout Ho1')
      as (o1 & Ho1 & ->).
    destruct (compare_outcome_lookup _ _ _ _ _ _ _ _ H1 Hout Ho2')
      as (o2 & Ho2 & ->).
    by eapply Hsep.
Qed.

Lemma compare_dicts_Ok (fuzz1 fuzz2 : nat) (σ σ' : state) (b : bool) :
  compare_dicts fuzz1 fuzz2 σ = Ok b σ' →
  ∃ f1 f2, objs σ !! fuzz1 = Some f1 ∧ objs σ !! fuzz2 = Some f2.
Proof.
  unfold compare_dicts. rewrite run_bind. unfold read_obj at 1.
  destruct (objs σ !! fuzz1) as [f1|]; [|done].
  rewrite run_bind. unfold read_obj at 1.
  destruct (objs σ !! fuzz2) as [f2|]; [|done]. eauto.
Qed.

(** ** The stores used as concrete inputs *)

Lemma store_aabbb_ab_wf : store_wf store_aabbb_ab.
Proof.
  change store_aabbb_ab
    with (init_state "ab" (init_state "aabbb" empty_state)).
  apply init_state_wf, init_state_wf, empty_state_wf.
Qed.


Lemma store_aa_a_wf : store_wf store_aa_a.
Proof.
  change store_aa_a with (init_state "a" (init_state "aa" empty_state)).
  apply init_state_wf, init_state_wf, empty_state_wf.
Qed.

(** ** The invariant of the data model *)

Lemma init_state_new_inv (p : string) (σ : state) :
  profile_inv entry_exact (cells (init_state p σ))
    (MkFuzzable p None (profile_dict (length (cells σ)) (chars_of p))).
Proof.
  intros c y (i & Hi & -> & _)%profile_dict_elem.
  eexists. split; [by apply init_state_new_cell | apply tally_exact].
Qed.

Lemma init_state_old_inv (I : entry → Prop) (p : string) (σ : state)
    (o : Fuzzable) :
  profile_inv I (cells σ) o → profile_inv I (cells (init_state p σ)) o.
Proof.
  intros Hinv c y Hin. destruct (Hinv c y Hin) as (e & He & HI).
  exists e. split; [by apply init_state_old_cell | done].
Qed.

Lemma store_aa_a_exact (r : nat) (o : Fuzzable) :
  objs store_aa_a !! r = Some o → profile_inv entry_exact (cells store_aa_a) o.
Proof.
  change store_aa_a with (init_state "a" (init_state "aa" empty_state)).
  intros [[H|[_ ->]]%init_state_lookup|[_ ->]]%init_state_lookup.
  - by destruct r.
  - apply init_state_old_inv, init_state_new_inv.
  - apply init_state_new_inv.
Qed.

(** ** Counting *)

Lemma chars_of_length (s : string) : length (chars_of s) = String.length s.
Proof.
  induction s as [|c s IH]; [done|]. cbn [String.length]. by rewrite <-IH.
Qed.

Lemma sum_list_with_cons {A} (f : A → nat) (a : A) (l : list A) :
  sum_list_with f (a :: l) = f a + sum_list_with f l.
Proof. done. Qed.

Lemma sum_indicator (al : list ascii) (char : ascii) :
  NoDup al → char ∈ al →
  sum_list_with (λ c, if decide (char = c) then 1 else 0) al = 1.
Proof.
  induction al as [|a al IH]; intros Hnd Hin; [by apply elem_of_nil in Hin|].
  apply NoDup_cons in Hnd as [Ha Hnd]. cbn.
  destruct (decide (char = a)) as [->|Hne].
  - assert (sum_list_with (λ c, if decide (a = c) then 1 else 0) al = 0)
      as ->; [|done].
    clear IH Hin Hnd. induction al as [|b al IH]; [done|]. cbn.
    apply not_elem_of_cons in Ha as [Hab Ha].
    rewrite decide_False by done. by rewrite IH.
  - apply elem_of_cons in Hin as [?|Hin]; [done|]. by rewrite IH.
Qed.

Lemma occurrences_total (al p : list ascii) (idx : nat) :
  NoDup al → Forall (λ c, c ∈ al) p →
  sum_list_with (λ c, length (occurrences c idx p)) al = length p.
Proof.
  intros Hnd. revert idx.
  induction p as [|char p IH]; intros idx Hall.
  - cbn. induction al as [|a al IHal]; [done|]. cbn.
    apply NoDup_cons in Hnd as [_ Hnd]. by rewrite IHal.
  - apply Forall_cons in Hall as [Hin Hall].
    transitivity
      (sum_list_with (λ c, if decide (char = c) then 1 else 0) al +
       sum_list_with (λ c, length (occurrences c (S idx) p)) al).
    + clear. induction al as [|a al IHal]; [done|].
      rewrite !sum_list_with_cons, IHal. cbn [occurrences].
      case_decide; cbn [length]; lia.
    + by rewrite sum_indicator, IH.
Qed.

Lemma total_count_filter (cs : list entry) (P : ascii * nat → Prop)
    `{!∀ x, Decision (P x)} (d : dict) :
  (∀ c y e, (c, y) ∈ d → cs !! y = Some e → ¬ P (c, y) → count e = 0) →
  total_count cs (filter P d) = total_count cs d.
Proof.
  unfold total_count. induction d as [|[c y] d IH]; intros Hz; [done|].
  rewrite filter_cons. cbn [sum_list_with snd].
  assert (sum_list_with
            (λ xy, match cs !! xy.2 with Some e => count e | None => 0 end)
            (filter P d) =
          sum_list_with
            (λ xy, match cs !! xy.2 with Some e => count e | None => 0 end) d)
    as IH'.
  { apply IH. intros c' y' e' Hin. apply Hz. by right. }
  destruct (decide (P (c, y))) as [HP|HP]; cbn [sum_list_with snd];
    rewrite IH'; [done|].
  destruct (cs !! y) as [e|] eqn:He; [|done].
  rewrite (Hz c y e); [done|left|done|done].
Qed.

Lemma total_count_block (cs : list entry) (F : ascii → entry)
    (al : list ascii) (base : nat) :
  (∀ i c, al !! i = Some c → cs !! (base + i) = Some (F c)) →
  total_count cs (zip al (seq base (length al))) =
  sum_list_with (λ c, count (F c)) al.
Proof.
  unfold total_count. revert base.
  induction al as [|a al IH]; intros base Hblock; [done|].
  cbn. rewrite IH.
  - specialize (Hblock 0 a eq_refl). rewrite Nat.add_0_r in Hblock.
    by rewrite Hblock.
  - intros i c Hi. specialize (Hblock (S i) c Hi).
    by rewrite Nat.add_succ_r in Hblock.
Qed.

Lemma init_state_total (p : string) (σ : state) :
  Forall (λ c, c ∈ printable) (chars_of p) →
  total_count (cells (init_state p σ))
    (profile_dict (length (cells σ)) (chars_of p)) = String.length p.
Proof.
  intros Hall. unfold profile_dict. rewrite total_count_filter.
  - rewrite (total_count_block _ (λ c, tally c 0 (chars_of p) (Entry 0 []))).
    + rewrite <-chars_of_length,
        <-(occurrences_total printable (chars_of p) 0 printable_NoDup Hall).
      clear. induction printable as [|a al IH]; [done|]. cbn.
      by rewrite IH, tally_count.
    + intros i c Hi. by apply init_state_new_cell.
  - intros c y e (i & c' & y' & [= <- <-] & Hi & [-> _]%lookup_seq)
      %elem_of_lookup_zip_with He Hz.
    rewrite (init_state_new_cell _ _ _ _ Hi) in He. injection He as <-.
    cbn [fst] in Hz. lia.
Qed.

(** ** Profiles of the same string *)

Lemma count_at_profile (cs : list entry) (base : nat) (p : list ascii)
    (c : ascii) (n : nat) :
  counts_at cs base p →
  count_at cs (profile_dict base p) c = Some n ↔
  c ∈ printable ∧ n = count (tally c 0 p (Entry 0 [])) ∧ 0 < n.
Proof.
  intros Hblock.
  destruct (profile_dict_wf base p) as (Hk & _ & _).
  unfold count_at. split.
  - destruct (dict_get (profile_dict base p) c) as [y|] eqn:Hy; [|done].
    apply dict_get_Some, profile_dict_elem in Hy as (i & Hi & -> & Hpos).
    specialize (Hblock i c Hi). cbn.
    destruct (cs !! (base + i)) as [e|]; [|done]. cbn in *.
    injection Hblock as Hc. intros [= <-]. rewrite Hc.
    split_and!; [by eapply list_elem_of_lookup_2|done|done].
  - intros ([i Hi]%list_elem_of_lookup & -> & Hpos).
    rewrite (dict_get_NoDup _ c (base + i)); [|done|].
    + specialize (Hblock i c Hi). cbn.
      destruct (cs !! (base + i)) as [e|]; [|done]. cbn in *. congruence.
    + apply profile_dict_elem. eauto.
Qed.

Lemma init_state_counts_new (p : string) (σ : state) :
  counts_at (cells (init_state p σ)) (length (cells σ)) (chars_of p).
Proof. intros i c Hi. by rewrite (init_state_new_cell _ _ _ _ Hi). Qed.

Lemma init_state_counts_old (p q : string) (σ : state) (base : nat) :
  counts_at (cells σ) base (chars_of q) →
  counts_at (cells (init_state p σ)) base (chars_of q).
Proof.
  intros Hblock i c Hi. specialize (Hblock i c Hi).
  destruct (cells σ !! (base + i)) as [e|] eqn:He; [|done].
  by rewrite (init_state_old_cell _ _ _ _ He).
Qed.

Lemma contains_same_string (cs : list entry) (base1 base2 : nat)
    (p : list ascii) :
  counts_at cs base1 p → counts_at cs base2 p →
  contains cs (profile_dict base1 p) (profile_dict base2 p).
Proof.
  intros H1 H2 c n Hn. exists n. split; [|done].
  apply (count_at_profile _ _ _ _ _ H1).
  by apply (count_at_profile _ _ _ _ _ H2).
Qed.

(** ** The empty query and the checks on the path *)

Lemma shave_nil (items acc : dict) : shave items [] acc = acc.
Proof. revert acc. induction items as [|[x y] items IH]; intros acc; cbn; done. Qed.

Lemma profile_dict_nil (base : nat) : profile_dict base [] = [].
Proof.
  destruct (profile_dict base []) as [|[c y] d] eqn:Hd; [done|].
  assert ((c, y) ∈ profile_dict base []) as Hin by (rewrite Hd; left).
  apply profile_dict_elem in Hin as (i & _ & _ & Hpos). cbn in Hpos. lia.
Qed.

Lemma list_entries_spec (files : list DirEntry) (σ : state) :
  list_entries files σ =
  Ok tt (set_stdout (λ out, out ++ (entry_path <$> files)) σ).
Proof.
  revert σ. induction files as [|file files IH]; intros σ.
  - cbn. unfold ret, set_stdout. by rewrite app_nil_r, state_eta.
  - cbn [list_entries]. rewrite run_bind. cbn [print]. rewrite IH.
    unfold set_stdout. cbn. by rewrite <-(assoc_L (++)).
Qed.

Lemma main_invalid_path (colored : ascii → string → string)
    (Path_parent Path_absolute : string → string) (p : PathArg)
    (query color : string) (σ : state) :
  path_exists p && path_is_dir p = false →
  main colored Path_parent Path_absolute p query color σ =
  Raise OSError (set_stderr (λ err, err ++ path_warnings p) σ).
Proof.
  intros Hbad. unfold main, os_scandir, path_warnings. rewrite Hbad.
  destruct (path_exists p), (path_is_dir p); try done.
  rewrite !run_bind. cbn [eprint negb]. rewrite !run_bind. cbn [eprint].
  rewrite run_bind. unfold raise, set_stderr. cbn.
  by rewrite <-(assoc_L (++)).
Qed.

Lemma main_empty_query (colored : ascii → string → string)
    (Path_parent Path_absolute : string → string) (p : PathArg)
    (color : string) (σ : state) :
  path_exists p && path_is_dir p = true →
  main colored Path_parent Path_absolute p EmptyString color σ =
  Raise (SystemExit 0)
    (set_stdout (λ out, out ++ (entry_path <$> dir_entries p)) σ).
Proof.
  intros [E1 E2]%andb_true_iff. unfold main, os_scandir. rewrite E1, E2.
  cbn [negb andb]. rewrite !run_bind. cbn [ret]. rewrite !run_bind.
  cbn [ret String.length Nat.eqb]. rewrite run_bind. cbn [ret].
  by rewrite run_bind, list_entries_spec.
Qed.

(** ** The positions a match marks *)

Lemma compare_outcome_positions (fuzz1 : nat) (f1 f2 : Fuzzable)
    (σ σ' : state) :
  profile_wf (cells σ) f1 → profile_wf (cells σ) f2 →
  objs σ !! fuzz1 = Some f1 →
  compare_outcome fuzz1 f1 f2 σ = Ok true σ' →
  objs σ' !! fuzz1 =
    Some (MkFuzzable (path f1) (Some (common_of f1 f2)) (non_zero f1)) ∧
  (∀ c, c ∈ keys (common_of f1 f2) ↔ c ∈ keys (non_zero f2)) ∧
  ∀ c n, count_at (cells σ) (non_zero f2) c = Some n →
    ∃ y e, dict_get (non_zero f1) c = Some y ∧
           dict_get (common_of f1 f2) c = Some y ∧
           cells σ !! y = Some e ∧ cells σ' !! y = Some (truncate n e).
Proof.
  intros [Hk1 Hv1 Ha1] [Hk2 Hv2 Ha2] H1.
  intros (_ & _ & _ & [[? _]|(_ & Hnone & Hcells & Hlen & Hobjs)])
    %compare_outcome_inv; [done|].
  destruct (common_of_wf (cells σ) f1 f2) as (Hkc & Hvc & Hsubc); [done|].
  pose proof (proj1 (common_of_length f1 f2 Hk1 Hk2) Hlen) as Hsub.
  split_and!.
  - rewrite Hobjs. apply list_lookup_insert_eq. by eapply lookup_lt_Some.
  - intros c. rewrite common_of_keys. split; [tauto | auto].
  - intros c n Hn. pose proof (count_at_key _ _ _ _ Hn) as Hin2.
    destruct (proj2 (dict_get_is_Some _ _) (Hsub c Hin2)) as [y Hy].
    destruct (lookup_lt_is_Some_2 (cells σ) y) as [e He].
    { by eapply Ha1, dict_get_values. }
    exists y, e. rewrite common_of_get by done. split_and!; try done.
    rewrite Hcells.
    apply (restrict_exact _ _ _ _ Hkc) with (k := c); try done.
    + intros k k' z _ _. by apply dict_get_injective.
    + apply common_of_keys. auto.
    + by rewrite common_of_get.
Qed.

(** ** The verdict as a function of the two strings *)

Lemma tally_occ (c : ascii) (s : string) :
  tally c 0 (chars_of s) (Entry 0 []) =
  Entry (occ c s) (occurrences c 0 (chars_of s)).
Proof.
  pose proof (tally_count c 0 (chars_of s) (Entry 0 [])) as Hc.
  pose proof (tally_positions c 0 (chars_of s) (Entry 0 [])) as Hp.
  destruct (tally c 0 (chars_of s) (Entry 0 [])) as [n ps].
  cbn in Hc, Hp. unfold occ. by rewrite Hc, Hp.
Qed.

Lemma count_at_profile_occ (cs : list entry) (base : nat) (s : string)
    (c : ascii) (n : nat) :
  counts_at cs base (chars_of s) →
  count_at cs (profile_dict base (chars_of s)) c = Some n ↔
  c ∈ printable ∧ n = occ c s ∧ 0 < n.
Proof.
  intros Hblock. rewrite (count_at_profile _ _ _ _ _ Hblock).
  by rewrite tally_occ.
Qed.

Lemma contains_matches (cs : list entry) (b1 bq : nat) (cand query : string) :
  counts_at cs b1 (chars_of cand) → counts_at cs bq (chars_of query) →
  contains cs (profile_dict b1 (chars_of cand))
    (profile_dict bq (chars_of query)) ↔
  matches cand query = true.
Proof.
  intros H1 Hq. unfold matches. rewrite forallb_forall. split.
  - intros Hc c Hin%list_elem_of_In. apply Nat.leb_le.
    destruct (occ c query) as [|n] eqn:Hn; [lia|].
    destruct (Hc c (S n)) as (m & Hm & Hle).
    { apply (count_at_profile_occ _ _ _ _ _ Hq). split_and!; [done|done|lia]. }
    apply (count_at_profile_occ _ _ _ _ _ H1) in Hm as (_ & -> & _). done.
  - intros Hall c n (Hin & -> & Hpos)%(count_at_profile_occ _ _ _ _ _ Hq).
    specialize (Hall c (proj1 (list_elem_of_In _ _) Hin)).
    apply Nat.leb_le in Hall. exists (occ c cand). split; [|done].
    apply (count_at_profile_occ _ _ _ _ _ H1). split_and!; [done|done|lia].
Qed.

Lemma keys_filter (P : ascii → Prop) `{!∀ k, Decision (P k)}
    (Q : ascii * nat → Prop) `{!∀ x, Decision (Q x)} (d : dict) :
  (∀ x, Q x ↔ P (fst x)) → keys (filter Q d) = filter P (keys d).
Proof.
  intros HQ. unfold keys. induction d as [|[k v] d IH]; [done|].
  rewrite fmap_cons, !filter_cons. cbn [fst].
  destruct (decide (Q (k, v))) as [Hq|Hq], (decide (P k)) as [Hp|Hp].
  - by rewrite fmap_cons, IH.
  - destruct Hp. by apply (HQ (k, v)).
  - destruct Hq. by apply HQ.
  - done.
Qed.

Lemma keys_profile_dict (base : nat) (s : string) :
  keys (profile_dict base (chars_of s)) = filter (λ c, 0 < occ c s) printable.
Proof.
  unfold profile_dict.
  rewrite (keys_filter (λ c, 0 < occ c s)), keys_zip_seq; [done|].
  intros [c y]. cbn [fst]. by rewrite tally_occ.
Qed.

Lemma keys_common_profiles (f1 f2 : Fuzzable) (b1 bq : nat)
    (cand query : string) :
  non_zero f1 = profile_dict b1 (chars_of cand) →
  non_zero f2 = profile_dict bq (chars_of query) →
  keys (common_of f1 f2) = matched_keys cand query.
Proof.
  intros Hnz1 Hnz2. unfold common_of.
  rewrite (keys_filter (λ c, c ∈ keys (non_zero f2))) by done.
  rewrite Hnz1, Hnz2, !keys_profile_dict, list_filter_filter.
  unfold matched_keys. apply filter_ext_in. intros c Hc.
  rewrite list_elem_of_filter. tauto.
Qed.

(** ** [colorize] after a match *)

Lemma collect_indexes_spec (ks : list ascii) (sh : dict) (acc : list nat)
    (σ : state) :
  (∀ k, k ∈ ks → ∃ y e, dict_get sh k = Some y ∧ cells σ !! y = Some e) →
  collect_indexes ks sh acc σ =
  Ok (acc ++ concat ((λ k, default [] (positions_at (cells σ) sh k)) <$> ks)) σ.
Proof.
  revert acc. induction ks as [|k ks IH]; intros acc Hks.
  - cbn. by rewrite app_nil_r.
  - destruct (Hks k) as (y & e & Hy & He); [left|].
    cbn [collect_indexes]. unfold subscript. rewrite Hy.
    rewrite run_bind. cbn [ret]. rewrite run_bind, (read_cell_ok _ _ _ He).
    rewrite IH by (intros k' Hk'; apply Hks; by right).
    rewrite fmap_cons. cbn [concat]. unfold positions_at at 2.
    rewrite Hy. cbn. rewrite He. cbn. by rewrite <-(assoc_L (++)).
Qed.

Lemma colorize_after_match (colored : ascii → string → string)
    (Path_parent Path_absolute : string → string) (ff : nat)
    (cand query color : string) (sh nz : dict) (σ : state) :
  objs σ !! ff = Some (MkFuzzable cand (Some sh) nz) →
  keys sh = matched_keys cand query →
  (∀ c, c ∈ matched_keys cand query →
     ∃ y, dict_get sh c = Some y ∧
          cells σ !! y =
          Some (truncate (occ c query)
                  (Entry (occ c cand) (occurrences c 0 (chars_of cand))))) →
  colorize colored Path_parent Path_absolute ff color σ =
  Ok (report_line colored Path_parent Path_absolute cand query color) σ.
Proof.
  intros Hobj Hkeys Hcells. unfold colorize.
  rewrite run_bind, (read_obj_ok _ _ _ Hobj). cbn [shared path].
  rewrite run_bind, collect_indexes_spec; cbn [app].
  - unfold ret, report_line, matched_indexes. do 4 f_equal.
    rewrite Hkeys. apply Forall_fmap_ext_1, Forall_forall. intros c Hc.
    destruct (Hcells c Hc) as (y & Hy & He). unfold positions_at.
    rewrite Hy. cbn. by rewrite He.
  - intros k Hk. rewrite Hkeys in Hk.
    destruct (Hcells k Hk) as (y & Hy & He). eauto.
Qed.

(** ** One round of the scan *)

Lemma query_ok_lt (σ : state) (fq : nat) (query : string) :
  query_ok σ fq query → fq < length (objs σ).
Proof. intros (base & sh & Hobj & _). by eapply lookup_lt_Some. Qed.

Lemma counts_at_truncates (cs cs' : list entry) (base : nat) (p : list ascii) :
  (∀ y e, cs !! y = Some e → ∃ n, cs' !! y = Some (truncate n e)) →
  counts_at cs base p → counts_at cs' base p.
Proof.
  intros Htr Hblock i c Hi. specialize (Hblock i c Hi).
  destruct (cs !! (base + i)) as [e|] eqn:He; [|done].
  destruct (Htr _ _ He) as [n ->]. done.
Qed.

Lemma compare_in_scan (colored : ascii → string → string)
    (Path_parent Path_absolute : string → string) (fq : nat)
    (cand query color : string) (σ : state) :
  store_wf σ → query_ok σ fq query → over_alphabet cand →
  ∃ σ2,
    compare_dicts (length (objs σ)) fq (init_state cand σ) =
      Ok (matches cand query) σ2 ∧
    store_wf σ2 ∧ query_ok σ2 fq query ∧
    stdout σ2 = stdout σ ∧ stderr σ2 = stderr σ ∧
    (matches cand query = true →
     colorize colored Path_parent Path_absolute (length (objs σ)) color σ2 =
     Ok (report_line colored Path_parent Path_absolute cand query color) σ2).
Proof.
  intros Hwf Hq Hcand. pose proof (query_ok_lt _ _ _ Hq) as Hlt.
  destruct Hq as (bq & sh & Hqobj & Hqcounts).
  pose proof (init_state_wf cand σ Hwf) as Hwf1.
  pose proof (init_state_new cand σ) as H1.
  pose proof (init_state_old cand σ _ _ Hqobj) as H2.
  pose proof (init_state_counts_new cand σ) as Hc1.
  pose proof (init_state_counts_old cand query σ _ Hqcounts) as Hcq.
  pose proof (wf_profiles _ Hwf1 _ _ H1) as Hp1.
  pose proof (wf_profiles _ Hwf1 _ _ H2) as Hp2.
  rewrite (compare_dicts_spec _ _ _ _ _ Hwf1 H1 H2).
  destruct (compare_outcome_verdict (length (objs σ)) _ _ _ Hp1 Hp2)
    as (b & σ2 & Hrun & Hb).
  cbn [non_zero] in Hb. rewrite (contains_matches _ _ _ _ _ Hc1 Hcq) in Hb.
  assert (b = matches cand query) as ->.
  { destruct b, (matches cand query); try done.
    - symmetry. by apply Hb.
    - by apply Hb. }
  exists σ2. rewrite Hrun.
  pose proof (compare_outcome_inv _ _ _ _ _ _ Hrun) as (Hout & Herr & _).
  split_and!; try done.
  - apply (compare_outcome_wf _ _ _ _ _ _ Hwf1 H1 Hrun).
  - destruct (compare_outcome_objs _ _ _ _ _ _ _ _ H1 Hrun H2)
      as (o' & Ho' & _ & _ & Hsame).
    exists bq, sh. split.
    + rewrite Ho'. f_equal. apply Hsame. lia.
    + eapply counts_at_truncates; [|done]. intros y e.
      by apply (compare_outcome_truncates _ _ _ _ _ _ _ _ Hrun).
  - intros Hm. rewrite Hm in Hrun.
    destruct (compare_outcome_positions _ _ _ _ _ Hp1 Hp2 H1 Hrun)
      as (Hobj & _ & Hpos).
    cbn [path non_zero] in Hobj, Hpos.
    eapply colorize_after_match; [done| |].
    + by eapply keys_common_profiles.
    + intros c [[Hc1' Hcq'] Hin]%list_elem_of_filter.
      destruct (Hpos c (occ c query)) as (y & e & Hy1 & Hyc & He & He').
      { apply (count_at_profile_occ _ _ _ _ _ Hcq). by split_and!. }
      exists y. split; [done|]. rewrite He'. do 2 f_equal.
      apply dict_get_Some, profile_dict_elem in Hy1 as (i & Hi & -> & _).
      rewrite (init_state_new_cell _ _ _ _ Hi), tally_occ in He. congruence.
Qed.

(** ** The scan over a directory of names over the alphabet *)

Lemma store_wf_set_stdout (f : list string → list string) (σ : state) :
  store_wf σ → store_wf (set_stdout f σ).
Proof. intros [Hp Hs]. split; [exact Hp | exact Hs]. Qed.

Lemma query_ok_set_stdout (f : list string → list string) (σ : state)
    (fq : nat) (query : string) :
  query_ok σ fq query → query_ok (set_stdout f σ) fq query.
Proof. intros (base & sh & Hobj & Hc). by exists base, sh. Qed.

(** The scan over a prefix of names over the alphabet: it prints the
    lines of the matches in the order of the listing and goes on with the
    rest of the listing. *)
Lemma scan_prefix (colored : ascii → string → string)
    (Path_parent Path_absolute : string → string) (p : PathArg) (fq : nat)
    (query color : string) (files rest : list DirEntry) (σ : state) :
  store_wf σ → query_ok σ fq query →
  Forall (λ file, over_alphabet (candidate p file)) files →
  ∃ σ',
    scan colored Path_parent Path_absolute p fq color (files ++ rest) σ =
      scan colored Path_parent Path_absolute p fq color rest σ' ∧
    store_wf σ' ∧ query_ok σ' fq query ∧
    stdout σ' =
      stdout σ ++
      ((λ cand, report_line colored Path_parent Path_absolute cand query color)
         <$> filter (λ cand, matches cand query = true) (candidate p <$> files)) ∧
    stderr σ' = stderr σ.
Proof.
  revert σ. induction files as [|file files IH]; intros σ Hwf Hq Hall.
  - exists σ. cbn. by rewrite app_nil_r.
  - apply Forall_cons in Hall as [Hcand Hall].
    destruct (compare_in_scan colored Path_parent Path_absolute fq
                (candidate p file) query color σ Hwf Hq Hcand)
      as (σ2 & Hcmp & Hwf2 & Hq2 & Hout2 & Herr2 & Hcol).
    rewrite <-app_comm_cons. cbn [scan]. fold (candidate p file).
    rewrite run_bind, Fuzzable_init_ok by done.
    rewrite run_bind, Hcmp. rewrite run_bind.
    rewrite fmap_cons, filter_cons.
    destruct (matches (candidate p file) query) eqn:Hm.
    + rewrite run_bind, (Hcol eq_refl). cbn [print].
      rewrite decide_True by done.
      destruct (IH (set_stdout
                      (λ out, out ++ [report_line colored Path_parent
                                        Path_absolute (candidate p file)
                                        query color]) σ2))
        as (σ' & Hscan & Hwf' & Hq' & Hout & Herr);
        [by apply store_wf_set_stdout|by apply query_ok_set_stdout|done|].
      exists σ'. rewrite Hscan. split_and!; [done|done|done| |by rewrite Herr].
      rewrite Hout. cbn. by rewrite Hout2, <-(assoc_L (++)).
    + cbn [ret]. rewrite decide_False by done.
      destruct (IH σ2) as (σ' & Hscan & Hwf' & Hq' & Hout & Herr);
        [done|done|done|].
      exists σ'. rewrite Hscan. split_and!; [done|done|done| |]; congruence.
Qed.

Lemma init_state_query_ok (query : string) (σ : state) :
  query_ok (init_state query σ) (length (objs σ)) query.
Proof.
  exists (length (cells σ)), None.
  split; [apply init_state_new | apply init_state_counts_new].
Qed.

Lemma main_scan (colored : ascii → string → string)
    (Path_parent Path_absolute : string → string) (p : PathArg)
    (query color : string) (σ : state) :
  path_exists p && path_is_dir p = true → query ≠ EmptyString →
  main colored Path_parent Path_absolute p query color σ =
  (fuzzable_query ← Fuzzable_init query;
   scan colored Path_parent Path_absolute p fuzzable_query color
     (dir_entries p)) σ.
Proof.
  intros [E1 E2]%andb_true_iff Hne.
  unfold main, os_scandir. rewrite E1, E2. cbn [negb andb].
  rewrite !run_bind. cbn [ret]. rewrite !run_bind. cbn [ret].
  rewrite run_bind. cbn [ret].
  destruct query as [|c query]; [done|]. done.
Qed.

(** [main] on an existing directory whose names are over the alphabet, with
    a query over the alphabet that is not empty: it returns, and prints the
    line of every entry that [matches] the query, in the order of the
    listing. *)
Lemma main_reports (colored : ascii → string → string)
    (Path_parent Path_absolute : string → string) (p : PathArg)
    (query color : string) (σ : state) :
  store_wf σ → path_exists p && path_is_dir p = true →
  query ≠ EmptyString → over_alphabet query →
  Forall (λ file, over_alphabet (candidate p file)) (dir_entries p) →
  ∃ σ',
    main colored Path_parent Path_absolute p query color σ = Ok tt σ' ∧
    stdout σ' =
      stdout σ ++
      ((λ cand, report_line colored Path_parent Path_absolute cand query color)
         <$> filter (λ cand, matches cand query = true)
               (candidate p <$> dir_entries p)) ∧
    stderr σ' = stderr σ.
Proof.
  intros Hwf Hvalid Hne Hquery Hall. rewrite main_scan by done.
  rewrite run_bind, Fuzzable_init_ok by done.
  destruct (scan_prefix colored Path_parent Path_absolute p (length (objs σ))
              query color (dir_entries p) [] (init_state query σ))
    as (σ' & Hscan & _ & _ & Hout & Herr);
    [by apply init_state_wf|apply init_state_query_ok|done|].
  rewrite app_nil_r in Hscan. exists σ'. by rewrite Hscan.
Qed.

(** The scan stops at the first name that is not over the alphabet: the
    constructor raises [KeyError], the matches before that name have been
    printed, and the names after it are not looked at. *)
Lemma main_KeyError (colored : ascii → string → string)
    (Path_parent Path_absolute : string → string) (p : PathArg)
    (query color : string) (σ : state) (good rest : list DirEntry)
    (bad : DirEntry) :
  store_wf σ → path_exists p && path_is_dir p = true →
  query ≠ EmptyString → over_alphabet query →
  dir_entries p = good ++ bad :: rest →
  Forall (λ file, over_alphabet (candidate p file)) good →
  ¬ over_alphabet (candidate p bad) →
  ∃ c σ',
    main colored Path_parent Path_absolute p query color σ =
      Raise (KeyError c) σ' ∧
    c ∈ chars_of (candidate p bad) ∧ (c ∉ printable) ∧
    stdout σ' =
      stdout σ ++
      ((λ cand, report_line colored Path_parent Path_absolute cand query color)
         <$> filter (λ cand, matches cand query = true) (candidate p <$> good)).
Proof.
  intros Hwf Hvalid Hne Hquery Hfiles Hgood Hbad. rewrite main_scan by done.
  rewrite run_bind, Fuzzable_init_ok by done.
  destruct (scan_prefix colored Path_parent Path_absolute p (length (objs σ))
              query color good (bad :: rest) (init_state query σ))
    as (σ1 & Hscan & _ & _ & Hout & _);
    [by apply init_state_wf|apply init_state_query_ok|done|].
  rewrite Hfiles, Hscan. cbn [scan]. fold (candidate p bad).
  rewrite run_bind, Fuzzable_init_spec.
  destruct (first_unknown printable (chars_of (candidate p bad))) as [c|]
    eqn:Hfirst.
  - destruct (first_unknown_Some _ _ _ Hfirst) as [Hin Hout'].
    eexists c, _. split_and!; [done|done|done|]. cbn. by rewrite Hout.
  - destruct Hbad. by apply first_unknown_None.
Qed.

(** ** Every store the program reaches is well formed *)

Lemma store_wf_grow (σ : state) (block : list entry) :
  store_wf σ → store_wf (set_cells (λ cs, cs ++ block) σ).
Proof.
  intros [Hp Hs]. split; [|exact Hs].
  intros r o Ho. destruct (Hp r o Ho) as [? ? Ha]. split; [done|done|].
  intros y Hy. cbn. rewrite length_app. specialize (Ha y Hy). lia.
Qed.

Lemma reachable_wf (σ : state) : reachable σ → store_wf σ.
Proof.
  induction 1 as [|p σ r σ' _ IH Hrun|p σ e σ' _ IH Hrun
                  |fuzz1 fuzz2 σ b σ' _ IH Hrun|line σ _ IH|line σ _ IH].
  - apply empty_state_wf.
  - rewrite Fuzzable_init_spec in Hrun.
    destruct (first_unknown printable (chars_of p)); [done|].
    injection Hrun as _ <-. by apply init_state_wf.
  - rewrite Fuzzable_init_spec in Hrun.
    destruct (first_unknown printable (chars_of p)); [|done].
    injection Hrun as _ <-. by apply store_wf_grow.
  - destruct (compare_dicts_Ok _ _ _ _ _ Hrun) as (f1 & f2 & H1 & H2).
    rewrite (compare_dicts_spec _ _ f1 f2) in Hrun by done.
    apply (compare_outcome_wf _ _ _ _ _ _ IH H1 Hrun).
  - by apply store_wf_set_stdout.
  - destruct IH as [Hp Hs]. split; [exact Hp | exact Hs].
Qed.

(** ** Two listings of the same directory *)

(** On names over the alphabet the order of the listing decides the order
    of the printed lines and nothing else: two runs over listings that are
    permutations of each other both return, and print the same lines, each
    in the order of its listing. *)
Lemma main_order_independent (colored : ascii → string → string)
    (Path_parent Path_absolute : string → string) (p1 p2 : PathArg)
    (query color : string) (σ : state) :
  store_wf σ →
  path_exists p1 && path_is_dir p1 = true →
  path_exists p2 && path_is_dir p2 = true →
  path_absolute p2 = path_absolute p1 →
  dir_entries p1 ≡ₚ dir_entries p2 →
  query ≠ EmptyString → over_alphabet query →
  Forall (λ file, over_alphabet (candidate p1 file)) (dir_entries p1) →
  let line cand :=
    report_line colored Path_parent Path_absolute cand query color in
  let reported files :=
    line <$> filter (λ cand, matches cand query = true)
               (candidate p1 <$> files) in
  ∃ σ1 σ2,
    main colored Path_parent Path_absolute p1 query color σ = Ok tt σ1 ∧
    main colored Path_parent Path_absolute p2 query color σ = Ok tt σ2 ∧
    stdout σ1 = stdout σ ++ reported (dir_entries p1) ∧
    stdout σ2 = stdout σ ++ reported (dir_entries p2) ∧
    reported (dir_entries p1) ≡ₚ reported (dir_entries p2).
Proof.
  intros Hwf Hv1 Hv2 Habs Hperm Hne Hq Hall line reported.
  assert (∀ file, candidate p2 file = candidate p1 file) as Hcand.
  { intros file. unfold candidate. by rewrite Habs. }
  destruct (main_reports colored Path_parent Path_absolute p1 query color σ)
    as (σ1 & Hrun1 & Hout1 & _); try done.
  destruct (main_reports colored Path_parent Path_absolute p2 query color σ)
    as (σ2 & Hrun2 & Hout2 & _); try done.
  { rewrite <-Hperm. eapply Forall_impl; [exact Hall|].
    intros file. cbn. by rewrite Hcand. }
  exists σ1, σ2. split_and!; try done.
  - rewrite Hout2. subst reported line. cbn. do 3 f_equal.
    apply list_fmap_ext. auto.
  - subst reported. cbn. by rewrite Hperm.
Qed.

(** ** The examples of the specification *)

(** The verdict and the final state of comparing a fresh profile of [cand]
    with a fresh profile of [query] in the empty store. *)
Example no_match_missing_character :
  ∃ σ', (f1 ← Fuzzable_init "abc"; f2 ← Fuzzable_init "abd";
         compare_dicts f1 f2) empty_state = Ok false σ'.
Proof. eexists. vm_compute. reflexivity. Qed.

Example no_match_insufficient_count :
  ∃ σ', (f1 ← Fuzzable_init "ab"; f2 ← Fuzzable_init "aab";
         compare_dicts f1 f2) empty_state = Ok false σ'.
Proof. eexists. vm_compute. reflexivity. Qed.

(** A comparison that fails at its second key has already cut the list of
    its first key: the candidate aab, compared with abb, keeps the count 2
    for a with the one position 0. *)
Example no_match_after_restriction :
  ∃ σ', (f1 ← Fuzzable_init "aab"; f2 ← Fuzzable_init "abb";
         compare_dicts f1 f2) empty_state = Ok false σ' ∧
        cells σ' !! 10 = Some (Entry 2 [0]) ∧
        shared <$> objs σ' !! 0 = Some None.
Proof. eexists. vm_compute. split_and!; reflexivity. Qed.

(** The directory /d with apple.txt, banana.txt and grape.txt, and the
    query ap: the first and the third entry are reported. *)
Example end_to_end :
  ∃ σ',
    main mark (λ _, "/d"%string) id
      (dir_of [MkDirEntry "apple.txt" "d/apple.txt";
               MkDirEntry "banana.txt" "d/banana.txt";
               MkDirEntry "grape.txt" "d/grape.txt"])
      "ap" "red" empty_state = Ok tt σ' ∧
    stdout σ' = ["/d/<a><p>ple.txt"; "/d/gr<a><p>e.txt"]%string.
Proof. eexists. vm_compute. split; reflexivity. Qed.

(** ** Occurrence counts and sub-multisets *)

Lemma occurrences_length (c : ascii) (idx : nat) (p : list ascii) :
  length (occurrences c idx p) = count_of c p.
Proof.
  unfold count_of. revert idx. induction p as [|x p IH]; intros idx; [done|].
  cbn [occurrences]. rewrite filter_cons.
  destruct (decide (x = c)); cbn [length]; by rewrite IH.
Qed.

Lemma occ_count_of (c : ascii) (s : string) :
  occ c s = count_of c (chars_of s).
Proof. apply occurrences_length. Qed.

Lemma count_of_cons (c x : ascii) (l : list ascii) :
  count_of c (x :: l) = (if decide (x = c) then 1 else 0) + count_of c l.
Proof. unfold count_of. rewrite filter_cons. by destruct (decide (x = c)). Qed.

Lemma count_of_Permutation (c : ascii) (l k : list ascii) :
  l ≡ₚ k → count_of c l = count_of c k.
Proof. unfold count_of. by intros ->. Qed.

Lemma count_of_app (c : ascii) (l k : list ascii) :
  count_of c (l ++ k) = count_of c l + count_of c k.
Proof. unfold count_of. by rewrite filter_app, length_app. Qed.

Lemma count_of_pos (c : ascii) (l : list ascii) :
  0 < count_of c l ↔ c ∈ l.
Proof.
  induction l as [|x l IH]; [split; [cbn; lia | by intros ?%elem_of_nil]|].
  rewrite count_of_cons, elem_of_cons.
  destruct (decide (x = c)) as [->|Hne]; [split; [by left | lia]|].
  cbn. rewrite IH. split; [by right | by intros [->|]].
Qed.

(** Counting characters decides the sub-multiset relation. *)
Lemma submseteq_count_of (q l : list ascii) :
  q ⊆+ l ↔ ∀ c, count_of c q ≤ count_of c l.
Proof.
  split.
  - intros (k & Hk)%submseteq_Permutation c.
    rewrite (count_of_Permutation c _ _ Hk), count_of_app. lia.
  - revert l. induction q as [|x q IH]; intros l Hc; [apply submseteq_nil_l|].
    assert (x ∈ l) as (l' & Hl')%elem_of_Permutation.
    { apply count_of_pos. specialize (Hc x). rewrite count_of_cons in Hc.
      by destruct (decide (x = x)); [lia|]. }
    rewrite Hl'. apply submseteq_skip, IH. intros c. specialize (Hc c).
    rewrite (count_of_Permutation c _ _ Hl'), !count_of_cons in Hc. lia.
Qed.

(** The verdict on two strings is the sub-multiset relation on their
    characters. *)
Lemma matches_count (cand query : string) :
  over_alphabet query →
  matches cand query = true ↔ ∀ c, occ c query ≤ occ c cand.
Proof.
  intros Hq. unfold matches. rewrite forallb_forall. split.
  - intros H c. destruct (decide (c ∈ printable)) as [Hin|Hout].
    + apply Nat.leb_le, H. by apply list_elem_of_In.
    + assert (occ c query = 0) as ->; [|lia].
      rewrite occ_count_of. destruct (count_of c (chars_of query)) eqn:E; [done|].
      assert (c ∈ chars_of query) as Hc by (apply count_of_pos; lia).
      unfold over_alphabet in Hq. rewrite Forall_forall in Hq. by apply Hq in Hc.
  - intros H c _. apply Nat.leb_le, H.
Qed.

Lemma matches_submseteq (cand query : string) :
  over_alphabet query →
  matches cand query = true ↔ chars_of query ⊆+ chars_of cand.
Proof.
  intros Hq. rewrite (matches_count _ _ Hq), submseteq_count_of.
  by setoid_rewrite occ_count_of.
Qed.

(** ** One round of the loop, in closed form *)

Lemma report_spec (colored : ascii → string → string)
    (Path_parent Path_absolute : string → string)
    (cand query color : string) (σ : state) :
  store_wf σ → over_alphabet cand → over_alphabet query →
  ∃ σ',
    fresh_compare cand query σ = Ok (matches cand query) σ' ∧
    report colored Path_parent Path_absolute cand query color σ =
      Ok (if matches cand query
          then Some (report_line colored Path_parent Path_absolute
                       cand query color)
          else None) σ' ∧
    store_wf σ' ∧ stdout σ' = stdout σ ∧ stderr σ' = stderr σ ∧
    length (objs σ') = S (S (length (objs σ))).
Proof.
  intros Hwf Hc Hq.
  pose proof (init_state_wf query σ Hwf) as Hwf1.
  pose proof (init_state_query_ok query σ) as Hqok.
  destruct (compare_in_scan colored Path_parent Path_absolute
              (length (objs σ)) cand query color (init_state query σ)
              Hwf1 Hqok Hc) as (σ2 & Hcmp & Hwf2 & _ & Hout & Herr & Hcol).
  exists σ2. unfold fresh_compare, report.
  rewrite !run_bind, (Fuzzable_init_ok query σ Hq).
  rewrite !run_bind, (Fuzzable_init_ok cand _ Hc).
  rewrite !run_bind, Hcmp. split_and!; [done| |done|done|done|].
  - destruct (matches cand query); [|done].
    rewrite run_bind, (Hcol eq_refl). done.
  - apply compare_dicts_Ok in Hcmp as Hex.
    destruct Hex as (f1 & f2 & H1 & H2).
    rewrite (compare_dicts_spec _ _ _ _ _ (init_state_wf cand _ Hwf1) H1 H2)
      in Hcmp.
    apply compare_outcome_inv in Hcmp as (_ & _ & _ & [[_ ->]|(_ & _ & _ & _ & ->)]).
    + cbn. rewrite !length_app. cbn. lia.
    + rewrite length_insert. cbn. rewrite !length_app. cbn. lia.
Qed.

(** ** The indexes a match marks *)

Lemma sum_list_with_filter {A} (f : A → nat) (P : A → Prop)
    `{!∀ x, Decision (P x)} (l : list A) :
  (∀ x, x ∈ l → ¬ P x → f x = 0) →
  sum_list_with f (filter P l) = sum_list_with f l.
Proof.
  induction l as [|a l IH]; intros Hz; [done|].
  rewrite filter_cons, sum_list_with_cons.
  assert (∀ x, x ∈ l → ¬ P x → f x = 0) as Hz'
    by (intros x Hx; apply Hz; by right).
  destruct (decide (P a)) as [Hp|Hn].
  - by rewrite sum_list_with_cons, IH.
  - rewrite IH by done. rewrite (Hz a) by (done || by left). done.
Qed.

Lemma sum_list_with_ext_in {A} (f g : A → nat) (l : list A) :
  (∀ x, x ∈ l → f x = g x) → sum_list_with f l = sum_list_with g l.
Proof.
  induction l as [|a l IH]; intros He; [done|].
  rewrite !sum_list_with_cons, IH, (He a); [done|by left|].
  intros x Hx. apply He. by right.
Qed.

Lemma length_concat_fmap {A B} (F : A → list B) (l : list A) :
  length (concat (F <$> l)) = sum_list_with (λ x, length (F x)) l.
Proof.
  induction l as [|a l IH]; [done|].
  cbn [fmap list_fmap concat]. by rewrite length_app, sum_list_with_cons, IH.
Qed.

Lemma elem_of_concat {A} (x : A) (ls : list (list A)) :
  x ∈ concat ls ↔ ∃ l, l ∈ ls ∧ x ∈ l.
Proof.
  rewrite list_elem_of_In, in_concat.
  by setoid_rewrite list_elem_of_In.
Qed.

Lemma NoDup_concat_fmap {A B} (F : A → list B) (l : list A) :
  NoDup l → (∀ x, x ∈ l → NoDup (F x)) →
  (∀ x y b, x ∈ l → y ∈ l → b ∈ F x → b ∈ F y → x = y) →
  NoDup (concat (F <$> l)).
Proof.
  induction l as [|a l IH]; intros Hl Hn Hd; [constructor|].
  apply NoDup_cons in Hl as [Ha Hl]. cbn [fmap list_fmap concat].
  apply NoDup_app. split_and!.
  - apply Hn. by left.
  - intros b Hb (k & Hk & Hbk)%elem_of_concat.
    apply list_elem_of_fmap in Hk as (y & -> & Hy).
    apply Ha. rewrite (Hd a y b); [done|by left|by right|done|done].
  - apply IH; [done| |].
    + intros x Hx. apply Hn. by right.
    + intros x y b Hx Hy. apply Hd; by right.
Qed.

Lemma StronglySorted_lt_NoDup (l : list nat) : StronglySorted lt l → NoDup l.
Proof.
  induction 1 as [|x l _ IH Hx]; constructor; [|done].
  intros Hin. rewrite Forall_forall in Hx. apply Hx in Hin. lia.
Qed.

Lemma elem_of_marked (c : ascii) (n i : nat) (p : list ascii) :
  i ∈ take n (occurrences c 0 p) → p !! i = Some c.
Proof.
  intros (j & Hj & _)%elem_of_take.
  apply list_elem_of_lookup_2, occurrences_spec in Hj as (k & -> & Hk). done.
Qed.

Lemma matched_indexes_elem (cand query : string) (i : nat) :
  i ∈ matched_indexes cand query →
  ∃ c, chars_of cand !! i = Some c ∧ c ∈ chars_of query.
Proof.
  unfold matched_indexes. intros (k & Hk & Hi)%elem_of_concat.
  apply list_elem_of_fmap in Hk as (c & -> & Hc).
  exists c. split; [by eapply elem_of_marked|].
  apply list_elem_of_filter in Hc as [[_ Hq] _].
  apply count_of_pos. by rewrite <- occ_count_of.
Qed.

Lemma matched_indexes_NoDup (cand query : string) :
  NoDup (matched_indexes cand query).
Proof.
  unfold matched_indexes, matched_keys. apply NoDup_concat_fmap.
  - apply NoDup_filter, printable_NoDup.
  - intros c _. apply (sublist_NoDup _ (occurrences c 0 (chars_of cand)));
      [|apply sublist_take].
    apply StronglySorted_lt_NoDup, occurrences_sorted.
  - intros x y b _ _ Hx%elem_of_marked Hy%elem_of_marked. congruence.
Qed.

Lemma matched_indexes_length (cand query : string) :
  over_alphabet query → matches cand query = true →
  length (matched_indexes cand query) = String.length query.
Proof.
  intros Hq Hm. pose proof (proj1 (matches_count _ _ Hq) Hm) as Hle.
  unfold matched_indexes, matched_keys. rewrite length_concat_fmap.
  rewrite (sum_list_with_ext_in _ (λ c, occ c query)).
  - rewrite sum_list_with_filter.
    + rewrite <- chars_of_length.
      apply (occurrences_total printable (chars_of query) 0 printable_NoDup Hq).
    + intros c _ Hn. specialize (Hle c).
      destruct (occ c query) eqn:E; [done|]. exfalso. apply Hn. lia.
  - intros c _. rewrite length_take. specialize (Hle c). unfold occ in *. lia.
Qed.

Lemma Forall2_concat_fmap {A B C} (R : B → C → Prop) (F : A → list B)
    (G : A → list C) (l : list A) :
  (∀ x, x ∈ l → Forall2 R (F x) (G x)) →
  Forall2 R (concat (F <$> l)) (concat (G <$> l)).
Proof.
  induction l as [|a l IH]; intros HR; [constructor|].
  cbn [fmap list_fmap concat]. apply Forall2_app; [apply HR; by left|].
  apply IH. intros x Hx. apply HR. by right.
Qed.

Lemma count_of_replicate (c x : ascii) (n : nat) :
  count_of c (replicate n x) = if decide (x = c) then n else 0.
Proof.
  induction n as [|n IH]; [by destruct (decide (x = c))|].
  cbn [replicate]. rewrite count_of_cons, IH. by destruct (decide (x = c)).
Qed.

Lemma count_of_concat_replicate (c : ascii) (n : ascii → nat)
    (ks : list ascii) :
  NoDup ks →
  count_of c (concat ((λ x, replicate (n x) x) <$> ks)) =
  if decide (c ∈ ks) then n c else 0.
Proof.
  induction ks as [|k ks IH]; intros Hnd.
  { destruct (decide (c ∈ [])) as [?%elem_of_nil|]; done. }
  apply NoDup_cons in Hnd as [Hk Hnd]. cbn [fmap list_fmap concat].
  rewrite count_of_app, count_of_replicate, (IH Hnd).
  destruct (decide (k = c)) as [->|Hne].
  - rewrite (decide_False (P := c ∈ ks)) by done.
    rewrite (decide_True (P := c ∈ c :: ks)) by (by left). lia.
  - destruct (decide (c ∈ ks)) as [Hin|Hout].
    + rewrite (decide_True (P := c ∈ k :: ks)) by (by right). done.
    + rewrite (decide_False (P := c ∈ k :: ks)); [done|].
      by intros [->|]%elem_of_cons.
Qed.

(** The characters standing at the marked indexes are those of the query,
    up to their order. *)
Lemma matched_indexes_chars (cand query : string) :
  over_alphabet query → matches cand query = true →
  ∃ cs, Forall2 (λ i c, chars_of cand !! i = Some c)
          (matched_indexes cand query) cs ∧
        cs ≡ₚ chars_of query.
Proof.
  intros Hq Hm. pose proof (proj1 (matches_count _ _ Hq) Hm) as Hle.
  exists (concat ((λ c, replicate (occ c query) c)
                    <$> matched_keys cand query)).
  split.
  - apply Forall2_concat_fmap. intros c _.
    apply Forall2_replicate_r.
    + rewrite length_take. specialize (Hle c). unfold occ in *. lia.
    + apply Forall_forall. intros i Hi. by eapply elem_of_marked.
  - assert (∀ c, count_of c (concat ((λ c, replicate (occ c query) c)
                                       <$> matched_keys cand query)) =
                 count_of c (chars_of query)) as Hcount.
    { intros c. rewrite count_of_concat_replicate
        by apply NoDup_filter, printable_NoDup.
      rewrite <- occ_count_of. unfold matched_keys.
      destruct (decide (c ∈ _)) as [|Hout]; [done|].
      rewrite list_elem_of_filter in Hout.
      destruct (occ c query) eqn:E; [done|]. exfalso. apply Hout.
      specialize (Hle c). split; [lia|].
      unfold over_alphabet in Hq. rewrite Forall_forall in Hq. apply Hq.
      apply count_of_pos. rewrite <- occ_count_of. lia. }
    apply (anti_symm submseteq); apply submseteq_count_of; intros c;
      rewrite Hcount; done.
Qed.

(** ** The constructor, seen from the string *)

Lemma first_unknown_split (al p : list ascii) (c : ascii) :
  first_unknown al p = Some c →
  ∃ pre post, p = pre ++ c :: post ∧ Forall (λ x, x ∈ al) pre ∧ c ∉ al.
Proof.
  induction p as [|x p IH]; [done|]. cbn [first_unknown].
  destruct (decide (x ∈ al)) as [Hx|Hx].
  - intros (pre & post & -> & Hpre & Hc)%IH.
    exists (x :: pre), post. split_and!; [done|by constructor|done].
  - intros [= <-]. by exists [], p.
Qed.

Lemma profile_lookup (s : string) (σ : state) (c : ascii) :
  over_alphabet s → c ∈ chars_of s →
  ∃ y, dict_get (profile_dict (length (cells σ)) (chars_of s)) c = Some y ∧
       cells (init_state s σ) !! y =
       Some (Entry (occ c s) (occurrences c 0 (chars_of s))).
Proof.
  intros Hs Hc. unfold over_alphabet in Hs. rewrite Forall_forall in Hs.
  destruct (proj1 (list_elem_of_lookup _ _) (Hs c Hc)) as [i Hi].
  exists (length (cells σ) + i). split.
  - destruct (profile_dict_wf (length (cells σ)) (chars_of s)) as (Hk & _ & _).
    apply (dict_get_NoDup _ _ _ Hk), profile_dict_elem.
    exists i. split_and!; [done|done|].
    rewrite tally_occ. cbn. rewrite occ_count_of. by apply count_of_pos.
  - rewrite (init_state_new_cell _ _ _ _ Hi). by rewrite tally_occ.
Qed.

Lemma store_aab_abb_wf : store_wf store_aab_abb.
Proof.
  change store_aab_abb with (init_state "abb" (init_state "aab" empty_state)).
  apply init_state_wf, init_state_wf, empty_state_wf.
Qed.

(** ** Comparisons that fail *)

Lemma compare_outcome_missing_key (fuzz1 : nat) (f1 f2 : Fuzzable)
    (σ : state) (c : ascii) :
  NoDup (keys (non_zero f1)) → NoDup (keys (non_zero f2)) →
  c ∈ keys (non_zero f2) → c ∉ keys (non_zero f1) →
  compare_outcome fuzz1 f1 f2 σ = Ok false σ.
Proof.
  intros Hk1 Hk2 Hin Hout. unfold compare_outcome.
  destruct (length (common_of f1 f2) =? length (non_zero f2)) eqn:E; [|done].
  apply Nat.eqb_eq in E.
  by apply (proj1 (common_of_length _ _ Hk1 Hk2) E) in Hin.
Qed.

Lemma fresh_compare_spec (cand query : string) (σ : state) :
  store_wf σ → over_alphabet cand → over_alphabet query →
  ∃ σ', fresh_compare cand query σ = Ok (matches cand query) σ'.
Proof.
  intros Hwf Hc Hq.
  destruct (report_spec (λ c _, String c EmptyString) id id cand query
              EmptyString σ Hwf Hc Hq) as (σ' & Hrun & _).
  by exists σ'.
Qed.

Lemma over_alphabet_Permutation (s t : string) :
  chars_of s ≡ₚ chars_of t → over_alphabet s → over_alphabet t.
Proof. unfold over_alphabet. by intros ->. Qed.

Lemma over_alphabet_submseteq (s t : string) :
  chars_of s ⊆+ chars_of t → over_alphabet t → over_alphabet s.
Proof.
  unfold over_alphabet. rewrite !Forall_forall. intros Hsub Ht c Hc.
  apply Ht. by eapply elem_of_submseteq.
Qed.

(** ** The painted string *)

Lemma append_assoc (a b c : string) : (a +:+ b) +:+ c = a +:+ (b +:+ c).
Proof.
  induction a as [|x a IH]; [done|].
  change (String x ((a +:+ b) +:+ c) = String x (a +:+ (b +:+ c))).
  by rewrite IH.
Qed.

Lemma append_nil_r (a : string) : a +:+ EmptyString = a.
Proof.
  induction a as [|x a IH]; [done|].
  change (String x (a +:+ EmptyString) = String x a). by rewrite IH.
Qed.

Section Painting.
Variable colored : ascii → string → string.

(** The loop of [colorize] appends to its accumulator. *)
Lemma paint_output (idx : nat) (cs : list ascii) (L : list nat)
    (color output : string) :
  paint colored idx cs L color output =
  output +:+ paint colored idx cs L color EmptyString.
Proof.
  revert idx output. induction cs as [|c cs IH]; intros idx output.
  { cbn. by rewrite append_nil_r. }
  cbn [paint].
  rewrite (IH (S idx) (if bool_decide (idx ∈ L) then _ else _)).
  rewrite (IH (S idx)
             (if bool_decide (idx ∈ L) then EmptyString +:+ _ else _)).
  destruct (bool_decide (idx ∈ L)); by rewrite append_assoc.
Qed.

Lemma paint_cons (idx : nat) (c : ascii) (cs : list ascii) (L : list nat)
    (color : string) :
  paint colored idx (c :: cs) L color EmptyString =
  (if bool_decide (idx ∈ L) then colored c color else String c EmptyString)
  +:+ paint colored (S idx) cs L color EmptyString.
Proof.
  cbn [paint]. rewrite paint_output. by destruct (bool_decide (idx ∈ L)).
Qed.

(** With no index marked, or with a collaborator that returns the bare
    character, the painted string is the string itself. *)
Lemma paint_plain (idx : nat) (cs : list ascii) (L : list nat)
    (color : string) :
  (L = [] ∨ ∀ c, colored c color = String c EmptyString) →
  paint colored idx cs L color EmptyString = string_of_list_ascii cs.
Proof.
  intros HL. revert idx. induction cs as [|c cs IH]; intros idx; [done|].
  rewrite paint_cons, IH. destruct HL as [->|Hc].
  - by rewrite bool_decide_eq_false_2 by apply not_elem_of_nil.
  - rewrite Hc. by destruct (bool_decide (idx ∈ L)).
Qed.
End Painting.

Lemma os_path_join_absolute (a b : string) :
  starts_with_sep b = true → os_path_join a b = b.
Proof. unfold os_path_join. by intros ->. Qed.

Lemma os_path_join_relative (a b : string) :
  starts_with_sep b = false →
  os_path_join a b = a +:+ b ∨
  os_path_join a b = a +:+ String (ascii_of_nat 47) b.
Proof.
  unfold os_path_join. intros ->.
  destruct ((String.length a =? 0) || ends_with_sep a); [by left|by right].
Qed.

Lemma matched_indexes_head (cand query : string) (c : ascii)
    (rest : list ascii) :
  chars_of cand = c :: rest → c ∈ printable →
  0 ∈ matched_indexes cand query ↔ c ∈ chars_of query.
Proof.
  intros Hcand Hc. split.
  - intros (c' & Hc' & Hin)%matched_indexes_elem.
    rewrite Hcand in Hc'. by injection Hc' as ->.
  - intros Hq. unfold matched_indexes. apply elem_of_concat.
    exists (take (occ c query) (occurrences c 0 (chars_of cand))). split.
    + apply list_elem_of_fmap. exists c. split; [done|].
      apply list_elem_of_filter. split; [|done].
      rewrite !occ_count_of, !count_of_pos, Hcand. split; [by left|done].
    + rewrite Hcand. cbn [occurrences]. rewrite decide_True by done.
      apply count_of_pos in Hq. rewrite <- occ_count_of in Hq.
      destruct (occ c query); [lia|]. by left.
Qed.

(** ** The entries a scan gets through *)

Lemma profilable_spec (p : PathArg) (file : DirEntry) :
  profilable p file = true ↔ over_alphabet (candidate p file).
Proof.
  unfold profilable, over_alphabet.
  induction (chars_of (candidate p file)) as [|c cs IH]; [done|].
  cbn [forallb]. rewrite andb_true_iff, Forall_cons, IH, bool_decide_eq_true.
  done.
Qed.

Lemma scanned_split (p : PathArg) (files : list DirEntry) :
  ∃ rest,
    files = scanned p files ++ rest ∧
    Forall (λ file, over_alphabet (candidate p file)) (scanned p files) ∧
    files !! length (scanned p files) = head rest ∧
    ∀ bad, head rest = Some bad → ¬ over_alphabet (candidate p bad).
Proof.
  induction files as [|file files (rest & Hfiles & Hall & Hnext & Hbad)].
  { by exists []. }
  cbn [scanned]. destruct (profilable p file) eqn:E.
  - exists rest. apply profilable_spec in E.
    split_and!; [by rewrite Hfiles at 1|by constructor|done|done].
  - exists (file :: files). split_and!; [done|done|done|].
    intros bad [= <-] Hover%profilable_spec. congruence.
Qed.

Lemma filter_Forall_id {A} (P : A → Prop) `{!∀ x, Decision (P x)}
    (l : list A) :
  Forall P l → filter P l = l.
Proof.
  induction 1 as [|x l Hx _ IH]; [done|].
  by rewrite filter_cons, decide_True, IH.
Qed.

Lemma chars_of_append (a b : string) :
  chars_of (a +:+ b) = chars_of a ++ chars_of b.
Proof.
  induction a as [|x a IH]; [done|].
  change (x :: chars_of (a +:+ b) = x :: (chars_of a ++ chars_of b)).
  by rewrite IH.
Qed.

Lemma os_path_join_submseteq (a b : string) :
  starts_with_sep b = false → chars_of a ⊆+ chars_of (os_path_join a b).
Proof.
  intros [->| ->]%(os_path_join_relative a); rewrite chars_of_append;
    by apply submseteq_inserts_r.
Qed.

(** ** Every reachable profile is true to its string *)

Lemma faithful_cells (σ σ' : state) (o : Fuzzable) :
  (∀ y e, cells σ !! y = Some e → ∃ n, cells σ' !! y = Some (truncate n e)) →
  faithful σ o → faithful σ' o.
Proof.
  intros Hcells (Hover & Hsh & base & Hnz & Hc).
  split_and!; [done|done|]. exists base. split; [done|].
  intros i c Hi. destruct (Hc i c Hi) as [n Hn].
  destruct (Hcells _ _ Hn) as [m Hm]. exists (m `min` n).
  by rewrite Hm, truncate_truncate.
Qed.

Lemma faithful_same_cells (σ σ' : state) (o : Fuzzable) :
  (∀ y e, cells σ !! y = Some e → cells σ' !! y = Some e) →
  faithful σ o → faithful σ' o.
Proof.
  intros Hcells. apply faithful_cells. intros y e Hy.
  exists (length (positions e)). rewrite truncate_all. by apply Hcells.
Qed.

Lemma faithful_new (p : string) (σ : state) :
  over_alphabet p →
  faithful (init_state p σ)
    (MkFuzzable p None (profile_dict (length (cells σ)) (chars_of p))).
Proof.
  intros Hp. split_and!; [done|done|]. exists (length (cells σ)).
  split; [done|]. intros i c Hi. cbn [path].
  exists (length (positions (tally c 0 (chars_of p) (Entry 0 [])))).
  rewrite truncate_all. by apply init_state_new_cell.
Qed.

Lemma reachable_faithful (σ : state) :
  reachable σ → ∀ r o, objs σ !! r = Some o → faithful σ o.
Proof.
  induction 1 as [|p σ r σ' Hreach IH Hrun|p σ e σ' Hreach IH Hrun
                  |fuzz1 fuzz2 σ b σ' Hreach IH Hrun
                  |line σ _ IH|line σ _ IH]; intros r0 o Ho.
  - done.
  - rewrite Fuzzable_init_spec in Hrun.
    destruct (first_unknown printable (chars_of p)) eqn:E; [done|].
    injection Hrun as _ <-. fold (init_state p σ) in *.
    apply init_state_lookup in Ho as [Hold|[_ ->]].
    + apply (faithful_same_cells σ); [apply init_state_old_cell|by eapply IH].
    + apply faithful_new. by apply first_unknown_None.
  - rewrite Fuzzable_init_spec in Hrun.
    destruct (first_unknown printable (chars_of p)); [|done].
    injection Hrun as _ <-.
    apply (faithful_same_cells σ); [|by eapply IH].
    intros y e' Hy. cbn. by apply lookup_app_l_Some.
  - destruct (compare_dicts_Ok _ _ _ _ _ Hrun) as (f1 & f2 & H1 & H2).
    rewrite (compare_dicts_spec _ _ f1 f2) in Hrun
      by (done || by apply reachable_wf).
    assert (∀ o0, faithful σ o0 → faithful σ' o0) as Hkeep.
    { intros o0. apply faithful_cells. intros y e Hy.
      by apply (compare_outcome_truncates _ _ _ _ _ _ _ _ Hrun). }
    apply compare_outcome_inv in Hrun
      as (_ & _ & _ & [[_ Hobjs]|(_ & _ & _ & _ & Hobjs)]);
      rewrite Hobjs in Ho.
    + apply Hkeep. by eapply IH.
    + apply list_lookup_insert_Some in Ho as [(-> & <- & _)|[_ Ho]].
      * apply Hkeep. destruct (IH _ _ H1) as (Hover & _ & Hbase).
        split_and!; [done| |done]. intros sh [= <-]. apply sublist_filter.
      * apply Hkeep. by eapply IH.
  - by apply (faithful_same_cells σ); [|eapply IH].
  - by apply (faithful_same_cells σ); [|eapply IH].
Qed.

Lemma store_aa_a_compared_reachable : reachable store_aa_a_compared.
Proof.
  apply (reach_compare 0 1 store_aa_a true); [|by vm_compute].
  apply (reach_init "a" (init_state "aa" empty_state) 1); [|by vm_compute].
  apply (reach_init "aa" empty_state 0); [|by vm_compute].
  apply reach_empty.
Qed.

(** ** What a scan leaves untouched *)

Lemma extends_refl (σ : state) : extends σ σ.
Proof. by split. Qed.

Lemma extends_trans (σ1 σ2 σ3 : state) :
  extends σ1 σ2 → extends σ2 σ3 → extends σ1 σ3.
Proof. intros [Ho1 Hc1] [Ho2 Hc2]. split; eauto. Qed.

Lemma extends_init_state (p : string) (σ : state) :
  extends σ (init_state p σ).
Proof. split; [apply init_state_old|apply init_state_old_cell]. Qed.

Lemma extends_grow (block : list entry) (σ : state) :
  extends σ (set_cells (λ cs, cs ++ block) σ).
Proof. split; [done|]. intros y e Hy. cbn. by apply lookup_app_l_Some. Qed.

Lemma collect_indexes_state (ks : list ascii) (sh : dict) (acc : list nat)
    (σ : state) :
  final_state (collect_indexes ks sh acc σ) = σ.
Proof.
  revert acc. induction ks as [|k ks IH]; intros acc; [done|].
  cbn [collect_indexes]. unfold subscript.
  destruct (dict_get sh k) as [y|]; [|done].
  rewrite run_bind. cbn [ret]. rewrite run_bind. unfold read_cell.
  destruct (cells σ !! y); [apply IH|done].
Qed.

Lemma colorize_state (colored : ascii → string → string)
    (Path_parent Path_absolute : string → string) (fuzzable : nat)
    (color : string) (σ : state) :
  final_state (colorize colored Path_parent Path_absolute fuzzable color σ)
  = σ.
Proof.
  unfold colorize. rewrite run_bind. unfold read_obj.
  destruct (objs σ !! fuzzable) as [f|]; [|done].
  destruct (shared f) as [sh|]; [|done]. rewrite run_bind.
  pose proof (collect_indexes_state (keys sh) sh [] σ) as Hst.
  by destruct (collect_indexes (keys sh) sh [] σ).
Qed.

Lemma compare_outcome_returns (fuzz1 : nat) (f1 f2 : Fuzzable) (σ : state) :
  ∃ b σ', compare_outcome fuzz1 f1 f2 σ = Ok b σ'.
Proof.
  unfold compare_outcome.
  destruct (negb _); [by eexists _, _|].
  destruct (restrict _ _ _ _).1; by eexists _, _.
Qed.

(** Comparing an object fresh from the constructor with any reference
    leaves what existed before the constructor ran as it was. *)
Lemma compare_fresh_extends (cand : string) (fq : nat) (σ : state) :
  store_wf σ →
  extends σ
    (final_state (compare_dicts (length (objs σ)) fq (init_state cand σ))) ∧
  ∀ b σ2,
    compare_dicts (length (objs σ)) fq (init_state cand σ) = Ok b σ2 →
    store_wf σ2.
Proof.
  intros Hwf. pose proof (init_state_wf cand σ Hwf) as Hwf1.
  pose proof (init_state_new cand σ) as Hnew.
  destruct (objs (init_state cand σ) !! fq) as [f2|] eqn:Hfq.
  - rewrite (compare_dicts_spec _ _ _ _ _ Hwf1 Hnew Hfq).
    destruct (compare_outcome_returns (length (objs σ))
                (MkFuzzable cand None
                   (profile_dict (length (cells σ)) (chars_of cand)))
                f2 (init_state cand σ)) as (b & σ2 & Hrun).
    rewrite Hrun. cbn [final_state]. split.
    + split.
      * intros r o Hr.
        destruct (compare_outcome_objs _ _ _ _ _ _ r o Hnew Hrun
                    (init_state_old _ _ _ _ Hr)) as (o' & Ho' & _ & _ & Hsame).
        rewrite Ho', Hsame; [done|].
        apply lookup_lt_Some in Hr. lia.
      * intros y e Hy.
        rewrite (compare_outcome_frame _ _ _ _ _ _ y
                   (wf_profiles _ Hwf1 _ _ Hnew) Hrun).
        -- by apply init_state_old_cell.
        -- cbn [non_zero]. intros Hin.
           destruct (profile_dict_wf (length (cells σ)) (chars_of cand))
             as (_ & _ & Hrange).
           apply Hrange in Hin. apply lookup_lt_Some in Hy. lia.
    + intros b' σ2' [= <- <-].
      apply (compare_outcome_wf _ _ _ _ _ _ Hwf1 Hnew Hrun).
  - assert (compare_dicts (length (objs σ)) fq (init_state cand σ) =
            Raise Dangling (init_state cand σ)) as ->.
    { unfold compare_dicts. rewrite run_bind, (read_obj_ok _ _ _ Hnew).
      rewrite run_bind. unfold read_obj. by rewrite Hfq. }
    split; [apply extends_init_state|done].
Qed.

Lemma extends_set_stdout (f : list string → list string) (σ σ' : state) :
  extends (set_stdout f σ) σ' → extends σ σ'.
Proof. done. Qed.

Section Scan_frame.
Variable colored : ascii → string → string.
Variable Path_parent : string → string.
Variable Path_absolute : string → string.

Lemma scan_extends (p : PathArg) (fq : nat) (color : string)
    (files : list DirEntry) (σ : state) :
  store_wf σ →
  extends σ
    (final_state (scan colored Path_parent Path_absolute p fq color files σ)).
Proof.
  revert σ. induction files as [|file files IH]; intros σ Hwf.
  { apply extends_refl. }
  cbn [scan]. rewrite run_bind, Fuzzable_init_spec.
  destruct (first_unknown printable
              (chars_of (os_path_join (path_absolute p) (entry_name file)))).
  { apply extends_grow. }
  fold (init_state (os_path_join (path_absolute p) (entry_name file)) σ).
  rewrite run_bind.
  destruct (compare_fresh_extends
              (os_path_join (path_absolute p) (entry_name file)) fq σ Hwf)
    as [Hext Hwf2].
  destruct (compare_dicts _ _ _) as [b σ2|e σ2]; [|done].
  cbn [final_state] in Hext. specialize (Hwf2 b σ2 eq_refl).
  rewrite run_bind. destruct b.
  - rewrite run_bind.
    pose proof (colorize_state colored Path_parent Path_absolute
                  (length (objs σ)) color σ2) as Hcol.
    destruct (colorize _ _ _ _ _ σ2) as [line σ3|e σ3];
      cbn [final_state] in Hcol; subst σ3; [|done].
    cbn [print]. apply (extends_trans _ σ2); [done|].
    apply extends_set_stdout with (f := λ out, out ++ [line]).
    apply IH. by apply store_wf_set_stdout.
  - cbn [ret]. apply (extends_trans _ σ2); [done|]. by apply IH.
Qed.
End Scan_frame.

(** ** Comparing a second time *)

Lemma count_truncate (n : nat) (e : entry) : count (truncate n e) = count e.
Proof. done. Qed.

Lemma restrict_idempotent (common nzq : dict) (ks : list ascii)
    (cs : list entry) :
  restrict common nzq ks (restrict common nzq ks cs).2 =
  restrict common nzq ks cs.
Proof.
  revert cs. induction ks as [|k ks IH]; intros cs; [done|].
  restrict_round common nzq k cs; cbn [snd restrict];
    rewrite ?Hy1, ?Hy2, ?He1, ?He2, ?Hle; try done.
  set (cs1 := <[y1 := truncate (count e2) e1]> cs).
  assert (cs1 !! y1 = Some (truncate (count e2) e1)) as H1.
  { apply list_lookup_insert_eq. by eapply lookup_lt_Some. }
  assert (∃ e2', cs1 !! y2 = Some e2' ∧ count e2' = count e2)
    as (e2' & H2 & Hc2).
  { destruct (decide (y1 = y2)) as [<-|Hne].
    - exists (truncate (count e2) e1). split; [done|]. cbn. congruence.
    - exists e2. subst cs1. by rewrite list_lookup_insert_ne. }
  destruct (restrict_truncates common nzq ks cs1 y1 _ H1) as [n Hn].
  destruct (restrict_truncates common nzq ks cs1 y2 _ H2) as [m Hm].
  rewrite Hn, Hm, !count_truncate, Hc2, Hle.
  rewrite list_insert_id; [apply IH|].
  rewrite Hn, !truncate_truncate. do 2 f_equal. lia.
Qed.

Lemma compare_outcome_idempotent (fuzz1 : nat) (f1 f2 f1' f2' : Fuzzable)
    (σ σ' : state) (b : bool) :
  compare_outcome fuzz1 f1 f2 σ = Ok b σ' →
  non_zero f1' = non_zero f1 → path f1' = path f1 →
  non_zero f2' = non_zero f2 →
  compare_outcome fuzz1 f1' f2' σ' = Ok b σ'.
Proof.
  unfold compare_outcome, common_of. intros Hrun -> -> ->. revert Hrun.
  destruct (negb _); [by intros [= <- <-]|].
  cbn zeta.
  set (common := filter _ (non_zero f1)).
  pose proof (restrict_idempotent common (non_zero f2) (keys common) (cells σ))
    as Hidem.
  destruct (restrict common (non_zero f2) (keys common) (cells σ))
    as [[v|] cs'] eqn:Hr; cbn [fst snd] in *; intros [= <- <-];
    unfold set_objs, set_cells; cbn [cells objs stdout stderr];
    rewrite Hidem; cbn [fst snd]; [done|].
  by rewrite list_insert_insert_eq.
Qed.

(** * The claims *)

(** The theorems below are stated over [store_wf] stores; by [reachable_wf]
    these include every store the program reaches. *)

(** C1. For every candidate profile and every query profile of a store,
    [compare_dicts] returns, and it returns [True] exactly when every
    character present in the query is present in the candidate with a
    count at least the query's; when some query character is absent from
    the candidate or has a smaller count there, it returns [False]. *)
Theorem compare_dicts_containment (fuzz1 fuzz2 : nat) (f1 f2 : Fuzzable)
    (σ : state) :
  store_wf σ → objs σ !! fuzz1 = Some f1 → objs σ !! fuzz2 = Some f2 →
  ∃ b σ',
    compare_dicts fuzz1 fuzz2 σ = Ok b σ' ∧
    (b = true ↔ contains (cells σ) (non_zero f1) (non_zero f2)) ∧
    ((∃ c n, count_at (cells σ) (non_zero f2) c = Some n ∧
             ∀ m, count_at (cells σ) (non_zero f1) c = Some m → m < n) →
     b = false).
Proof.
  intros Hwf H1 H2. rewrite (compare_dicts_spec _ _ f1 f2) by done.
  destruct (compare_outcome_verdict fuzz1 f1 f2 σ) as (b & σ' & Hrun & Hiff).
  { by eapply wf_profiles. }
  { by eapply wf_profiles. }
  exists b, σ'. split_and!; [done|done|].
  intros (c & n & Hn & Hsmall). destruct b; [|done].
  destruct (proj1 Hiff eq_refl c n Hn) as (m & Hm & Hle).
  specialize (Hsmall m Hm). lia.
Qed.

Lemma compare_dicts_containment_witness :
  ∃ b σ',
    compare_dicts 0 1 store_aabbb_ab = Ok b σ' ∧
    (b = true ↔
     contains (cells store_aabbb_ab)
       [("a"%char, 10); ("b"%char, 11)] [("a"%char, 110); ("b"%char, 111)]) ∧
    ((∃ c n, count_at (cells store_aabbb_ab)
               [("a"%char, 110); ("b"%char, 111)] c = Some n ∧
             ∀ m, count_at (cells store_aabbb_ab)
                    [("a"%char, 10); ("b"%char, 11)] c = Some m → m < n) →
     b = false).
Proof.
  apply (compare_dicts_containment 0 1
           (MkFuzzable "aabbb" None [("a"%char, 10); ("b"%char, 11)])
           (MkFuzzable "ab" None [("a"%char, 110); ("b"%char, 111)])
           store_aabbb_ab).
  - exact store_aabbb_ab_wf.
  - reflexivity.
  - reflexivity.
Defined.

(** C2. Whenever the comparison returns [True], the [shared] dictionary it
    assigns to the candidate has the keys of the query, and maps each
    character of the query to the cell of the candidate, whose position list
    is now the first [query.count[c]] positions the candidate held for that
    character, in their order. *)
Theorem compare_dicts_shared (fuzz1 fuzz2 : nat) (f1 f2 : Fuzzable)
    (σ σ' : state) :
  store_wf σ → objs σ !! fuzz1 = Some f1 → objs σ !! fuzz2 = Some f2 →
  compare_dicts fuzz1 fuzz2 σ = Ok true σ' →
  ∃ sh,
    shared <$> objs σ' !! fuzz1 = Some (Some sh) ∧
    (∀ c, c ∈ keys sh ↔ c ∈ keys (non_zero f2)) ∧
    ∀ c n, count_at (cells σ) (non_zero f2) c = Some n →
      ∃ ps, positions_at (cells σ) (non_zero f1) c = Some ps ∧
            dict_get sh c = dict_get (non_zero f1) c ∧
            positions_at (cells σ') sh c = Some (take n ps).
Proof.
  intros Hwf H1 H2. rewrite (compare_dicts_spec _ _ f1 f2) by done.
  intros Hrun.
  destruct (compare_outcome_positions fuzz1 f1 f2 σ σ') as (Hobj & Hkeys & Hpos);
    [by eapply wf_profiles|by eapply wf_profiles|done|done|].
  exists (common_of f1 f2). split_and!; [by rewrite Hobj|done|].
  intros c n Hn. destruct (Hpos c n Hn) as (y & e & Hy1 & Hyc & He & He').
  exists (positions e). unfold positions_at. rewrite Hyc, Hy1. cbn.
  by rewrite He, He'.
Qed.

Lemma compare_dicts_shared_witness :
  ∃ sh,
    shared <$> objs store_aabbb_ab_compared !! 0 = Some (Some sh) ∧
    (∀ c, c ∈ keys sh ↔ c ∈ keys [("a"%char, 110); ("b"%char, 111)]) ∧
    ∀ c n, count_at (cells store_aabbb_ab)
             [("a"%char, 110); ("b"%char, 111)] c = Some n →
      ∃ ps, positions_at (cells store_aabbb_ab)
              [("a"%char, 10); ("b"%char, 11)] c = Some ps ∧
            dict_get sh c = dict_get [("a"%char, 10); ("b"%char, 11)] c ∧
            positions_at (cells store_aabbb_ab_compared) sh c =
            Some (take n ps).
Proof.
  apply (compare_dicts_shared 0 1
           (MkFuzzable "aabbb" None [("a"%char, 10); ("b"%char, 11)])
           (MkFuzzable "ab" None [("a"%char, 110); ("b"%char, 111)])
           store_aabbb_ab store_aabbb_ab_compared).
  - exact store_aabbb_ab_wf.
  - reflexivity.
  - reflexivity.
  - vm_compute. reflexivity.
Defined.

(** The example of the specification: of the candidate aabbb, the query ab
    marks the first a and the first b. *)
Example shared_aabbb_ab :
  positions_at (cells store_aabbb_ab_compared)
    [("a"%char, 10); ("b"%char, 11)] "a" = Some [0] ∧
  positions_at (cells store_aabbb_ab_compared)
    [("a"%char, 10); ("b"%char, 11)] "b" = Some [2].
Proof. split; reflexivity. Qed.

(** C3, as stated, fails.  [Fuzzable] of aa and [Fuzzable] of a, built in
    the empty store, both have the invariant; after the first has been
    compared with the second it holds the count 2 with the one position 0
    for the character a. *)
Lemma restriction_breaks_invariant :
  two_profiles "aa" "a" empty_state = Ok 1 store_aa_a ∧
  (∀ r o, objs store_aa_a !! r = Some o →
          profile_inv entry_exact (cells store_aa_a) o) ∧
  compare_dicts 0 1 store_aa_a = Ok true store_aa_a_compared ∧
  ∃ o, objs store_aa_a_compared !! 0 = Some o ∧
       (("a"%char, 10) ∈ non_zero o) ∧
       cells store_aa_a_compared !! 10 = Some (Entry 2 [0]) ∧
       ¬ profile_inv entry_exact (cells store_aa_a_compared) o.
Proof.
  split_and!.
  - vm_compute. reflexivity.
  - apply store_aa_a_exact.
  - vm_compute. reflexivity.
  - eexists. split_and!; [reflexivity|left|reflexivity|].
    intros Hinv. destruct (Hinv "a"%char 10) as (e & He & Hlen & _); [left|].
    injection He as <-. cbn in Hlen. lia.
Qed.

(** C3, amended.  The constructor builds a profile in which every retained
    character has a strictly increasing position list as long as its
    count, and leaves the profiles built before as they are.  A comparison
    never changes a count or a dictionary; it replaces position lists by
    prefixes of themselves.  So the lists stay strictly increasing, and
    afterwards a list is at most as long as the count. *)
Theorem profile_invariant :
  (∀ p σ, over_alphabet p →
     ∃ r o σ',
       Fuzzable_init p σ = Ok r σ' ∧ objs σ' !! r = Some o ∧
       profile_inv entry_exact (cells σ') o ∧
       ∀ I r0 o0, objs σ !! r0 = Some o0 → profile_inv I (cells σ) o0 →
                  objs σ' !! r0 = Some o0 ∧ profile_inv I (cells σ') o0) ∧
  (∀ fuzz1 fuzz2 σ b σ',
     store_wf σ → compare_dicts fuzz1 fuzz2 σ = Ok b σ' →
     ∀ r o, objs σ !! r = Some o → profile_inv entry_sound (cells σ) o →
       ∃ o', objs σ' !! r = Some o' ∧ non_zero o' = non_zero o ∧
             profile_inv entry_sound (cells σ') o' ∧
             (∀ c, count_at (cells σ') (non_zero o') c =
                   count_at (cells σ) (non_zero o) c) ∧
             ∀ c y e, (c, y) ∈ non_zero o → cells σ !! y = Some e →
               ∃ n, cells σ' !! y =
                    Some (Entry (count e) (take n (positions e)))).
Proof.
  split.
  - intros p σ Hall. eexists _, _, _.
    split_and!; [by apply Fuzzable_init_ok|apply init_state_new
                |apply init_state_new_inv|].
    intros I r0 o0 Ho Hinv.
    split; [by apply init_state_old | by apply init_state_old_inv].
  - intros fuzz1 fuzz2 σ b σ' Hwf Hrun r o Ho Hinv.
    destruct (compare_dicts_Ok _ _ _ _ _ Hrun) as (f1 & f2 & H1 & H2).
    rewrite (compare_dicts_spec _ _ f1 f2) in Hrun by done.
    destruct (compare_outcome_objs _ _ _ _ _ _ _ _ H1 Hrun Ho)
      as (o' & Ho' & Hnz & _).
    exists o'. rewrite Hnz. split_and!; [done|done| | |]; cycle 2.
    { intros c y e _ He.
      by apply (compare_outcome_truncates _ _ _ _ _ _ _ _ Hrun). }
    + intros c y Hin. rewrite Hnz in Hin.
      destruct (Hinv c y Hin) as (e & He & Hsound).
      destruct (compare_outcome_truncates _ _ _ _ _ _ _ _ Hrun He) as [n Hn].
      exists (truncate n e). split; [done | by apply truncate_sound].
    + intros c. unfold count_at. destruct (dict_get (non_zero o) c) as [y|];
        [|done]. cbn.
      destruct (cells σ !! y) as [e|] eqn:He.
      * destruct (compare_outcome_truncates _ _ _ _ _ _ _ _ Hrun He) as [n Hn].
        by rewrite Hn.
      * apply lookup_ge_None in He.
        rewrite <-(compare_outcome_length _ _ _ _ _ _ Hrun) in He.
        apply lookup_ge_None in He. by rewrite He.
Qed.

Lemma profile_invariant_witness :
  (∃ r o σ',
     Fuzzable_init "aabbb" empty_state = Ok r σ' ∧ objs σ' !! r = Some o ∧
     profile_inv entry_exact (cells σ') o ∧
     ∀ I r0 o0, objs empty_state !! r0 = Some o0 →
                profile_inv I (cells empty_state) o0 →
                objs σ' !! r0 = Some o0 ∧ profile_inv I (cells σ') o0) ∧
  (∃ o', objs store_aa_a_compared !! 0 = Some o' ∧
         non_zero o' = [("a"%char, 10)] ∧
         profile_inv entry_sound (cells store_aa_a_compared) o' ∧
         (∀ c, count_at (cells store_aa_a_compared) (non_zero o') c =
               count_at (cells store_aa_a) [("a"%char, 10)] c) ∧
         ∀ c y e, (c, y) ∈ [("a"%char, 10)] → cells store_aa_a !! y = Some e →
           ∃ n, cells store_aa_a_compared !! y =
                Some (Entry (count e) (take n (positions e)))).
Proof.
  split.
  - apply (proj1 profile_invariant "aabbb" empty_state).
    unfold over_alphabet. apply (bool_decide_unpack _). vm_compute. reflexivity.
  - apply (proj2 profile_invariant 0 1 store_aa_a true store_aa_a_compared
             store_aa_a_wf)
      with (o := MkFuzzable "aa" None [("a"%char, 10)]).
    + vm_compute. reflexivity.
    + reflexivity.
    + apply entry_exact_sound_profile, (store_aa_a_exact 0). reflexivity.
Defined.

(** C4. Compared with the profile of the empty query, every candidate is a
    match and receives an empty [shared] dictionary, and no cell changes.
    [main], given the empty query and an existing directory, prints the path
    of every entry in the order of the listing and exits with status 0; it
    builds no profile and runs no comparison. *)
Theorem empty_query :
  (∀ σ fuzz1 f1, objs σ !! fuzz1 = Some f1 →
     ∃ fq σ1 σ2,
       Fuzzable_init EmptyString σ = Ok fq σ1 ∧
       non_zero <$> objs σ1 !! fq = Some [] ∧
       compare_dicts fuzz1 fq σ1 = Ok true σ2 ∧
       objs σ2 !! fuzz1 = Some (MkFuzzable (path f1) (Some []) (non_zero f1)) ∧
       cells σ2 = cells σ1) ∧
  (∀ colored Path_parent Path_absolute p color σ,
     path_exists p && path_is_dir p = true →
     main colored Path_parent Path_absolute p EmptyString color σ =
     Raise (SystemExit 0)
       (MkState (cells σ) (objs σ)
          (stdout σ ++ (entry_path <$> dir_entries p)) (stderr σ))).
Proof.
  split.
  - intros σ fuzz1 f1 H1. eexists _, _, _. split_and!.
    + apply Fuzzable_init_ok. constructor.
    + rewrite init_state_new. cbn. by rewrite profile_dict_nil.
    + unfold compare_dicts.
      rewrite run_bind, (read_obj_ok _ f1) by (by apply init_state_old).
      rewrite run_bind, (read_obj_ok _ _ _ (init_state_new _ _)).
      cbn [non_zero chars_of list_ascii_of_string].
      rewrite profile_dict_nil, shave_nil. cbn [length Nat.eqb negb keys fmap
        list_fmap check_sizes].
      rewrite run_bind. cbn [ret].
      rewrite run_bind, (read_obj_ok _ f1) by (by apply init_state_old).
      rewrite run_bind. reflexivity.
    + cbn. apply list_lookup_insert_eq.
      rewrite length_app. apply lookup_lt_Some in H1. lia.
    + done.
  - intros. by apply main_empty_query.
Qed.

Lemma empty_query_witness :
  (∃ fq σ1 σ2,
     Fuzzable_init EmptyString store_a = Ok fq σ1 ∧
     non_zero <$> objs σ1 !! fq = Some [] ∧
     compare_dicts 0 fq σ1 = Ok true σ2 ∧
     objs σ2 !! 0 = Some (MkFuzzable "a" (Some []) [("a"%char, 10)]) ∧
     cells σ2 = cells σ1) ∧
  main (λ c _, String c EmptyString) id id
    (MkPathArg "d" true true "/d"
       [MkDirEntry "apple.txt" "d/apple.txt";
        MkDirEntry "banana.txt" "d/banana.txt"])
    EmptyString "red" empty_state =
  Raise (SystemExit 0)
    (MkState [] [] ["d/apple.txt"; "d/banana.txt"]%string []).
Proof.
  split.
  - apply (proj1 empty_query store_a 0 (MkFuzzable "a" None [("a"%char, 10)])).
    reflexivity.
  - apply (proj2 empty_query (λ c _, String c EmptyString) id id
             (MkPathArg "d" true true "/d"
                [MkDirEntry "apple.txt" "d/apple.txt";
                 MkDirEntry "banana.txt" "d/banana.txt"])
             "red"%string empty_state).
    reflexivity.
Defined.

(** C5 at the failing input.  Both checks on the path pass, and the scan
    is aborted all the same: the first entry has a character outside
    [printable], the constructor raises [KeyError], nothing in [main]
    catches it, and the entry a.txt, which matches the query when it is
    alone in the directory, is never reported.  [main_KeyError] is the
    general form; [main_invalid_path] is what [main] does when a check on
    the path fails. *)
Example scan_aborted_by_KeyError :
  (∃ σ', run_main [entry_latin1; entry_a] =
         Raise (KeyError (ascii_of_nat 233)) σ' ∧
         stdout σ' = [] ∧ stderr σ' = []) ∧
  (∃ σ', run_main [entry_a] = Ok tt σ' ∧ stdout σ' = ["/d/<a>.txt"%string]).
Proof. split; eexists; vm_compute; split_and!; reflexivity. Qed.

(** C6. The constructor returns exactly on the strings made of characters
    of [printable]; on any other string it raises [KeyError] for a
    character of the string that is outside [printable]. *)
Theorem Fuzzable_init_lookup_failure (p : string) (σ : state) :
  ((∃ r σ', Fuzzable_init p σ = Ok r σ') ↔
   Forall (λ c, c ∈ printable) (chars_of p)) ∧
  ((∃ c σ', c ∈ chars_of p ∧ (c ∉ printable) ∧
            Fuzzable_init p σ = Raise (KeyError c) σ') ↔
   Exists (λ c, c ∉ printable) (chars_of p)).
Proof.
  rewrite Fuzzable_init_spec.
  destruct (first_unknown printable (chars_of p)) as [c|] eqn:Hfirst.
  - destruct (first_unknown_Some _ _ _ Hfirst) as [Hin Hout].
    split; split.
    + by intros (? & ? & ?).
    + intros Hall%first_unknown_None. congruence.
    + intros _. apply Exists_exists. eauto.
    + intros _. eauto.
  - pose proof (proj1 (first_unknown_None _ _) Hfirst) as Hall.
    split; split.
    + done.
    + eauto.
    + by intros (? & ? & _ & _ & ?).
    + intros (c & Hin & Hout)%Exists_exists.
      rewrite Forall_forall in Hall. destruct Hout. by apply Hall.
Qed.

(** A string with a character outside the alphabet: the byte 233. *)
Example Fuzzable_init_latin1 :
  ∃ σ', Fuzzable_init (String (ascii_of_nat 233) ".txt") empty_state =
        Raise (KeyError (ascii_of_nat 233)) σ'.
Proof. eexists. vm_compute. reflexivity. Qed.

(** C7 at the failing input.  The same two entries in the two possible
    orders: the match a.txt is reported in one run and not in the other,
    because the [KeyError] of the other entry ends the scan.  On listings
    of names over the alphabet the reports are those of [main_reports], and
    they do not depend on the order ([main_order_independent]). *)
Example report_depends_on_order :
  stdout (final_state (run_main [entry_a; entry_latin1])) =
    ["/d/<a>.txt"%string] ∧
  stdout (final_state (run_main [entry_latin1; entry_a])) = [] ∧
  (∃ σ', run_main [entry_a; entry_latin1] =
         Raise (KeyError (ascii_of_nat 233)) σ') ∧
  (∃ σ', run_main [entry_latin1; entry_a] =
         Raise (KeyError (ascii_of_nat 233)) σ').
Proof.
  split_and!; [vm_compute; reflexivity | vm_compute; reflexivity | |];
    eexists; vm_compute; reflexivity.
Qed.

(** C8. For every string [s] over the alphabet (the empty one included),
    two profiles built from [s] compare as a match, and so does one
    profile of [s] compared with itself. *)
Theorem compare_dicts_reflexive (s : string) (σ : state) :
  store_wf σ → over_alphabet s →
  (∃ σ', (f1 ← Fuzzable_init s; f2 ← Fuzzable_init s; compare_dicts f1 f2) σ
         = Ok true σ') ∧
  (∃ σ', (f ← Fuzzable_init s; compare_dicts f f) σ = Ok true σ').
Proof.
  intros Hwf Hall. split.
  - rewrite run_bind, Fuzzable_init_ok by done.
    rewrite run_bind, Fuzzable_init_ok by done.
    pose proof (init_state_wf s _ (init_state_wf s σ Hwf)) as Hwf2.
    pose proof (init_state_old s _ _ _ (init_state_new s σ)) as H1.
    pose proof (init_state_new s (init_state s σ)) as H2.
    rewrite (compare_dicts_spec _ _ _ _ _ Hwf2 H1 H2).
    edestruct (compare_outcome_verdict (length (objs σ))) as (b & σ' & -> & Hb).
    { by eapply wf_profiles. }
    { by eapply wf_profiles. }
    exists σ'. f_equal. apply Hb. apply contains_same_string.
    + apply init_state_counts_old, init_state_counts_new.
    + apply init_state_counts_new.
  - rewrite run_bind, Fuzzable_init_ok by done.
    pose proof (init_state_wf s σ Hwf) as Hwf1.
    pose proof (init_state_new s σ) as H1.
    rewrite (compare_dicts_spec _ _ _ _ _ Hwf1 H1 H1).
    edestruct (compare_outcome_verdict (length (objs σ))) as (b & σ' & -> & Hb).
    { by eapply wf_profiles. }
    { by eapply wf_profiles. }
    exists σ'. f_equal. apply Hb. intros c n Hn. eauto.
Qed.

Lemma compare_dicts_reflexive_witness :
  (∃ σ', (f1 ← Fuzzable_init "aabbb"; f2 ← Fuzzable_init "aabbb";
          compare_dicts f1 f2) empty_state = Ok true σ') ∧
  (∃ σ', (f ← Fuzzable_init "aabbb"; compare_dicts f f) empty_state
         = Ok true σ').
Proof.
  apply (compare_dicts_reflexive "aabbb" empty_state).
  - exact empty_state_wf.
  - unfold over_alphabet. apply (bool_decide_unpack _). vm_compute. reflexivity.
Defined.

(** C9. For every string [s] over the alphabet the constructor returns a
    profile, and the counts of its retained characters add up to the
    length of [s]. *)
Theorem profile_counts_sum (s : string) (σ : state) :
  over_alphabet s →
  ∃ r o σ',
    Fuzzable_init s σ = Ok r σ' ∧ objs σ' !! r = Some o ∧ path o = s ∧
    total_count (cells σ') (non_zero o) = String.length s.
Proof.
  intros Hall. eexists _, _, _.
  split_and!; [by apply Fuzzable_init_ok|apply init_state_new|done|].
  by apply init_state_total.
Qed.

Lemma profile_counts_sum_witness :
  ∃ r o σ',
    Fuzzable_init "aabbb" empty_state = Ok r σ' ∧ objs σ' !! r = Some o ∧
    path o = "aabbb"%string ∧ total_count (cells σ') (non_zero o) = 5.
Proof.
  apply (profile_counts_sum "aabbb" empty_state).
  unfold over_alphabet. apply (bool_decide_unpack _). vm_compute. reflexivity.
Defined.

(** C10, as stated, fails when one object is passed as candidate and as
    query: the comparison of [Fuzzable] of a with itself assigns [shared]
    on it. *)
Lemma compare_dicts_self_assigns_shared :
  Fuzzable_init "a" empty_state = Ok 0 store_a ∧
  shared <$> objs store_a !! 0 = Some None ∧
  compare_dicts 0 0 store_a = Ok true store_a_compared ∧
  shared <$> objs store_a_compared !! 0 = Some (Some [("a"%char, 10)]).
Proof.
  split_and!; [vm_compute; reflexivity | reflexivity
              | vm_compute; reflexivity | reflexivity].
Qed.

(** C10, amended.  When candidate and query are different objects, the
    comparison leaves the query as it is, whatever it returns: the object
    keeps its [non_zero] dictionary and its unset or set [shared] field,
    and every cell of the query keeps its count and its position list. *)
Theorem compare_dicts_query_untouched (fuzz1 fuzz2 : nat) (f2 : Fuzzable)
    (σ σ' : state) (b : bool) :
  store_wf σ → fuzz1 ≠ fuzz2 → objs σ !! fuzz2 = Some f2 →
  compare_dicts fuzz1 fuzz2 σ = Ok b σ' →
  objs σ' !! fuzz2 = Some f2 ∧
  ∀ c y, (c, y) ∈ non_zero f2 → cells σ' !! y = cells σ !! y.
Proof.
  intros Hwf Hne H2 Hrun.
  destruct (compare_dicts_Ok _ _ _ _ _ Hrun) as (f1 & f2' & H1 & H2').
  assert (f2' = f2) as -> by congruence.
  rewrite (compare_dicts_spec _ _ f1 f2) in Hrun by done. split.
  - destruct (compare_outcome_objs _ _ _ _ _ _ _ _ H1 Hrun H2)
      as (o' & Ho' & _ & _ & Hsame).
    rewrite Ho'. f_equal. apply Hsame. congruence.
  - intros c y Hin.
    apply (compare_outcome_frame _ _ _ _ _ _ _ (wf_profiles _ Hwf _ _ H1) Hrun).
    intros Hy. eapply (wf_separate _ Hwf fuzz1 fuzz2); try done.
    unfold values. apply list_elem_of_fmap. by exists (c, y).
Qed.

Lemma compare_dicts_query_untouched_witness :
  objs store_aabbb_ab_compared !! 1 =
  Some (MkFuzzable "ab" None [("a"%char, 110); ("b"%char, 111)]) ∧
  ∀ c y, (c, y) ∈ [("a"%char, 110); ("b"%char, 111)] →
         cells store_aabbb_ab_compared !! y = cells store_aabbb_ab !! y.
Proof.
  apply (compare_dicts_query_untouched 0 1
           (MkFuzzable "ab" None [("a"%char, 110); ("b"%char, 111)])
           store_aabbb_ab store_aabbb_ab_compared true).
  - exact store_aabbb_ab_wf.
  - lia.
  - reflexivity.
  - vm_compute. reflexivity.
Defined.


(** * Further properties of the code *)

Ltac over_alphabet_by_computation :=
  unfold over_alphabet; apply (bool_decide_unpack _); vm_compute; reflexivity.

(** ** The constructor *)

(** X1. For a string over the alphabet the constructor returns a new object
    that keeps the string, has no [shared] field, and whose [non_zero]
    dictionary has as keys exactly the characters of the string, in the
    order of [printable]; the cell of each holds the number of its
    occurrences and the increasing list of exactly the indexes at which it
    stands in the string. *)
Theorem Fuzzable_init_records (s : string) (σ : state) :
  over_alphabet s →
  ∃ r o σ',
    Fuzzable_init s σ = Ok r σ' ∧ objs σ' !! r = Some o ∧
    path o = s ∧ shared o = None ∧
    keys (non_zero o) = filter (λ c, c ∈ chars_of s) printable ∧
    ∀ c, c ∈ chars_of s →
      ∃ ps, count_at (cells σ') (non_zero o) c = Some (length ps) ∧
            positions_at (cells σ') (non_zero o) c = Some ps ∧
            StronglySorted lt ps ∧
            ∀ i, i ∈ ps ↔ chars_of s !! i = Some c.
Proof.
  intros Hs. eexists _, _, _.
  split_and!; [by apply Fuzzable_init_ok|apply init_state_new|done|done| |].
  - cbn [non_zero]. rewrite keys_profile_dict. apply filter_ext_in.
    intros c _. rewrite occ_count_of. apply count_of_pos.
  - intros c Hc. destruct (profile_lookup s σ c Hs Hc) as (y & Hy & Hcell).
    exists (occurrences c 0 (chars_of s)). cbn [non_zero].
    unfold count_at, positions_at. rewrite Hy. cbn -[init_state].
    rewrite Hcell. cbn.
    split_and!; [done|done|apply occurrences_sorted|].
    intros i. rewrite occurrences_spec. split.
    + by intros (j & -> & Hj).
    + intros Hi. by exists i.
Qed.

Lemma Fuzzable_init_records_witness :
  ∃ r o σ',
    Fuzzable_init "aabbb" empty_state = Ok r σ' ∧ objs σ' !! r = Some o ∧
    path o = "aabbb"%string ∧ shared o = None ∧
    keys (non_zero o) = filter (λ c, c ∈ chars_of "aabbb") printable ∧
    ∀ c, c ∈ chars_of "aabbb" →
      ∃ ps, count_at (cells σ') (non_zero o) c = Some (length ps) ∧
            positions_at (cells σ') (non_zero o) c = Some ps ∧
            StronglySorted lt ps ∧
            ∀ i, i ∈ ps ↔ chars_of "aabbb" !! i = Some c.
Proof.
  apply (Fuzzable_init_records "aabbb" empty_state).
  over_alphabet_by_computation.
Defined.

(** X2. The constructor never prints and never touches an object or a cell
    that exists.  When the string has a character outside [printable] it
    raises [KeyError] for the first such character and creates no object;
    otherwise the string is over the alphabet and the reference returned
    is a new one. *)
Theorem Fuzzable_init_frame (s : string) (σ : state) :
  let σ' := final_state (Fuzzable_init s σ) in
  stdout σ' = stdout σ ∧ stderr σ' = stderr σ ∧
  (∀ y e, cells σ !! y = Some e → cells σ' !! y = Some e) ∧
  (∀ r o, objs σ !! r = Some o → objs σ' !! r = Some o) ∧
  match Fuzzable_init s σ with
  | Ok r _ => over_alphabet s ∧ objs σ !! r = None ∧ is_Some (objs σ' !! r)
  | Raise e _ =>
      objs σ' = objs σ ∧
      ∃ pre c post,
        chars_of s = pre ++ c :: post ∧
        Forall (λ x, x ∈ printable) pre ∧ (c ∉ printable) ∧ e = KeyError c
  end.
Proof.
  rewrite Fuzzable_init_spec.
  destruct (first_unknown printable (chars_of s)) as [c|] eqn:E;
    cbn [final_state].
  - split_and!; try done.
    + intros y e Hy. cbn. by apply lookup_app_l_Some.
    + apply first_unknown_split in E as (pre & post & Hs & Hpre & Hc).
      by exists pre, c, post.
  - split_and!; try done.
    + intros y e Hy. cbn. by apply lookup_app_l_Some.
    + intros r o Hr. cbn. by apply lookup_app_l_Some.
    + by apply first_unknown_None.
    + by apply lookup_ge_None_2.
    + cbn. rewrite lookup_app_r, Nat.sub_diag by done. by eexists.
Qed.

Lemma Fuzzable_init_frame_witness :
  let s := String "a" (String (ascii_of_nat 233) "b") in
  let σ' := final_state (Fuzzable_init s store_a) in
  stdout σ' = stdout store_a ∧ stderr σ' = stderr store_a ∧
  (∀ y e, cells store_a !! y = Some e → cells σ' !! y = Some e) ∧
  (∀ r o, objs store_a !! r = Some o → objs σ' !! r = Some o) ∧
  match Fuzzable_init s store_a with
  | Ok r _ =>
      over_alphabet s ∧ objs store_a !! r = None ∧ is_Some (objs σ' !! r)
  | Raise e _ =>
      objs σ' = objs store_a ∧
      ∃ pre c post,
        chars_of s = pre ++ c :: post ∧
        Forall (λ x, x ∈ printable) pre ∧ (c ∉ printable) ∧ e = KeyError c
  end.
Proof.
  exact (Fuzzable_init_frame (String "a" (String (ascii_of_nat 233) "b"))
           store_a).
Defined.

(** ** The comparison *)

(** X3. [compare_dicts] neither prints nor creates objects or cells.  When
    it returns [False] every object is as before, so [shared] has not been
    assigned; and when a character of the query is missing from the
    dictionary of the candidate, it returns [False] and leaves the whole
    store as it was. *)
Theorem compare_dicts_no_match (fuzz1 fuzz2 : nat) (f1 f2 : Fuzzable)
    (σ σ' : state) (b : bool) :
  store_wf σ → objs σ !! fuzz1 = Some f1 → objs σ !! fuzz2 = Some f2 →
  compare_dicts fuzz1 fuzz2 σ = Ok b σ' →
  stdout σ' = stdout σ ∧ stderr σ' = stderr σ ∧
  length (cells σ') = length (cells σ) ∧
  length (objs σ') = length (objs σ) ∧
  (b = false → objs σ' = objs σ) ∧
  ((∃ c, c ∈ keys (non_zero f2) ∧ c ∉ keys (non_zero f1)) →
   b = false ∧ σ' = σ).
Proof.
  intros Hwf H1 H2 Hrun.
  rewrite (compare_dicts_spec _ _ f1 f2) in Hrun by done.
  pose proof (compare_outcome_length _ _ _ _ _ _ Hrun) as Hlen.
  pose proof (compare_outcome_inv _ _ _ _ _ _ Hrun) as (Hout & Herr & _ & Hobjs).
  split_and!; [done|done|done| | |].
  - destruct Hobjs as [[_ ->]|(_ & _ & _ & _ & ->)]; [done|].
    by rewrite length_insert.
  - intros ->. by destruct Hobjs as [[_ ->]|[? _]].
  - intros (c & Hin & Hmiss).
    rewrite (compare_outcome_missing_key _ _ _ _ c) in Hrun;
      [by injection Hrun as <- <-|..|done|done].
    + apply (wf_keys _ _ (wf_profiles _ Hwf _ _ H1)).
    + apply (wf_keys _ _ (wf_profiles _ Hwf _ _ H2)).
Qed.

Lemma compare_dicts_no_match_witness :
  let f1 := MkFuzzable "aab" None [("a"%char, 10); ("b"%char, 11)] in
  let f2 := MkFuzzable "abb" None [("a"%char, 110); ("b"%char, 111)] in
  stdout store_aab_abb_compared = stdout store_aab_abb ∧
  stderr store_aab_abb_compared = stderr store_aab_abb ∧
  length (cells store_aab_abb_compared) = length (cells store_aab_abb) ∧
  length (objs store_aab_abb_compared) = length (objs store_aab_abb) ∧
  (false = false → objs store_aab_abb_compared = objs store_aab_abb) ∧
  ((∃ c, c ∈ keys (non_zero f2) ∧ c ∉ keys (non_zero f1)) →
   false = false ∧ store_aab_abb_compared = store_aab_abb).
Proof.
  apply (compare_dicts_no_match 0 1 _ _ store_aab_abb store_aab_abb_compared
           false).
  - exact store_aab_abb_wf.
  - reflexivity.
  - reflexivity.
  - vm_compute. reflexivity.
Defined.

(** X4. [colorize] reads [shared], which only a successful comparison
    assigns: on an object fresh from the constructor, and on a candidate
    whose comparison with the query returned [False], it raises
    [AttributeError], and nothing has been printed. *)
Theorem colorize_needs_match (colored : ascii → string → string)
    (Path_parent Path_absolute : string → string)
    (cand query color : string) (σ : state) :
  store_wf σ → over_alphabet cand → over_alphabet query →
  (∃ σ',
     (fuzzable ← Fuzzable_init cand;
      colorize colored Path_parent Path_absolute fuzzable color) σ =
     Raise AttributeError σ' ∧ stdout σ' = stdout σ) ∧
  (¬ chars_of query ⊆+ chars_of cand →
   ∃ σ',
     (fuzzable_query ← Fuzzable_init query;
      fuzzable_file ← Fuzzable_init cand;
      _ ← compare_dicts fuzzable_file fuzzable_query;
      colorize colored Path_parent Path_absolute fuzzable_file color) σ =
     Raise AttributeError σ' ∧ stdout σ' = stdout σ).
Proof.
  intros Hwf Hc Hq. split.
  - eexists. rewrite run_bind, (Fuzzable_init_ok cand σ Hc).
    unfold colorize.
    rewrite run_bind, (read_obj_ok _ _ _ (init_state_new cand σ)). done.
  - intros Hsub.
    assert (matches cand query = false) as Hm.
    { destruct (matches cand query) eqn:E; [|done].
      by apply (matches_submseteq _ _ Hq) in E. }
    pose proof (init_state_wf query σ Hwf) as Hwf1.
    destruct (compare_in_scan colored Path_parent Path_absolute
                (length (objs σ)) cand query color (init_state query σ)
                Hwf1 (init_state_query_ok query σ) Hc)
      as (σ2 & Hcmp & _ & _ & Hout & _ & _).
    rewrite Hm in Hcmp. exists σ2.
    rewrite run_bind, (Fuzzable_init_ok query σ Hq).
    rewrite run_bind, (Fuzzable_init_ok cand _ Hc).
    rewrite run_bind, Hcmp. split; [|done].
    apply compare_dicts_Ok in Hcmp as Hex.
    destruct Hex as (f1 & f2 & H1 & H2).
    rewrite (compare_dicts_spec _ _ _ _ _ (init_state_wf cand _ Hwf1) H1 H2)
      in Hcmp.
    apply compare_outcome_inv in Hcmp as (_ & _ & _ & [[_ Hobjs]|[? _]]);
      [|done].
    pose proof (init_state_new cand (init_state query σ)) as Hnew.
    rewrite <- Hobjs in Hnew. unfold colorize.
    rewrite run_bind, (read_obj_ok _ _ _ Hnew). done.
Qed.

Lemma colorize_needs_match_witness :
  (∃ σ',
     (fuzzable ← Fuzzable_init "ab";
      colorize mark id id fuzzable "red") empty_state =
     Raise AttributeError σ' ∧ stdout σ' = stdout empty_state) ∧
  (¬ chars_of "abc" ⊆+ chars_of "ab" →
   ∃ σ',
     (fuzzable_query ← Fuzzable_init "abc";
      fuzzable_file ← Fuzzable_init "ab";
      _ ← compare_dicts fuzzable_file fuzzable_query;
      colorize mark id id fuzzable_file "red") empty_state =
     Raise AttributeError σ' ∧ stdout σ' = stdout empty_state).
Proof.
  apply (colorize_needs_match mark id id "ab" "abc" "red" empty_state).
  - exact empty_state_wf.
  - over_alphabet_by_computation.
  - over_alphabet_by_computation.
Defined.

(** X5. A candidate string and a query string over the alphabet, profiled
    and compared as [main] does for one entry, always give a verdict, and
    it is [True] exactly when the characters of the query, counted with
    their repetitions, are among the characters of the candidate. *)
Theorem fresh_compare_submseteq (cand query : string) (σ : state) :
  store_wf σ → over_alphabet cand → over_alphabet query →
  ∃ b σ',
    fresh_compare cand query σ = Ok b σ' ∧
    (b = true ↔ chars_of query ⊆+ chars_of cand).
Proof.
  intros Hwf Hc Hq.
  destruct (fresh_compare_spec cand query σ Hwf Hc Hq) as (σ' & Hrun).
  exists (matches cand query), σ'. split; [done|].
  by apply matches_submseteq.
Qed.

Lemma fresh_compare_submseteq_witness :
  ∃ b σ',
    fresh_compare "aabbb" "ab" empty_state = Ok b σ' ∧
    (b = true ↔ chars_of "ab" ⊆+ chars_of "aabbb").
Proof.
  apply (fresh_compare_submseteq "aabbb" "ab" empty_state).
  - exact empty_state_wf.
  - over_alphabet_by_computation.
  - over_alphabet_by_computation.
Defined.

(** X6. The verdict does not depend on the order of the characters:
    rearranging the candidate or the query leaves it as it is.  Two
    strings match each other both ways exactly when they are anagrams. *)
Theorem fresh_compare_order_insensitive (cand cand' query query' : string)
    (σ : state) :
  store_wf σ → over_alphabet cand → over_alphabet query →
  chars_of cand ≡ₚ chars_of cand' → chars_of query ≡ₚ chars_of query' →
  (∃ b σ1 σ2,
     fresh_compare cand query σ = Ok b σ1 ∧
     fresh_compare cand' query' σ = Ok b σ2) ∧
  ((∃ σ1 σ2,
      fresh_compare cand query σ = Ok true σ1 ∧
      fresh_compare query cand σ = Ok true σ2) ↔
   chars_of cand ≡ₚ chars_of query).
Proof.
  intros Hwf Hc Hq Hpc Hpq.
  pose proof (over_alphabet_Permutation _ _ Hpc Hc) as Hc'.
  pose proof (over_alphabet_Permutation _ _ Hpq Hq) as Hq'.
  destruct (fresh_compare_spec cand query σ Hwf Hc Hq) as (σ1 & H1).
  destruct (fresh_compare_spec cand' query' σ Hwf Hc' Hq') as (σ2 & H2).
  destruct (fresh_compare_spec query cand σ Hwf Hq Hc) as (σ3 & H3).
  pose proof (matches_submseteq cand query Hq) as M1.
  pose proof (matches_submseteq cand' query' Hq') as M2.
  pose proof (matches_submseteq query cand Hc) as M3.
  split.
  - exists (matches cand query), σ1, σ2. split; [done|].
    rewrite H2. f_equal.
    rewrite <- Hpc, <- Hpq in M2.
    destruct (matches cand query), (matches cand' query'); try done.
    + by pose proof (proj2 M2 (proj1 M1 eq_refl)).
    + by pose proof (proj2 M1 (proj1 M2 eq_refl)).
  - split.
    + intros (τ1 & τ2 & E1 & E3). rewrite H1 in E1. rewrite H3 in E3.
      injection E1 as E1 _. injection E3 as E3 _.
      apply (anti_symm submseteq); [by apply M3|by apply M1].
    + intros Hp. exists σ1, σ3. rewrite H1, H3.
      assert (matches cand query = true) as -> by (apply M1; by rewrite Hp).
      assert (matches query cand = true) as -> by (apply M3; by rewrite Hp).
      done.
Qed.

Lemma fresh_compare_order_insensitive_witness :
  (∃ b σ1 σ2,
     fresh_compare "listen" "ten" empty_state = Ok b σ1 ∧
     fresh_compare "silent" "net" empty_state = Ok b σ2) ∧
  ((∃ σ1 σ2,
      fresh_compare "listen" "ten" empty_state = Ok true σ1 ∧
      fresh_compare "ten" "listen" empty_state = Ok true σ2) ↔
   chars_of "listen" ≡ₚ chars_of "ten").
Proof.
  apply (fresh_compare_order_insensitive "listen" "silent" "ten" "net"
           empty_state).
  - exact empty_state_wf.
  - over_alphabet_by_computation.
  - over_alphabet_by_computation.
  - apply (bool_decide_unpack _). vm_compute. reflexivity.
  - apply (bool_decide_unpack _). vm_compute. reflexivity.
Defined.

(** X7. A query whose characters are a subsequence of the candidate is a
    match, and a query that matches is never longer than the candidate. *)
Theorem fresh_compare_subsequence (cand query : string) (σ : state) :
  store_wf σ → over_alphabet cand → over_alphabet query →
  (chars_of query `sublist_of` chars_of cand →
   ∃ σ', fresh_compare cand query σ = Ok true σ') ∧
  (∀ σ', fresh_compare cand query σ = Ok true σ' →
         String.length query ≤ String.length cand).
Proof.
  intros Hwf Hc Hq.
  destruct (fresh_compare_spec cand query σ Hwf Hc Hq) as (σ1 & H1).
  pose proof (matches_submseteq cand query Hq) as M1. split.
  - intros Hsub%sublist_submseteq. exists σ1. rewrite H1.
    by rewrite (proj2 M1 Hsub).
  - intros σ' E. rewrite H1 in E. injection E as E _.
    rewrite <- !chars_of_length. by apply submseteq_length, M1.
Qed.

Lemma fresh_compare_subsequence_witness :
  (chars_of "ace" `sublist_of` chars_of "abcde" →
   ∃ σ', fresh_compare "abcde" "ace" empty_state = Ok true σ') ∧
  (∀ σ', fresh_compare "abcde" "ace" empty_state = Ok true σ' →
         String.length "ace" ≤ String.length "abcde").
Proof.
  apply (fresh_compare_subsequence "abcde" "ace" empty_state).
  - exact empty_state_wf.
  - over_alphabet_by_computation.
  - over_alphabet_by_computation.
Defined.

(** ** The presentation of a match *)

(** X8. When the query matches, the line printed for the candidate is
    built from a list of marked indexes that has no repetition and as many
    elements as the query has characters, and the characters standing at
    these indexes in the candidate are the characters of the query, up to
    their order. *)
Theorem report_marks_query (colored : ascii → string → string)
    (Path_parent Path_absolute : string → string)
    (cand query color : string) (σ : state) :
  store_wf σ → over_alphabet cand → over_alphabet query →
  chars_of query ⊆+ chars_of cand →
  ∃ matching_indexes cs σ',
    report colored Path_parent Path_absolute cand query color σ =
      Ok (Some (os_path_join (Path_parent cand)
                  (paint colored 0 (chars_of (Path_absolute cand))
                     matching_indexes color EmptyString))) σ' ∧
    NoDup matching_indexes ∧
    length matching_indexes = String.length query ∧
    Forall2 (λ i c, chars_of cand !! i = Some c) matching_indexes cs ∧
    cs ≡ₚ chars_of query.
Proof.
  intros Hwf Hc Hq Hsub.
  apply (matches_submseteq _ _ Hq) in Hsub as Hm.
  destruct (report_spec colored Path_parent Path_absolute cand query color σ
              Hwf Hc Hq) as (σ' & _ & Hrun & _).
  rewrite Hm in Hrun.
  destruct (matched_indexes_chars cand query Hq Hm) as (cs & Hcs & Hperm).
  exists (matched_indexes cand query), cs, σ'.
  split_and!; [done|apply matched_indexes_NoDup| |done|done].
  by apply matched_indexes_length.
Qed.

Lemma report_marks_query_witness :
  ∃ matching_indexes cs σ',
    report mark id id "/d/apple" "pal" "red" empty_state =
      Ok (Some (os_path_join (id "/d/apple")
                  (paint mark 0 (chars_of (id "/d/apple"))
                     matching_indexes "red" EmptyString))) σ' ∧
    NoDup matching_indexes ∧
    length matching_indexes = String.length "pal" ∧
    Forall2 (λ i c, chars_of "/d/apple" !! i = Some c) matching_indexes cs ∧
    cs ≡ₚ chars_of "pal".
Proof.
  apply (report_marks_query mark id id "/d/apple" "pal" "red" empty_state).
  - exact empty_state_wf.
  - over_alphabet_by_computation.
  - over_alphabet_by_computation.
  - apply (bool_decide_unpack _). vm_compute. reflexivity.
Defined.

(** X9. For a candidate that is an absolute path and a matching query
    without the separator, [os.path.join] drops the directory name it is
    given: the line is the painted path alone, and it is the path itself
    when the collaborator returns the bare character. *)
Theorem report_absolute_path (colored : ascii → string → string)
    (Path_parent Path_absolute : string → string)
    (cand query color rest : string) (σ : state) :
  store_wf σ → over_alphabet cand → over_alphabet query →
  chars_of query ⊆+ chars_of cand →
  Path_absolute cand = cand → cand = String "/" rest →
  ("/"%char ∉ chars_of query) →
  ∃ σ',
    report colored Path_parent Path_absolute cand query color σ =
      Ok (Some (paint colored 0 (chars_of cand) (matched_indexes cand query)
                  color EmptyString)) σ' ∧
    ((∀ c, colored c color = String c EmptyString) →
     report colored Path_parent Path_absolute cand query color σ =
       Ok (Some cand) σ').
Proof.
  intros Hwf Hc Hq Hsub Habs Hcand Hsep.
  apply (matches_submseteq _ _ Hq) in Hsub as Hm.
  destruct (report_spec colored Path_parent Path_absolute cand query color σ
              Hwf Hc Hq) as (σ' & _ & Hrun & _).
  rewrite Hm in Hrun. unfold report_line in Hrun. rewrite Habs in Hrun.
  assert (chars_of cand = "/"%char :: chars_of rest) as Hcs by by rewrite Hcand.
  assert ("/"%char ∈ printable) as Hin.
  { unfold over_alphabet in Hc. rewrite Forall_forall in Hc. apply Hc.
    rewrite Hcs. by left. }
  assert (0 ∉ matched_indexes cand query) as H0.
  { by rewrite (matched_indexes_head _ _ _ _ Hcs Hin). }
  rewrite os_path_join_absolute in Hrun.
  - exists σ'. split; [done|]. intros Hplain. rewrite Hrun.
    rewrite paint_plain by (by right).
    unfold chars_of. by rewrite string_of_list_ascii_of_string.
  - rewrite Hcs, paint_cons, bool_decide_eq_false_2 by done. done.
Qed.

Lemma report_absolute_path_witness :
  ∃ σ',
    report mark id id "/d/apple" "pal" "red" empty_state =
      Ok (Some (paint mark 0 (chars_of "/d/apple")
                  (matched_indexes "/d/apple" "pal") "red" EmptyString)) σ' ∧
    ((∀ c, mark c "red" = String c EmptyString) →
     report mark id id "/d/apple" "pal" "red" empty_state =
       Ok (Some "/d/apple"%string) σ').
Proof.
  apply (report_absolute_path mark id id "/d/apple" "pal" "red" "d/apple"
           empty_state).
  - exact empty_state_wf.
  - over_alphabet_by_computation.
  - over_alphabet_by_computation.
  - apply (bool_decide_unpack _). vm_compute. reflexivity.
  - reflexivity.
  - reflexivity.
  - apply (bool_decide_unpack _). vm_compute. reflexivity.
Defined.

(** X10. For a candidate that is an absolute path and a matching query
    that has the separator, the first character of the path is marked; when
    the collaborator then returns a string that does not begin with the
    separator, [os.path.join] keeps the directory name, and the line is the
    directory name followed by the whole painted path. *)
Theorem report_repeats_directory (colored : ascii → string → string)
    (Path_parent Path_absolute : string → string)
    (cand query color rest : string) (a : ascii) (tl : string) (σ : state) :
  store_wf σ → over_alphabet cand → over_alphabet query →
  chars_of query ⊆+ chars_of cand →
  Path_absolute cand = cand → cand = String "/" rest →
  "/"%char ∈ chars_of query →
  colored "/"%char color = String a tl → a ≠ "/"%char →
  ∃ line σ',
    report colored Path_parent Path_absolute cand query color σ =
      Ok (Some line) σ' ∧
    let output :=
      paint colored 0 (chars_of cand) (matched_indexes cand query) color
        EmptyString in
    0 ∈ matched_indexes cand query ∧
    (line = Path_parent cand +:+ output ∨
     line = Path_parent cand +:+ String "/" output).
Proof.
  intros Hwf Hc Hq Hsub Habs Hcand Hsep Hcol Ha.
  apply (matches_submseteq _ _ Hq) in Hsub as Hm.
  destruct (report_spec colored Path_parent Path_absolute cand query color σ
              Hwf Hc Hq) as (σ' & _ & Hrun & _).
  rewrite Hm in Hrun. unfold report_line in Hrun. rewrite Habs in Hrun.
  assert (chars_of cand = "/"%char :: chars_of rest) as Hcs by by rewrite Hcand.
  assert ("/"%char ∈ printable) as Hin.
  { unfold over_alphabet in Hc. rewrite Forall_forall in Hc. apply Hc.
    rewrite Hcs. by left. }
  assert (0 ∈ matched_indexes cand query) as H0.
  { by rewrite (matched_indexes_head _ _ _ _ Hcs Hin). }
  eexists _, σ'. split; [exact Hrun|]. split; [done|].
  apply os_path_join_relative.
  rewrite Hcs, paint_cons, bool_decide_eq_true_2, Hcol by done.
  cbn. by apply bool_decide_eq_false_2.
Qed.

Lemma report_repeats_directory_witness :
  ∃ line σ',
    report mark (λ _, "/d"%string) id "/d/apple" "/a" "red" empty_state =
      Ok (Some line) σ' ∧
    let output :=
      paint mark 0 (chars_of "/d/apple") (matched_indexes "/d/apple" "/a")
        "red" EmptyString in
    0 ∈ matched_indexes "/d/apple" "/a" ∧
    (line = "/d" +:+ output ∨ line = "/d" +:+ String "/" output).
Proof.
  apply (report_repeats_directory mark (λ _, "/d"%string) id "/d/apple" "/a"
           "red" "d/apple" "<" "/>" empty_state).
  - exact empty_state_wf.
  - over_alphabet_by_computation.
  - over_alphabet_by_computation.
  - apply (bool_decide_unpack _). vm_compute. reflexivity.
  - reflexivity.
  - reflexivity.
  - apply (bool_decide_unpack _). vm_compute. reflexivity.
  - reflexivity.
  - discriminate.
Defined.

(** ** The scan of a directory *)

(** X11. On an existing directory, with a query that is not empty and is
    over the alphabet, [main] goes through the entries in the order of the
    listing up to the first one whose path has a character outside
    [printable].  It prints one line for each matching entry before that
    one and nothing on the error stream; it returns when there is no such
    entry, and otherwise ends with the [KeyError] of the first character of
    that path outside [printable]. *)
Theorem main_outcome (colored : ascii → string → string)
    (Path_parent Path_absolute : string → string) (p : PathArg)
    (query color : string) (σ : state) :
  store_wf σ → path_exists p && path_is_dir p = true →
  query ≠ EmptyString → over_alphabet query →
  ∃ σ',
    stdout σ' =
      stdout σ ++
      ((λ cand, report_line colored Path_parent Path_absolute cand query color)
         <$> filter (λ cand, matches cand query = true)
               (candidate p <$> scanned p (dir_entries p))) ∧
    stderr σ' = stderr σ ∧
    match dir_entries p !! length (scanned p (dir_entries p)) with
    | None => main colored Path_parent Path_absolute p query color σ = Ok tt σ'
    | Some bad =>
        ∃ pre c post,
          main colored Path_parent Path_absolute p query color σ =
            Raise (KeyError c) σ' ∧
          chars_of (candidate p bad) = pre ++ c :: post ∧
          Forall (λ x, x ∈ printable) pre ∧ (c ∉ printable)
    end.
Proof.
  intros Hwf Hvalid Hne Hquery.
  destruct (scanned_split p (dir_entries p))
    as (rest & Hfiles & Hgood & Hnext & Hbad).
  rewrite main_scan by done.
  rewrite run_bind, Fuzzable_init_ok by done.
  destruct (scan_prefix colored Path_parent Path_absolute p (length (objs σ))
              query color (scanned p (dir_entries p)) rest
              (init_state query σ))
    as (σ1 & Hscan & _ & _ & Hout & Herr);
    [by apply init_state_wf|apply init_state_query_ok|done|].
  rewrite Hnext. set (good := scanned p (dir_entries p)) in *.
  clearbody good. rewrite Hfiles, Hscan.
  destruct rest as [|bad rest]; cbn [head].
  - by exists σ1.
  - cbn [scan]. fold (candidate p bad).
    rewrite run_bind, Fuzzable_init_spec.
    destruct (first_unknown printable (chars_of (candidate p bad))) as [c|]
      eqn:Hfirst.
    + apply first_unknown_split in Hfirst as (pre & post & Hs & Hpre & Hc).
      eexists. split_and!; [|  |by exists pre, c, post]; cbn; done.
    + destruct (Hbad bad eq_refl). by apply first_unknown_None.
Qed.

Lemma main_outcome_witness :
  let p := dir_of [entry_a; entry_latin1; entry_a] in
  ∃ σ',
    stdout σ' =
      stdout empty_state ++
      ((λ cand, report_line mark (λ _, "/d"%string) id cand "a" "red")
         <$> filter (λ cand, matches cand "a" = true)
               (candidate p <$> scanned p (dir_entries p))) ∧
    stderr σ' = stderr empty_state ∧
    match dir_entries p !! length (scanned p (dir_entries p)) with
    | None => main mark (λ _, "/d"%string) id p "a" "red" empty_state = Ok tt σ'
    | Some bad =>
        ∃ pre c post,
          main mark (λ _, "/d"%string) id p "a" "red" empty_state =
            Raise (KeyError c) σ' ∧
          chars_of (candidate p bad) = pre ++ c :: post ∧
          Forall (λ x, x ∈ printable) pre ∧ (c ∉ printable)
    end.
Proof.
  apply (main_outcome mark (λ _, "/d"%string) id
           (dir_of [entry_a; entry_latin1; entry_a]) "a" "red" empty_state).
  - exact empty_state_wf.
  - reflexivity.
  - discriminate.
  - over_alphabet_by_computation.
Defined.

(** X12. When the path does not exist or is not a directory, [main] ends
    with the [OSError] of [os.scandir], whatever the query: it has written
    the warning of each failed check to the error stream, and it has
    printed nothing and built no profile. *)
Theorem main_not_a_directory (colored : ascii → string → string)
    (Path_parent Path_absolute : string → string) (p : PathArg)
    (query color : string) (σ : state) :
  path_exists p && path_is_dir p = false →
  ∃ σ',
    main colored Path_parent Path_absolute p query color σ = Raise OSError σ' ∧
    stdout σ' = stdout σ ∧ cells σ' = cells σ ∧ objs σ' = objs σ ∧
    stderr σ' =
      stderr σ ++
      (if path_exists p then []
       else ["Path '" +:+ path_str p +:+ "' does not exist."]) ++
      (if path_is_dir p then []
       else ["Path '" +:+ path_str p +:+ "' is not a directory."]) ∧
    length (stderr σ) < length (stderr σ').
Proof.
  intros Hbad. eexists. split; [by apply main_invalid_path|].
  split_and!; try done. cbn. unfold path_warnings. rewrite !length_app.
  destruct (path_exists p), (path_is_dir p); cbn in *; (lia || done).
Qed.

Lemma main_not_a_directory_witness :
  let p := MkPathArg "nowhere" false false "/nowhere" [] in
  ∃ σ',
    main mark id id p "a" "red" empty_state = Raise OSError σ' ∧
    stdout σ' = stdout empty_state ∧ cells σ' = cells empty_state ∧
    objs σ' = objs empty_state ∧
    stderr σ' =
      stderr empty_state ++
      (if path_exists p then []
       else ["Path '" +:+ path_str p +:+ "' does not exist."]) ++
      (if path_is_dir p then []
       else ["Path '" +:+ path_str p +:+ "' is not a directory."]) ∧
    length (stderr empty_state) < length (stderr σ').
Proof.
  apply (main_not_a_directory mark id id
           (MkPathArg "nowhere" false false "/nowhere" []) "a" "red"
           empty_state).
  reflexivity.
Defined.

(** X13. On an existing directory, a query with a character outside
    [printable] ends [main] with the [KeyError] of the first such
    character, before any entry is looked at: nothing is printed on either
    stream and no object is created, whatever the directory holds. *)
Theorem main_query_outside_alphabet (colored : ascii → string → string)
    (Path_parent Path_absolute : string → string) (p : PathArg)
    (query color : string) (σ : state) :
  path_exists p && path_is_dir p = true → ¬ over_alphabet query →
  ∃ pre c post σ',
    main colored Path_parent Path_absolute p query color σ =
      Raise (KeyError c) σ' ∧
    chars_of query = pre ++ c :: post ∧
    Forall (λ x, x ∈ printable) pre ∧ (c ∉ printable) ∧
    stdout σ' = stdout σ ∧ stderr σ' = stderr σ ∧ objs σ' = objs σ.
Proof.
  intros Hvalid Hq.
  assert (query ≠ EmptyString) as Hne.
  { intros ->. apply Hq. constructor. }
  rewrite main_scan by done. rewrite run_bind, Fuzzable_init_spec.
  destruct (first_unknown printable (chars_of query)) as [c|] eqn:Hfirst.
  - apply first_unknown_split in Hfirst as (pre & post & Hs & Hpre & Hc).
    by eexists pre, c, post, _.
  - destruct Hq. by apply first_unknown_None.
Qed.

Lemma main_query_outside_alphabet_witness :
  ∃ pre c post σ',
    main mark id id (dir_of [entry_a])
      (String "a" (String (ascii_of_nat 233) "b")) "red" empty_state =
      Raise (KeyError c) σ' ∧
    chars_of (String "a" (String (ascii_of_nat 233) "b")) = pre ++ c :: post ∧
    Forall (λ x, x ∈ printable) pre ∧ (c ∉ printable) ∧
    stdout σ' = stdout empty_state ∧ stderr σ' = stderr empty_state ∧
    objs σ' = objs empty_state.
Proof.
  apply (main_query_outside_alphabet mark id id (dir_of [entry_a])
           (String "a" (String (ascii_of_nat 233) "b")) "red" empty_state).
  - reflexivity.
  - unfold over_alphabet. apply (bool_decide_unpack _). vm_compute.
    reflexivity.
Defined.

(** X14. The string profiled for an entry is the absolute path of the
    directory joined with the name, so the directory takes part in the
    match: a query whose characters are all found, with their repetitions,
    in the path of the directory is matched by every entry, and [main]
    prints one line for each entry of the listing. *)
Theorem main_matches_directory (colored : ascii → string → string)
    (Path_parent Path_absolute : string → string) (p : PathArg)
    (query color : string) (σ : state) :
  store_wf σ → path_exists p && path_is_dir p = true →
  query ≠ EmptyString → over_alphabet query →
  Forall (λ file, over_alphabet (candidate p file) ∧
                  starts_with_sep (entry_name file) = false) (dir_entries p) →
  chars_of query ⊆+ chars_of (path_absolute p) →
  ∃ σ',
    main colored Path_parent Path_absolute p query color σ = Ok tt σ' ∧
    stdout σ' =
      stdout σ ++
      ((λ file, report_line colored Path_parent Path_absolute
                  (candidate p file) query color) <$> dir_entries p).
Proof.
  intros Hwf Hvalid Hne Hq Hall Hsub.
  destruct (main_reports colored Path_parent Path_absolute p query color σ)
    as (σ' & Hrun & Hout & _); try done.
  { eapply Forall_impl; [exact Hall|]. by intros file [? _]. }
  exists σ'. split; [done|]. rewrite Hout. f_equal.
  rewrite filter_Forall_id; [by rewrite <- list_fmap_compose|].
  apply Forall_fmap. eapply Forall_impl; [exact Hall|].
  intros file [_ Hname]. cbn. apply (matches_submseteq _ _ Hq).
  etrans; [exact Hsub|]. by apply os_path_join_submseteq.
Qed.

Lemma main_matches_directory_witness :
  let p :=
    MkPathArg "data" true true "/srv/data"
      [MkDirEntry "x.c" "data/x.c"; MkDirEntry "y.h" "data/y.h"] in
  ∃ σ',
    main mark (λ _, "/srv/data"%string) id p "dat" "red" empty_state
      = Ok tt σ' ∧
    stdout σ' =
      stdout empty_state ++
      ((λ file, report_line mark (λ _, "/srv/data"%string) id
                  (candidate p file) "dat" "red") <$> dir_entries p).
Proof.
  apply (main_matches_directory mark (λ _, "/srv/data"%string) id
           (MkPathArg "data" true true "/srv/data"
              [MkDirEntry "x.c" "data/x.c"; MkDirEntry "y.h" "data/y.h"])
           "dat" "red" empty_state).
  - exact empty_state_wf.
  - reflexivity.
  - discriminate.
  - over_alphabet_by_computation.
  - repeat constructor; over_alphabet_by_computation.
  - apply (bool_decide_unpack _). vm_compute. reflexivity.
Defined.

(** X15. The lines [main] prints for a directory of names over the
    alphabet do not depend on the order in which the entries are listed:
    two listings of the same entries give the same lines, up to their
    order. *)
Theorem main_listing_order (colored : ascii → string → string)
    (Path_parent Path_absolute : string → string) (p1 p2 : PathArg)
    (query color : string) (σ : state) :
  store_wf σ →
  path_exists p1 && path_is_dir p1 = true →
  path_exists p2 && path_is_dir p2 = true →
  path_absolute p2 = path_absolute p1 →
  dir_entries p1 ≡ₚ dir_entries p2 →
  query ≠ EmptyString → over_alphabet query →
  Forall (λ file, over_alphabet (candidate p1 file)) (dir_entries p1) →
  ∃ lines1 lines2 σ1 σ2,
    main colored Path_parent Path_absolute p1 query color σ = Ok tt σ1 ∧
    main colored Path_parent Path_absolute p2 query color σ = Ok tt σ2 ∧
    stdout σ1 = stdout σ ++ lines1 ∧
    stdout σ2 = stdout σ ++ lines2 ∧
    lines1 ≡ₚ lines2.
Proof.
  intros Hwf Hv1 Hv2 Habs Hperm Hne Hq Hall.
  destruct (main_order_independent colored Path_parent Path_absolute p1 p2
              query color σ Hwf Hv1 Hv2 Habs Hperm Hne Hq Hall)
    as (σ1 & σ2 & Hrun1 & Hrun2 & Hout1 & Hout2 & Hlines).
  by eexists _, _, σ1, σ2.
Qed.

Lemma main_listing_order_witness :
  let e1 := MkDirEntry "apple.txt" "d/apple.txt" in
  let e2 := MkDirEntry "grape.txt" "d/grape.txt" in
  ∃ lines1 lines2 σ1 σ2,
    main mark (λ _, "/d"%string) id (dir_of [e1; e2]) "ap" "red" empty_state
      = Ok tt σ1 ∧
    main mark (λ _, "/d"%string) id (dir_of [e2; e1]) "ap" "red" empty_state
      = Ok tt σ2 ∧
    stdout σ1 = stdout empty_state ++ lines1 ∧
    stdout σ2 = stdout empty_state ++ lines2 ∧
    lines1 ≡ₚ lines2.
Proof.
  apply (main_listing_order mark (λ _, "/d"%string) id
           (dir_of [MkDirEntry "apple.txt" "d/apple.txt";
                    MkDirEntry "grape.txt" "d/grape.txt"])
           (dir_of [MkDirEntry "grape.txt" "d/grape.txt";
                    MkDirEntry "apple.txt" "d/apple.txt"])
           "ap" "red" empty_state).
  - exact empty_state_wf.
  - reflexivity.
  - reflexivity.
  - reflexivity.
  - apply Permutation_swap.
  - discriminate.
  - over_alphabet_by_computation.
  - repeat constructor; over_alphabet_by_computation.
Defined.

(** ** The stores the program can reach *)

(** X16. In every store the program can reach, each [Fuzzable] is a
    profile of its own [path]: the path is over the alphabet, the keys of
    [non_zero] are its characters in the order of [printable], the count
    kept for a character is the number of its occurrences in the path, and
    the position list kept for it is a prefix of the increasing list of the
    indexes at which it stands.  [shared], once assigned, is a part of
    [non_zero]. *)
Theorem reachable_profiles (σ : state) :
  reachable σ →
  ∀ r o, objs σ !! r = Some o →
    over_alphabet (path o) ∧
    keys (non_zero o) = filter (λ c, c ∈ chars_of (path o)) printable ∧
    (∀ sh, shared o = Some sh → sh `sublist_of` non_zero o) ∧
    ∀ c y, (c, y) ∈ non_zero o →
      ∃ e, cells σ !! y = Some e ∧
           count e = count_of c (chars_of (path o)) ∧
           positions e `prefix_of` occurrences c 0 (chars_of (path o)).
Proof.
  intros Hreach r o Ho.
  destruct (reachable_faithful σ Hreach r o Ho)
    as (Hover & Hsh & base & Hnz & Hcells).
  split_and!; [done| |done|].
  - rewrite Hnz, keys_profile_dict. apply filter_ext_in.
    intros c _. rewrite occ_count_of. apply count_of_pos.
  - intros c y Hin. rewrite Hnz in Hin.
    apply profile_dict_elem in Hin as (i & Hi & -> & _).
    destruct (Hcells i c Hi) as [n Hn]. rewrite tally_occ in Hn.
    eexists. split; [exact Hn|]. cbn. split; [apply occ_count_of|].
    apply prefix_take.
Qed.

Lemma reachable_profiles_witness :
  let o := MkFuzzable "aa" (Some [("a"%char, 10)]) [("a"%char, 10)] in
  over_alphabet (path o) ∧
  keys (non_zero o) = filter (λ c, c ∈ chars_of (path o)) printable ∧
  (∀ sh, shared o = Some sh → sh `sublist_of` non_zero o) ∧
  ∀ c y, (c, y) ∈ non_zero o →
    ∃ e, cells store_aa_a_compared !! y = Some e ∧
         count e = count_of c (chars_of (path o)) ∧
         positions e `prefix_of` occurrences c 0 (chars_of (path o)).
Proof.
  apply (reachable_profiles store_aa_a_compared
           store_aa_a_compared_reachable 0).
  reflexivity.
Defined.

(** X17. In every store the program can reach, a cell belongs to one
    object and to one key: two entries of [non_zero] dictionaries that hold
    the same cell are the same entry of the same object. *)
Theorem reachable_no_sharing (σ : state) :
  reachable σ →
  ∀ r1 r2 o1 o2 c1 c2 y,
    objs σ !! r1 = Some o1 → objs σ !! r2 = Some o2 →
    (c1, y) ∈ non_zero o1 → (c2, y) ∈ non_zero o2 →
    r1 = r2 ∧ c1 = c2.
Proof.
  intros Hwf%reachable_wf r1 r2 o1 o2 c1 c2 y H1 H2 Hin1 Hin2.
  assert (y ∈ values (non_zero o1)) as Hy1.
  { apply list_elem_of_fmap. by exists (c1, y). }
  assert (y ∈ values (non_zero o2)) as Hy2.
  { apply list_elem_of_fmap. by exists (c2, y). }
  destruct (decide (r1 = r2)) as [->|Hne].
  - split; [done|]. assert (o2 = o1) as -> by congruence.
    destruct (wf_profiles _ Hwf _ _ H1) as [Hk Hv _].
    apply (dict_get_injective (non_zero o1) c1 c2 y Hv);
      by apply dict_get_NoDup.
  - by destruct (wf_separate _ Hwf r1 r2 o1 o2 y Hne H1 H2 Hy1).
Qed.

Lemma reachable_no_sharing_witness : 0 = 0 ∧ "a"%char = "a"%char.
Proof.
  apply (reachable_no_sharing store_aa_a_compared
           store_aa_a_compared_reachable 0 0
           (MkFuzzable "aa" (Some [("a"%char, 10)]) [("a"%char, 10)])
           (MkFuzzable "aa" (Some [("a"%char, 10)]) [("a"%char, 10)])
           "a"%char "a"%char 10).
  - reflexivity.
  - reflexivity.
  - apply list_elem_of_here.
  - apply list_elem_of_here.
Defined.

(** ** What is left untouched *)

(** X18. [colorize] only reads: whatever it returns or raises, the store
    and the two streams are as before.  It returns only for an object whose
    [shared] has been assigned. *)
Theorem colorize_reads_only (colored : ascii → string → string)
    (Path_parent Path_absolute : string → string) (fuzzable : nat)
    (color : string) (σ : state) :
  final_state (colorize colored Path_parent Path_absolute fuzzable color σ)
  = σ ∧
  ∀ line σ',
    colorize colored Path_parent Path_absolute fuzzable color σ = Ok line σ' →
    ∃ o sh, objs σ !! fuzzable = Some o ∧ shared o = Some sh.
Proof.
  split; [apply colorize_state|]. intros line σ'.
  unfold colorize. rewrite run_bind. unfold read_obj.
  destruct (objs σ !! fuzzable) as [f|]; [|done].
  destruct (shared f) as [sh|] eqn:E; [|done]. intros _. by exists f, sh.
Qed.

Lemma colorize_reads_only_witness :
  final_state (colorize mark id id 0 "red" store_aa_a_compared)
  = store_aa_a_compared ∧
  ∀ line σ',
    colorize mark id id 0 "red" store_aa_a_compared = Ok line σ' →
    ∃ o sh, objs store_aa_a_compared !! 0 = Some o ∧ shared o = Some sh.
Proof.
  exact (colorize_reads_only mark id id 0 "red" store_aa_a_compared).
Defined.

(** X19. [main] never touches an object or a cell that existed before it
    ran, however it ends.  The object it builds for the query keeps its
    [shared] field unset through the whole scan. *)
Theorem main_preserves_store (colored : ascii → string → string)
    (Path_parent Path_absolute : string → string) (p : PathArg)
    (query color : string) (σ : state) :
  store_wf σ →
  let σ' :=
    final_state (main colored Path_parent Path_absolute p query color σ) in
  (∀ r o, objs σ !! r = Some o → objs σ' !! r = Some o) ∧
  (∀ y e, cells σ !! y = Some e → cells σ' !! y = Some e) ∧
  (path_exists p && path_is_dir p = true → query ≠ EmptyString →
   over_alphabet query →
   ∃ o, objs σ' !! length (objs σ) = Some o ∧
        path o = query ∧ shared o = None).
Proof.
  intros Hwf σ'.
  assert (extends σ σ' ∧
          (path_exists p && path_is_dir p = true → query ≠ EmptyString →
           over_alphabet query → extends (init_state query σ) σ'))
    as [[Hobjs Hcells] Hq].
  { subst σ'. destruct (path_exists p && path_is_dir p) eqn:Hvalid.
    - destruct (decide (query = EmptyString)) as [->|Hne].
      + rewrite main_empty_query by done. by split.
      + rewrite main_scan by done. rewrite run_bind, Fuzzable_init_spec.
        destruct (first_unknown printable (chars_of query)) eqn:E.
        * split; [apply extends_grow|].
          intros _ _ Hover%first_unknown_None. congruence.
        * fold (init_state query σ).
          pose proof (scan_extends colored Path_parent Path_absolute p
                        (length (objs σ)) color (dir_entries p)
                        (init_state query σ) (init_state_wf _ _ Hwf)) as Hext.
          split; [|done].
          apply (extends_trans _ (init_state query σ));
            [apply extends_init_state|done].
    - rewrite main_invalid_path by done. by split. }
  split_and!; [done|done|].
  intros Hvalid Hne Hover. destruct (Hq Hvalid Hne Hover) as [Hnew _].
  eexists. split; [apply Hnew, init_state_new|done].
Qed.

Lemma main_preserves_store_witness :
  let σ' :=
    final_state
      (main mark (λ _, "/d"%string) id (dir_of [entry_a]) "a" "red"
         store_aa_a) in
  (∀ r o, objs store_aa_a !! r = Some o → objs σ' !! r = Some o) ∧
  (∀ y e, cells store_aa_a !! y = Some e → cells σ' !! y = Some e) ∧
  (path_exists (dir_of [entry_a]) && path_is_dir (dir_of [entry_a]) = true →
   "a"%string ≠ EmptyString → over_alphabet "a" →
   ∃ o, objs σ' !! length (objs store_aa_a) = Some o ∧
        path o = "a"%string ∧ shared o = None).
Proof.
  apply (main_preserves_store mark (λ _, "/d"%string) id (dir_of [entry_a])
           "a" "red" store_aa_a).
  exact store_aa_a_wf.
Defined.

(** X20. Comparing the same two objects a second time gives the same
    verdict and changes nothing: the position lists are already cut and
    [shared], if it was assigned, is assigned the same dictionary. *)
Theorem compare_dicts_idempotent (fuzz1 fuzz2 : nat) (σ σ' : state)
    (b : bool) :
  store_wf σ → compare_dicts fuzz1 fuzz2 σ = Ok b σ' →
  compare_dicts fuzz1 fuzz2 σ' = Ok b σ'.
Proof.
  intros Hwf Hrun.
  destruct (compare_dicts_Ok _ _ _ _ _ Hrun) as (f1 & f2 & H1 & H2).
  rewrite (compare_dicts_spec _ _ f1 f2) in Hrun by done.
  pose proof (compare_outcome_wf _ _ _ _ _ _ Hwf H1 Hrun) as Hwf'.
  destruct (compare_outcome_objs _ _ _ _ _ _ _ _ H1 Hrun H1)
    as (f1' & H1' & Hnz1 & Hp1 & _).
  destruct (compare_outcome_objs _ _ _ _ _ _ _ _ H1 Hrun H2)
    as (f2' & H2' & Hnz2 & _ & _).
  rewrite (compare_dicts_spec _ _ f1' f2') by done.
  by apply (compare_outcome_idempotent _ f1 f2 f1' f2' σ).
Qed.

Lemma compare_dicts_idempotent_witness :
  compare_dicts 0 1 store_aa_a_compared = Ok true store_aa_a_compared.
Proof.
  apply (compare_dicts_idempotent 0 1 store_aa_a store_aa_a_compared true).
  - exact store_aa_a_wf.
  - vm_compute. reflexivity.
Defined.
